(** * Herbst: timestamp allocation, highlight lookup, speech cues and the
      suggestopedia cycle of [src/App.tsx]

    The development embeds four pieces of [App.tsx]:

    - [calculateTimestamps] (the timestamp allocator),
    - the [findIndex] scan of [syncHighlighting] (the active-segment lookup),
    - [speak] (the speech cue), and
    - [startSuggestopedia] / [stopSuggestopedia] / [skipToNextWord] /
      [runSuggestopediaCycle] (the session cycle).

    Around them it embeds the code they work with: [createWavUrl],
    [writeString], [decode] and [generateSpeech] of [geminiService.ts], which
    produce the audio and its duration; [playAudio], [changeSpeed],
    [handleSegmentClick], [handleGenerateAndPlayAudio] and the whole of
    [syncHighlighting], which stamp the segments, seek in the audio and move
    the highlight; [nextCard] and [prevCard]; and
    [renderSuggestopediaOverlay].

    JavaScript numbers that carry a time are IEEE 754 binary64 values; they
    are modelled by [spec_float] with the binary64 instances of the
    operations of [SpecFloat].  JavaScript numbers that are small
    non-negative integers (string lengths, weights, indices) are modelled by
    [Z] and [nat]; integer arithmetic on doubles is exact below [2^53], and
    the theorems that depend on it carry that bound as a hypothesis.  The
    exact value of a double is a rational ([Num.toQ]); distances between
    times are measured on these values. *)

From Stdlib Require Import ZArith List Bool Lia String Ascii PArith.
From Stdlib Require Import QArith Qabs Qpower Lqa.
From Stdlib Require Import SpecFloat.
Import ListNotations.

Local Open Scope Z_scope.

(** ** JavaScript numbers *)

Module Num.

Definition number := spec_float.

Definition prec : Z := 53.
Definition emax : Z := 1024.

Definition add : number -> number -> number := SFadd prec emax.
Definition sub : number -> number -> number := SFsub prec emax.
Definition mul : number -> number -> number := SFmul prec emax.
Definition div : number -> number -> number := SFdiv prec emax.
Definition abs : number -> number := SFabs.

(** The double nearest to an integer: an integer literal, or the result of
    an exact integer operation. *)
Definition of_Z (z : Z) : number := binary_normalize prec emax z 0 false.

Definition zero : number := S754_zero false.
Definition Infinity : number := S754_infinity false.
Definition NaN : number := S754_nan.

(** [a <= b], [a >= b] and [a < b] of JavaScript: false as soon as one side
    is NaN. *)
Definition leb (a b : number) : bool := SFleb a b.
Definition geb (a b : number) : bool := SFleb b a.
Definition ltb (a b : number) : bool := SFltb a b.

(** Truthiness of a number: [0], [-0] and [NaN] are falsy. *)
Definition truthy (a : number) : bool :=
  match a with
  | S754_zero _ | S754_nan => false
  | _ => true
  end.

Definition is_zero (a : number) : bool :=
  match a with S754_zero _ => true | _ => false end.

Definition is_nan (a : number) : bool :=
  match a with S754_nan => true | _ => false end.

Definition is_finite (a : number) : bool :=
  match a with
  | S754_zero _ | S754_finite _ _ _ => true
  | _ => false
  end.

(** A double in its canonical representation. *)
Definition valid (a : number) : bool := valid_binary prec emax a.

(** Not NaN and not below zero ([-0] counts as zero). *)
Definition nonneg (a : number) : bool :=
  match a with
  | S754_zero _ => true
  | S754_finite s _ _ => negb s
  | S754_infinity s => negb s
  | S754_nan => false
  end.

(** A canonical double that is not NaN and not below zero: the shape of every
    time the allocator produces for a positive duration. *)
Definition good (a : number) : Prop := valid a = true /\ nonneg a = true.

(** A finite canonical double above zero: a usable audio duration. *)
Definition positive_finite (a : number) : bool :=
  match a with
  | S754_finite false m e => bounded prec emax m e
  | _ => false
  end.

(** The rates of [App.tsx]: [0.8], [0.9] (the default of [speak]) and
    [1.0]. *)
Definition lit_0_8 : number := S754_finite false 7205759403792794 (-53).
Definition lit_0_9 : number := S754_finite false 8106479329266893 (-53).
Definition lit_1_0 : number := S754_finite false 4503599627370496 (-52).

(** [1e-6], that is [0x1.0c6f7a0b5ed8dp-20]. *)
Definition micro : number := S754_finite false 4722366482869645 (-72).

(** [1e10]. *)
Definition lit_1e10 : number := S754_finite false 5242880000000000 (-19).

(** [Math.abs(a - b) <= tol]. *)
Definition within (tol a b : number) : bool := leb (abs (sub a b)) tol.

(** [2^e] as a rational. *)
Definition bpow (e : Z) : Q := Qpower 2 e.

(** The exact value of a double; 0 for the infinities and NaN. *)
Definition toQ (a : number) : Q :=
  match a with
  | S754_finite s m e =>
      ((if s then -1 else 1) * inject_Z (Zpos m) * Qpower 2 e)%Q
  | _ => 0%Q
  end.

(** The magnitude of a finite double that is not zero: its value lies in
    [[2^(mag - 1), 2^mag)]. *)
Definition mag (a : number) : Z :=
  match a with
  | S754_finite _ m e => Zpos (digits2_pos m) + e
  | _ => 0
  end.

(** The relative and the absolute size of one rounding step: [2^-52] and
    [2^-1074]. *)
Definition eps : Q := bpow (-52).
Definition eta : Q := bpow (-1074).

(** A key that orders the doubles other than NaN as [SFcompare] does. *)
Definition key (a : number) : Z * (Z * Z) :=
  match a with
  | S754_infinity true => (-2, (0, 0))
  | S754_finite true m e => (-1, (- e, Zneg m))
  | S754_zero _ => (0, (0, 0))
  | S754_nan => (0, (0, 0))
  | S754_finite false m e => (1, (e, Zpos m))
  | S754_infinity false => (2, (0, 0))
  end.

Definition key_compare (a b : Z * (Z * Z)) : comparison :=
  match Z.compare (fst a) (fst b) with
  | Eq =>
      match Z.compare (fst (snd a)) (fst (snd b)) with
      | Eq => Z.compare (snd (snd a)) (snd (snd b))
      | c => c
      end
  | c => c
  end.

End Num.

Definition number := Num.number.

(** ** JavaScript strings

    A string is its sequence of UTF-16 code units; [length] counts them, as
    the [length] property does. *)

Definition jsstring := list N.

Definition js (s : string) : jsstring :=
  List.map N_of_ascii (list_ascii_of_string s).

(** [s.includes(c)] for a search string [c] of one code unit. *)
Definition includes (s : jsstring) (c : ascii) : bool :=
  existsb (N.eqb (N_of_ascii c)) s.

(** [s === c] for a string [c] of one code unit. *)
Definition is_char (s : jsstring) (c : ascii) : bool :=
  match s with
  | [x] => N.eqb x (N_of_ascii c)
  | _ => false
  end.

(** ** Data model ([types.ts]) *)

Record WordPair := mkWordPair {
  german : jsstring;
  bulgarian : jsstring
}.

Record TextSegment := mkTextSegment {
  text : jsstring;
  translation : option jsstring;
  isWord : bool;
  startTime : option number;
  endTime : option number
}.

(** A missing time read as a number is [undefined], which every comparison
    and every sum treats as NaN. *)
Definition startOf (s : TextSegment) : number :=
  match startTime s with Some a => a | None => Num.NaN end.

Definition endOf (s : TextSegment) : number :=
  match endTime s with Some b => b | None => Num.NaN end.

Definition window (s : TextSegment) : option number * option number :=
  (startTime s, endTime s).

Definition word (t : string) : TextSegment :=
  mkTextSegment (js t) None true None None.

Definition punct (t : string) : TextSegment :=
  mkTextSegment (js t) None false None None.

(** ** The timestamp allocator ([calculateTimestamps]) *)

Module Allocator.

(** The callback of the first [segs.map], which computes the weights. *)
Definition weight (s : TextSegment) : Z :=
  if negb (isWord s) then
    if includes (text s) "." || includes (text s) "!" || includes (text s) "?"
    then 12
    else if includes (text s) "," || includes (text s) ";" || includes (text s) ":"
    then 6
    else 2
  else Z.of_nat (List.length (text s)) + 2.

Definition weights (segs : list TextSegment) : list Z := List.map weight segs.

(** [weights.reduce((a, b) => a + b, 0)]. *)
Definition totalWeight (segs : list TextSegment) : Z :=
  fold_left Z.add (weights segs) 0.

(** [(w / totalWeight) * duration]. *)
Definition portion (duration : number) (total w : Z) : number :=
  Num.mul (Num.div (Num.of_Z w) (Num.of_Z total)) duration.

(** [(weights[i] / totalWeight) * duration]; an index outside [weights]
    reads [undefined], which the division turns into NaN. *)
Definition segmentDuration (duration : number) (ws : list Z) (total : Z)
    (i : nat) : number :=
  match nth_error ws i with
  | Some w => portion duration total w
  | None => Num.NaN
  end.

(** The second [segs.map((s, i) => ...)]: [i] is the index of the head of
    [segs] and [acc] is [currentAccumulatedTime].  Besides the stamped
    segments the loop reports the divisor of every division it performs. *)
Fixpoint stamp (duration : number) (ws : list Z) (total : Z)
    (i : nat) (acc : number) (segs : list TextSegment)
    : list TextSegment * list Z :=
  match segs with
  | [] => ([], [])
  | s :: rest =>
      let d := segmentDuration duration ws total i in
      let start := acc in
      let end_ := Num.add acc d in
      let acc' := Num.add acc d in
      let '(out, divisors) := stamp duration ws total (S i) acc' rest in
      (mkTextSegment (text s) (translation s) (isWord s)
                     (Some start) (Some end_) :: out,
       total :: divisors)
  end.

Definition stampAll (duration : number) (segs : list TextSegment)
    : list TextSegment * list Z :=
  stamp duration (weights segs) (totalWeight segs) 0 Num.zero segs.

Definition calculateTimestamps (duration : number) (segs : list TextSegment)
    : list TextSegment :=
  fst (stampAll duration segs).

(** The divisors of the divisions one call performs, in order. *)
Definition divisors (duration : number) (segs : list TextSegment) : list Z :=
  snd (stampAll duration segs).

(** The duration shares of a segment list, in order. *)
Definition shares (duration : number) (segs : list TextSegment) : list number :=
  List.map (fun s => portion duration (totalWeight segs) (weight s)) segs.

(** Windows that start at [acc] and follow each other, one per share. *)
Fixpoint accumulate (acc : number) (ds : list number)
    : list (option number * option number) :=
  match ds with
  | [] => []
  | d :: rest => (Some acc, Some (Num.add acc d)) :: accumulate (Num.add acc d) rest
  end.

(** [segs[segs.length - 1].endTime] read as a number. *)
Fixpoint lastEndTime (out : list TextSegment) : number :=
  match out with
  | [] => Num.NaN
  | s :: rest =>
      match rest with
      | [] => endOf s
      | _ :: _ => lastEndTime rest
      end
  end.

(** The longest duration (one day, in seconds) and the largest number of
    segments for which the last [endTime] is shown to lie within [1e-6] of
    the duration. *)
Definition Dmax : Q := 86400.
Definition Nmax : Z := 10000.

(** The exact time after segments whose weights sum to [A]. *)
Definition exactTime (T : Z) (D : number) (A : Z) : Q :=
  (inject_Z A / inject_Z T * Num.toQ D)%Q.

(** Bounds on the error of one share and of one step of the accumulation. *)
Definition eta1 : Q := (Num.eta * (1 + 2 * Dmax))%Q.
Definition delta : Q := (2 * Num.eps * Dmax + Num.eta + eta1)%Q.

(** The weights as the specification words them: a punctuation segment
    weighs 12 if it is one of the marks [.], [!], [?], 6 if it is one of
    [,], [;], [:], and 2 otherwise. *)
Definition weight_as_specified (s : TextSegment) : Z :=
  if isWord s then Z.of_nat (List.length (text s)) + 2
  else if is_char (text s) "." || is_char (text s) "!" || is_char (text s) "?"
  then 12
  else if is_char (text s) "," || is_char (text s) ";" || is_char (text s) ":"
  then 6
  else 2.

(** A stamped list whose first window starts at [a], whose windows are
    ordered, and where each window starts where the previous one ends. *)
Fixpoint contiguous (a : number) (out : list TextSegment) : Prop :=
  match out with
  | [] => True
  | s :: rest =>
      startTime s = Some a /\
      exists b, endTime s = Some b /\ Num.good b /\ Num.leb a b = true /\
                contiguous b rest
  end.

End Allocator.

(** ** The active-segment lookup of [syncHighlighting] *)

Module Highlight.

(** [s.endTime || Infinity]. *)
Definition endOrInfinity (s : TextSegment) : number :=
  match endTime s with
  | Some b => if Num.truthy b then b else Num.Infinity
  | None => Num.Infinity
  end.

(** The predicate given to [findIndex]:
    [s.startTime !== undefined && currentTime >= s.startTime &&
     currentTime <= (s.endTime || Infinity)]. *)
Definition inWindow (currentTime : number) (s : TextSegment) : bool :=
  match startTime s with
  | None => false
  | Some a => Num.geb currentTime a && Num.leb currentTime (endOrInfinity s)
  end.

(** [Array.prototype.findIndex]; [None] stands for [-1]. *)
Fixpoint findIndex {A : Type} (p : A -> bool) (l : list A) : option nat :=
  match l with
  | [] => None
  | x :: rest => if p x then Some O else option_map S (findIndex p rest)
  end.

Definition activeIndex (currentTime : number) (segments : list TextSegment)
    : option nat :=
  findIndex (inWindow currentTime) segments.

(** Windows that leave no gap and reach [D]: every segment is stamped, each
    window ends no earlier than the next one starts, and the last one ends
    at [D] or later. *)
Fixpoint chained (D : number) (segs : list TextSegment) : bool :=
  match segs with
  | [] => false
  | s :: rest =>
      match startTime s, endTime s with
      | Some _, Some b =>
          match rest with
          | [] => Num.leb D b
          | s' :: _ => Num.leb (startOf s') b && chained D rest
          end
      | _, _ => false
      end
  end.

(** Full coverage of [[0, D]]: the first window starts at 0 or earlier and
    the windows are chained up to [D]. *)
Definition covers (D : number) (segs : list TextSegment) : bool :=
  match segs with
  | [] => false
  | s :: _ => Num.leb (startOf s) Num.zero && chained D segs
  end.

(** The lookup as the specification words it: the first segment whose
    [[startTime, endTime]] window contains the position, the window of the
    final segment being open-ended. *)
Fixpoint lookup_as_specified (p : number) (segs : list TextSegment) : option nat :=
  match segs with
  | [] => None
  | s :: rest =>
      match rest with
      | [] => if Num.geb p (startOf s) then Some O else None
      | _ :: _ =>
          if Num.geb p (startOf s) && Num.leb p (endOf s) then Some O
          else option_map S (lookup_as_specified p rest)
      end
  end.

End Highlight.

(** ** The speech cue ([speak]) *)

Inductive Lang := de_DE | bg_BG.

Module SpeechCue.

(** The state of a [Promise<void>]. *)
Inductive PromiseState := Pending | Resolved | Rejected.

(** A [SpeechSynthesisUtterance] together with the promise that its [onend]
    and [onerror] handlers resolve. *)
Record Utterance := mkUtterance {
  utext : jsstring;
  ulang : Lang;
  urate : number;
  upromise : nat
}.

(** The speech channel as [speak] sees and changes it.  Utterances and
    promises are named by their position in [utterances] and [promises]. *)
Record Synth := mkSynth {
  speaking : bool;                  (* window.speechSynthesis.speaking *)
  cancels : nat;                    (* calls of speechSynthesis.cancel() *)
  utterances : list Utterance;      (* given to speechSynthesis.speak, oldest first *)
  currentUtteranceRef : option nat;
  promises : list PromiseState;
  warnings : nat                    (* calls of console.warn *)
}.

Definition cancel (st : Synth) : Synth :=
  mkSynth (speaking st) (S (cancels st)) (utterances st)
          (currentUtteranceRef st) (promises st) (warnings st).

(** [speak(text, lang, rate)] when every call on the browser returns: the
    executor of the new promise runs at once; the result is the promise and
    the new state.  [speakOn] below is [speak] in a browser whose calls can
    throw. *)
Definition speak (text : jsstring) (lang : Lang) (rate : number) (st : Synth)
    : nat * Synth :=
  let p := List.length (promises st) in
  let st1 := if speaking st then cancel st else st in
  let u := List.length (utterances st1) in
  (p, mkSynth (speaking st1) (cancels st1)
              (utterances st1 ++ [mkUtterance text lang rate p])
              (Some u) (promises st1 ++ [Pending]) (warnings st1)).

Fixpoint settle (p : nat) (ps : list PromiseState) : list PromiseState :=
  match ps, p with
  | [], _ => []
  | Pending :: rest, O => Resolved :: rest
  | x :: rest, O => x :: rest
  | x :: rest, S p' => x :: settle p' rest
  end.

(** [resolve()] of promise [p]: a promise that is already settled stays as
    it is. *)
Definition resolve (p : nat) (st : Synth) : Synth :=
  mkSynth (speaking st) (cancels st) (utterances st)
          (currentUtteranceRef st) (settle p (promises st)) (warnings st).

Definition clearRef (st : Synth) : Synth :=
  mkSynth (speaking st) (cancels st) (utterances st) None (promises st)
          (warnings st).

Definition warn (st : Synth) : Synth :=
  mkSynth (speaking st) (cancels st) (utterances st)
          (currentUtteranceRef st) (promises st) (S (warnings st)).

(** What the browser reports about an utterance. *)
Inductive Outcome := OnEnd | OnError.

(** The handlers [utterance.onend] and [utterance.onerror]. *)
Definition handler (o : Outcome) (u : Utterance) (st : Synth) : Synth :=
  match o with
  | OnEnd => resolve (upromise u) (clearRef st)
  | OnError => resolve (upromise u) (clearRef (warn st))
  end.

(** The browser delivers outcome [o] to utterance number [u]. *)
Definition deliver (ev : Outcome * nat) (st : Synth) : Synth :=
  match nth_error (utterances st) (snd ev) with
  | Some u => handler (fst ev) u st
  | None => st
  end.

Definition deliverAll (evs : list (Outcome * nat)) (st : Synth) : Synth :=
  fold_left (fun s ev => deliver ev s) evs st.

Definition promiseState (st : Synth) (p : nat) : option PromiseState :=
  nth_error (promises st) p.

(** The calls that the executor of the promise makes on the browser, in the
    order of the source.  Any of them can throw: [window.speechSynthesis] is
    undefined in a browser without speech synthesis, and so may be the
    constructor of utterances. *)
Inductive HostCall :=
| GetSpeaking                      (* window.speechSynthesis.speaking *)
| HostCancel                       (* window.speechSynthesis.cancel() *)
| NewUtterance (text : jsstring)   (* new SpeechSynthesisUtterance(text) *)
| SetLang (lang : Lang)            (* utterance.lang = lang *)
| SetRate (rate : number)          (* utterance.rate = rate *)
| HostSpeak.                       (* window.speechSynthesis.speak(utterance) *)

(** An exception in the executor rejects the promise that is being built. *)
Definition rejected (st : Synth) : nat * Synth :=
  (List.length (promises st),
   mkSynth (speaking st) (cancels st) (utterances st) (currentUtteranceRef st)
           (promises st ++ [Rejected]) (warnings st)).

(** [currentUtteranceRef.current = utterance]. *)
Definition holdUtterance (u : nat) (st : Synth) : Synth :=
  mkSynth (speaking st) (cancels st) (utterances st) (Some u) (promises st)
          (warnings st).

(** [speak(text, lang, rate)] in a browser whose calls can throw; [throws c]
    tells whether call [c] does.  The executor stops at the first call that
    throws, with what it has done so far, and the promise is rejected: there
    is no [try] in [speak].  An utterance that [speechSynthesis.speak] has
    refused is held by the ref but is not among the [utterances], on which
    the browser reports.  When every call returns, the executor runs as in
    [speak]. *)
Definition speakOn (throws : HostCall -> bool)
    (text : jsstring) (lang : Lang) (rate : number) (st : Synth)
    : nat * Synth :=
  if throws GetSpeaking then rejected st
  else if speaking st && throws HostCancel then rejected st
  else
    let st1 := if speaking st then cancel st else st in
    if throws (NewUtterance text) then rejected st1
    else if throws (SetLang lang) then rejected st1
    else if throws (SetRate rate) then rejected st1
    else if throws HostSpeak
    then rejected (holdUtterance (List.length (utterances st1)) st1)
    else speak text lang rate st.

(** Some call that the executor makes throws. *)
Definition throwing (throws : HostCall -> bool)
    (text : jsstring) (lang : Lang) (rate : number) (st : Synth) : bool :=
  throws GetSpeaking || (speaking st && throws HostCancel)
  || throws (NewUtterance text) || throws (SetLang lang)
  || throws (SetRate rate) || throws HostSpeak.

(** A browser without speech synthesis: reading
    [window.speechSynthesis.speaking] is a [TypeError]. *)
Definition unavailable (c : HostCall) : bool :=
  match c with
  | GetSpeaking => true
  | _ => false
  end.

(** A browser in which every call returns. *)
Definition available (c : HostCall) : bool := false.

(** The browser reports only on the utterances given to it. *)
Definition wellFormed (st : Synth) : Prop :=
  Forall (fun x => (upromise x < List.length (promises st))%nat) (utterances st).

(** What a caller that sequences on the promise can observe: everything but
    the count of console warnings. *)
Definition callerView (st : Synth)
    : bool * nat * list Utterance * option nat * list PromiseState :=
  (speaking st, cancels st, utterances st, currentUtteranceRef st, promises st).

End SpeechCue.

(** ** The suggestopedia cycle *)

Module Suggestopedia.

(** [suggestopediaStep]: ['intro'], ['bulgarian'] or ['fixation']. *)
Inductive Step := StepIntro | StepBulgarian | StepFixation.

(** A call made on the speech channel. *)
Inductive SpeechCall :=
| CallSpeak (text : jsstring) (lang : Lang) (rate : number)
| CallCancel.

(** The [await] at which an invocation of [runSuggestopediaCycle] is
    suspended. *)
Inductive Await :=
| AwaitIntroSpeech            (* await speak(word.german, 'de-DE', 0.8) *)
| AwaitIntroSettle            (* await setTimeout 500 *)
| AwaitTranslationSpeech      (* await speak(word.bulgarian, 'bg-BG', 1.0) *)
| AwaitTranslationSettle      (* await setTimeout 500 *)
| AwaitFixationDwell.         (* await setTimeout 4500 *)

(** A suspended invocation with its captured [index] and [word]. *)
Record Cycle := mkCycle {
  cycleIndex : nat;
  cycleWord : WordPair;
  cycleAt : Await
}.

(** The step a cycle has put on screen when it waits at [a]. *)
Definition stepAt (a : Await) : Step :=
  match a with
  | AwaitIntroSpeech | AwaitIntroSettle => StepIntro
  | AwaitTranslationSpeech | AwaitTranslationSettle => StepBulgarian
  | AwaitFixationDwell => StepFixation
  end.

Record Session := mkSession {
  suggestopediaActive : bool;
  suggestopediaActiveRef : bool;
  suggestopediaWordIndex : nat;
  suggestopediaStep : Step;
  pending : list Cycle;              (* suspended invocations, oldest first *)
  speech : list SpeechCall;          (* calls on the speech channel, oldest first *)
  shown : list (nat * Step)          (* word index and step on screen after each
                                        setSuggestopediaStep, oldest first *)
}.

Definition initial : Session :=
  mkSession false false 0 StepIntro [] [] [].

Definition setSuggestopediaActive (b : bool) (s : Session) : Session :=
  mkSession b (suggestopediaActiveRef s) (suggestopediaWordIndex s)
            (suggestopediaStep s) (pending s) (speech s) (shown s).

Definition setRef (b : bool) (s : Session) : Session :=
  mkSession (suggestopediaActive s) b (suggestopediaWordIndex s)
            (suggestopediaStep s) (pending s) (speech s) (shown s).

Definition setSuggestopediaWordIndex (i : nat) (s : Session) : Session :=
  mkSession (suggestopediaActive s) (suggestopediaActiveRef s) i
            (suggestopediaStep s) (pending s) (speech s) (shown s).

Definition setSuggestopediaStep (x : Step) (s : Session) : Session :=
  mkSession (suggestopediaActive s) (suggestopediaActiveRef s)
            (suggestopediaWordIndex s) x (pending s) (speech s)
            (shown s ++ [(suggestopediaWordIndex s, x)]).

Definition setPending (l : list Cycle) (s : Session) : Session :=
  mkSession (suggestopediaActive s) (suggestopediaActiveRef s)
            (suggestopediaWordIndex s) (suggestopediaStep s) l (speech s)
            (shown s).

Definition call (c : SpeechCall) (s : Session) : Session :=
  mkSession (suggestopediaActive s) (suggestopediaActiveRef s)
            (suggestopediaWordIndex s) (suggestopediaStep s) (pending s)
            (speech s ++ [c]) (shown s).

(** Everything in a session but the list of suspended invocations. *)
Definition observable (s : Session)
    : bool * bool * nat * Step * list SpeechCall * list (nat * Step) :=
  (suggestopediaActive s, suggestopediaActiveRef s, suggestopediaWordIndex s,
   suggestopediaStep s, speech s, shown s).

(** The only state a running cycle consults to learn that it was cancelled
    is the flag [suggestopediaActiveRef]; read as a number it is 0 or 1. *)
Definition cancellationState (s : Session) : nat :=
  Nat.b2n (suggestopediaActiveRef s).

Definition stopSuggestopedia (s : Session) : Session :=
  call CallCancel (setRef false (setSuggestopediaActive false s)).

Section Cycle.

Variable vocabulary : list WordPair.

(** [runSuggestopediaCycle(index)] up to its first [await]: the new state,
    and the suspended invocation unless the call returned. *)
Definition runSuggestopediaCycle (index : nat) (s : Session)
    : Session * option Cycle :=
  let s := setSuggestopediaWordIndex index s in
  match nth_error vocabulary index with
  | None => (stopSuggestopedia s, None)
  | Some w =>
      if negb (suggestopediaActiveRef s) then (s, None)
      else
        let s := setSuggestopediaStep StepIntro s in
        let s := call (CallSpeak (german w) de_DE Num.lit_0_8) s in
        (s, Some (mkCycle index w AwaitIntroSpeech))
  end.

(** A suspended invocation runs on to its next [await] or to its end. *)
Definition resume (c : Cycle) (s : Session) : Session * option Cycle :=
  let index := cycleIndex c in
  let w := cycleWord c in
  match cycleAt c with
  | AwaitIntroSpeech =>
      if negb (suggestopediaActiveRef s) then (s, None)
      else (s, Some (mkCycle index w AwaitIntroSettle))
  | AwaitIntroSettle =>
      if negb (suggestopediaActiveRef s) then (s, None)
      else
        let s := setSuggestopediaStep StepBulgarian s in
        let s := call (CallSpeak (bulgarian w) bg_BG Num.lit_1_0) s in
        (s, Some (mkCycle index w AwaitTranslationSpeech))
  | AwaitTranslationSpeech =>
      (s, Some (mkCycle index w AwaitTranslationSettle))
  | AwaitTranslationSettle =>
      if negb (suggestopediaActiveRef s) then (s, None)
      else
        let s := setSuggestopediaStep StepFixation s in
        let s := call (CallSpeak (german w) de_DE Num.lit_0_8) s in
        (s, Some (mkCycle index w AwaitFixationDwell))
  | AwaitFixationDwell =>
      if negb (suggestopediaActiveRef s) then (s, None)
      else runSuggestopediaCycle (index + 1) s
  end.

(** A fresh invocation joins the suspended ones. *)
Definition spawn (r : Session * option Cycle) : Session :=
  match snd r with
  | Some c => setPending (pending (fst r) ++ [c]) (fst r)
  | None => fst r
  end.

Definition startSuggestopedia (s : Session) : Session :=
  let s := setSuggestopediaActive true s in
  let s := setRef true s in
  let s := setSuggestopediaWordIndex 0 s in
  spawn (runSuggestopediaCycle 0 s).

Definition skipToNextWord (s : Session) : Session :=
  let s := call CallCancel s in
  let nextIndex := (suggestopediaWordIndex s + 1)%nat in
  if (nextIndex <? List.length vocabulary)%nat then
    let s := setSuggestopediaWordIndex nextIndex s in
    spawn (runSuggestopediaCycle nextIndex s)
  else stopSuggestopedia s.

(** The invocation at position [k] becomes [c], or leaves the list. *)
Fixpoint update (k : nat) (c : option Cycle) (l : list Cycle) : list Cycle :=
  match l, k with
  | [], _ => []
  | _ :: rest, O => match c with Some c' => c' :: rest | None => rest end
  | x :: rest, S k' => x :: update k' c rest
  end.

(** What can happen to a session: the three entry points, and the
    environment (speech engine or timer) letting the suspended invocation at
    position [k] run on. *)
Inductive Event := Start | Stop | Skip | Resume (k : nat).

Definition step (s : Session) (e : Event) : Session :=
  match e with
  | Start => startSuggestopedia s
  | Stop => stopSuggestopedia s
  | Skip => skipToNextWord s
  | Resume k =>
      match nth_error (pending s) k with
      | Some c =>
          let r := resume c s in
          setPending (update k (snd r) (pending s)) (fst r)
      | None => s
      end
  end.

Definition run (events : list Event) (s : Session) : Session :=
  fold_left step events s.



End Cycle.

End Suggestopedia.

(** ** Sample data *)

Definition der_hund : list TextSegment := [word "Der"; word "Hund"; punct "."].

Definition three_words : list TextSegment := [word "Der"; word "und"; word "sie"].

Definition oh_oh : list TextSegment := [word "O"; punct "!"; word "O"].

Definition vocab3 : list WordPair :=
  [mkWordPair (js "Hund") (js "kuche");
   mkWordPair (js "Katze") (js "kotka");
   mkWordPair (js "Maus") (js "mishka")].

(** ** The WAV container ([createWavUrl] and [writeString] of
       [geminiService.ts]) *)

Module Wav.

(** The bytes of an [ArrayBuffer]: one integer in [[0, 256)] per byte. *)
Definition buffer := list Z.

(** A thrown exception ends the computation: [None].  The steps of
    [createWavUrl] are chained with [x <- e ;; k]. *)
Definition bind {A B : Type} (x : option A) (k : A -> option B) : option B :=
  match x with
  | Some a => k a
  | None => None
  end.

Local Notation "x <- e ;; k" := (bind e (fun x => k))
  (at level 61, e at next level, right associativity).

(** [new ArrayBuffer(n)]: [n] bytes, all zero. *)
Definition alloc (n : nat) : buffer := repeat 0 n.

(** Storing [bytes] from [offset] on.  A store that does not fit throws a
    [RangeError] and changes nothing. *)
Definition write (offset : nat) (bytes : list Z) (buf : buffer) : option buffer :=
  if (offset + List.length bytes <=? List.length buf)%nat
  then Some (firstn offset buf ++ bytes ++ skipn (offset + List.length bytes) buf)
  else None.

(** [view.setUint8(offset, v)], [view.setUint16(offset, v, true)] and
    [view.setUint32(offset, v, true)]: the value is taken modulo [2^8],
    [2^16], [2^32] and stored with its low byte first. *)
Definition setUint8 (offset : nat) (v : Z) (view : buffer) : option buffer :=
  write offset [Z.land v 255] view.

Definition setUint16 (offset : nat) (v : Z) (view : buffer) : option buffer :=
  write offset [Z.land v 255; Z.land (Z.shiftr v 8) 255] view.

Definition setUint32 (offset : nat) (v : Z) (view : buffer) : option buffer :=
  write offset [Z.land v 255; Z.land (Z.shiftr v 8) 255;
                Z.land (Z.shiftr v 16) 255; Z.land (Z.shiftr v 24) 255] view.

(** [writeString(view, offset, string)]: the loop over [i], from the code
    unit at [offset + i] on. *)
Fixpoint writeString (view : buffer) (offset : nat) (str : jsstring)
    : option buffer :=
  match str with
  | [] => Some view
  | c :: rest =>
      view' <- setUint8 offset (Z.of_N c) view ;;
      writeString view' (S offset) rest
  end.

(** [createWavUrl(samples, sampleRate)], for a sample rate that is an
    integer, as the only one in use, 24000, is.  The result stands for the
    URL that [URL.createObjectURL] hands out: it is the content of the blob
    the URL names. *)
Definition createWavUrl (samples : list Z) (sampleRate : Z) : option buffer :=
  let buffer := alloc (44 + List.length samples) in
  let view := buffer in
  (* RIFF identifier *)
  view <- writeString view 0 (js "RIFF") ;;
  (* file length *)
  view <- setUint32 4 (36 + Z.of_nat (List.length samples)) view ;;
  (* RIFF type *)
  view <- writeString view 8 (js "WAVE") ;;
  (* format chunk identifier *)
  view <- writeString view 12 (js "fmt ") ;;
  (* format chunk length *)
  view <- setUint32 16 16 view ;;
  (* sample format (raw) *)
  view <- setUint16 20 1 view ;;
  (* channel count *)
  view <- setUint16 22 1 view ;;
  (* sample rate *)
  view <- setUint32 24 sampleRate view ;;
  (* byte rate (sampleRate * blockAlign) *)
  view <- setUint32 28 (sampleRate * 2) view ;;
  (* block align (channel count * bytes per sample) *)
  view <- setUint16 32 2 view ;;
  (* bits per sample *)
  view <- setUint16 34 16 view ;;
  (* data chunk identifier *)
  view <- writeString view 36 (js "data") ;;
  (* data chunk length *)
  view <- setUint32 40 (Z.of_nat (List.length samples)) view ;;
  (* new Uint8Array(buffer, 44).set(samples) *)
  write 44 samples view.

(** Reading a buffer back, as [DataView.getUint16] and [getUint32] do with
    [littleEndian = true]; [None] outside the buffer. *)
Definition getUint16 (offset : nat) (view : buffer) : option Z :=
  match firstn 2 (skipn offset view) with
  | [b0; b1] => Some (b0 + 256 * b1)
  | _ => None
  end.

Definition getUint32 (offset : nat) (view : buffer) : option Z :=
  match firstn 4 (skipn offset view) with
  | [b0; b1; b2; b3] => Some (b0 + 256 * b1 + 65536 * b2 + 16777216 * b3)
  | _ => None
  end.

(** The bytes [[offset, offset + n)] of a buffer. *)
Definition slice (offset n : nat) (view : buffer) : list Z :=
  firstn n (skipn offset view).

(** The four-character tag of a chunk, as bytes. *)
Definition tag (s : string) : list Z := List.map Z.of_N (js s).

Definition is_byte (b : Z) : Prop := 0 <= b < 256.

End Wav.

(** ** Speech generation ([decode] and [generateSpeech] of
       [geminiService.ts]) *)

Module Gemini.

(** What the promise of [generateSpeech] is rejected with. *)
Inductive Thrown :=
| ApiKeyNotFound        (* new Error("API Key not found") *)
| RequestFailed         (* the error of the awaited request, passed on *)
| NoAudioData           (* new Error("No audio data returned from Gemini") *)
| InvalidCharacter      (* atob: the string is not base64 *)
| RangeError.           (* a store outside the WAV buffer *)

(** [!s] for a string that may be [undefined]: true for [undefined] and for
    the empty string. *)
Definition missing (s : option jsstring) : bool :=
  match s with
  | Some (_ :: _) => false
  | _ => true
  end.

(** What the awaited request [ai.models.generateContent] comes back with:
    its promise is rejected (no network, a refused key, a quota), or it is
    fulfilled with a response, of which [generateSpeech] reads
    [response.candidates?.[0]?.content?.parts?.[0]?.inlineData?.data]. *)
Inductive Response :=
| RequestRejected
| RequestFulfilled (base64Audio : option jsstring).

Definition sampleRate : Z := 24000.
Definition numChannels : Z := 1.
Definition bytesPerSample : Z := 2.

Section Service.

(** The browser's [atob]: the binary string of a base64 string, or an
    [InvalidCharacterError]. *)
Variable atob : jsstring -> option jsstring.

(** [decode(base64)]: each code unit of the binary string is stored into a
    [Uint8Array], that is, modulo 256. *)
Definition decode (base64 : jsstring) : option (list Z) :=
  match atob base64 with
  | Some binaryString =>
      Some (List.map (fun c => Z.land (Z.of_N c) 255) binaryString)
  | None => None
  end.

(** [generateSpeech(text)] from the point where the request has returned:
    [apiKey] is [process.env.API_KEY] and [base64Audio] is what the chain
    [response.candidates?.[0]?.content?.parts?.[0]?.inlineData?.data]
    reads. *)
Definition generateSpeech (apiKey base64Audio : option jsstring)
    : Thrown + (Wav.buffer * number) :=
  if missing apiKey then inl ApiKeyNotFound
  else if missing base64Audio then inl NoAudioData
  else
    match base64Audio with
    | None => inl NoAudioData
    | Some base64 =>
        match decode base64 with
        | None => inl InvalidCharacter
        | Some audioBytes =>
            let totalSamples :=
              Num.div (Num.of_Z (Z.of_nat (List.length audioBytes)))
                      (Num.of_Z (numChannels * bytesPerSample)) in
            let duration := Num.div totalSamples (Num.of_Z sampleRate) in
            match Wav.createWavUrl audioBytes sampleRate with
            | None => inl RangeError
            | Some url => inr (url, duration)
            end
        end
    end.

(** [generateSpeech(text)] as a whole.  The key is checked before the
    request is made; the rejection of the awaited request is not caught and
    becomes the rejection of the call; what follows a fulfilled request is
    [generateSpeech] above. *)
Definition generateSpeechCall (apiKey : option jsstring) (response : Response)
    : Thrown + (Wav.buffer * number) :=
  if missing apiKey then inl ApiKeyNotFound
  else
    match response with
    | RequestRejected => inl RequestFailed
    | RequestFulfilled base64Audio => generateSpeech apiKey base64Audio
    end.

End Service.

(** The longest audio, in bytes, whose duration is shown to be at most
    [Allocator.Dmax]: one second less than a day of 16-bit mono samples at
    24 kHz. *)
Definition maxBytes : Z := 48000 * 86399.

End Gemini.

(** ** The audio player ([playAudio], [changeSpeed], [handleSegmentClick],
       [handleGenerateAndPlayAudio] and [syncHighlighting] of [App.tsx]) *)

Module Player.

(** The [HTMLAudioElement] as the handlers use it.  What the element does
    by itself (it advances [currentTime], learns its [duration], reacts to
    [load()] and [play()]) is left to the browser. *)
Record Audio := mkAudio {
  src : Wav.buffer;
  currentTime : number;
  elementDuration : number;      (* audio.duration *)
  elementRate : number;          (* audio.playbackRate *)
  preservesPitch : bool;
  loads : nat;                   (* calls of audio.load() *)
  plays : nat;                   (* calls of audio.play() *)
  onended : bool                 (* the handler of playAudio is installed *)
}.

(** The state of the component that the player uses, and the ref
    [audioRef]. *)
Record State := mkState {
  segments : list TextSegment;
  isPlaying : bool;
  activeSegmentIndex : option nat;
  playbackRate : number;
  audioUrl : option Wav.buffer;
  audioDuration : number;
  audioRef : option Audio;
  isLoading : bool;
  alerts : nat                   (* calls of alert *)
}.

Definition initial : State :=
  mkState [] false None Num.lit_1_0 None Num.zero None false 0.

Definition setSegments (l : list TextSegment) (s : State) : State :=
  mkState l (isPlaying s) (activeSegmentIndex s) (playbackRate s) (audioUrl s)
          (audioDuration s) (audioRef s) (isLoading s) (alerts s).

Definition setIsPlaying (b : bool) (s : State) : State :=
  mkState (segments s) b (activeSegmentIndex s) (playbackRate s) (audioUrl s)
          (audioDuration s) (audioRef s) (isLoading s) (alerts s).

Definition setActiveSegmentIndex (i : option nat) (s : State) : State :=
  mkState (segments s) (isPlaying s) i (playbackRate s) (audioUrl s)
          (audioDuration s) (audioRef s) (isLoading s) (alerts s).

Definition setPlaybackRate (rate : number) (s : State) : State :=
  mkState (segments s) (isPlaying s) (activeSegmentIndex s) rate (audioUrl s)
          (audioDuration s) (audioRef s) (isLoading s) (alerts s).

Definition setAudio (a : Audio) (s : State) : State :=
  mkState (segments s) (isPlaying s) (activeSegmentIndex s) (playbackRate s)
          (audioUrl s) (audioDuration s) (Some a) (isLoading s) (alerts s).

Definition setGenerated (url : Wav.buffer) (duration : number) (s : State) : State :=
  mkState (segments s) (isPlaying s) (activeSegmentIndex s) (playbackRate s)
          (Some url) duration (audioRef s) (isLoading s) (alerts s).

Definition setIsLoading (b : bool) (s : State) : State :=
  mkState (segments s) (isPlaying s) (activeSegmentIndex s) (playbackRate s)
          (audioUrl s) (audioDuration s) (audioRef s) b (alerts s).

Definition alert (s : State) : State :=
  mkState (segments s) (isPlaying s) (activeSegmentIndex s) (playbackRate s)
          (audioUrl s) (audioDuration s) (audioRef s) (isLoading s) (S (alerts s)).

(** A handler is a closure of the render that created it.  The state values
    it reads ([segments], [isPlaying], [activeSegmentIndex], [playbackRate],
    [audioUrl]) are those of that render, [r] below; a ref is read from the
    current state [s], and the setters act on [s].  A handler that is
    triggered from the screen of the latest render runs with [r = s]. *)

(** [playAudio()], up to the calls it makes on the element: the promise of
    [play()] settles later. *)
Definition playAudio (r s : State) : State :=
  match audioRef s with
  | None => s
  | Some a =>
      setAudio (mkAudio (src a) (currentTime a) (elementDuration a)
                        (playbackRate r) (preservesPitch a) (loads a)
                        (S (plays a)) true) s
  end.

(** [changeSpeed(rate)]. *)
Definition changeSpeed (rate : number) (s : State) : State :=
  let s := setPlaybackRate rate s in
  match audioRef s with
  | Some a =>
      setAudio (mkAudio (src a) (currentTime a) (elementDuration a) rate
                        (preservesPitch a) (loads a) (plays a) (onended a)) s
  | None => s
  end.

(** [handleSegmentClick(index)].  The position [seg.startTime] is taken to
    lie in the audio, so that the element keeps it as it is. *)
Definition handleSegmentClick (r : State) (index : nat) (s : State) : State :=
  match nth_error (segments r) index, audioRef s with
  | Some seg, Some a =>
      match startTime seg with
      | None => s
      | Some t =>
          let s := setAudio (mkAudio (src a) t (elementDuration a) (elementRate a)
                                     (preservesPitch a) (loads a) (plays a)
                                     (onended a)) s in
          let s := setActiveSegmentIndex (Some index) s in
          if negb (isPlaying r) then playAudio r s else s
      end
  | _, _ => s
  end.

(** [handleGenerateAndPlayAudio()] up to its [await]: the new state, and
    whether [generateSpeech] has been called.  A URL that
    [URL.createObjectURL] has handed out is not the empty string, so
    [audioUrl] is truthy as soon as it is set. *)
Definition handleGenerateAndPlayAudio (r s : State) : State * bool :=
  match audioUrl r with
  | Some _ => (playAudio r s, false)
  | None => (setIsLoading true s, true)
  end.

(** The rest of [handleGenerateAndPlayAudio()], when [generateSpeech] has
    settled with [generated]. *)
Definition afterGenerateSpeech (r : State)
    (generated : Gemini.Thrown + (Wav.buffer * number)) (s : State) : State :=
  let s :=
    match generated with
    | inr (url, duration) =>
        let s := setGenerated url duration s in
        let s :=
          match audioRef s with
          | Some a =>
              setAudio (mkAudio url (currentTime a) (elementDuration a)
                                (elementRate a) (preservesPitch a) (S (loads a))
                                (plays a) (onended a)) s
          | None =>
              setAudio (mkAudio url Num.zero Num.NaN Num.lit_1_0 true 0 0 false) s
          end in
        let s :=
          if (0 <? List.length (segments r))%nat
          then setSegments (Allocator.calculateTimestamps duration (segments r)) s
          else s in
        playAudio r s
    | inl _ => alert s
    end in
  setIsLoading false s.

(** [index !== activeSegmentIndex] for an index that was found. *)
Definition differs (index : nat) (active : option nat) : bool :=
  match active with
  | Some k => negb (Nat.eqb index k)
  | None => true
  end.

(** [syncHighlighting()]: the new state, and whether the callback has asked
    for another animation frame.  The callback that runs in a frame is the
    one of the render in which playback started. *)
Definition syncHighlighting (r s : State) : State * bool :=
  match audioRef s with
  | None => (s, false)
  | Some a =>
      if negb (isPlaying r) then (s, false)
      else
        let s :=
          match Highlight.activeIndex (currentTime a) (segments r) with
          | Some index =>
              if differs index (activeSegmentIndex r)
              then setActiveSegmentIndex (Some index) s
              else if Num.geb (currentTime a) (elementDuration a)
              then setIsPlaying false (setActiveSegmentIndex None s)
              else s
          | None =>
              if Num.geb (currentTime a) (elementDuration a)
              then setIsPlaying false (setActiveSegmentIndex None s)
              else s
          end in
        (s, isPlaying r)
  end.

End Player.

(** ** The flashcards ([nextCard] and [prevCard] of [App.tsx]) *)

Module Flashcards.

(** A card index: an integer, or [NaN]. *)
Inductive index := Index (i : Z) | NaN.

(** [a + k] and [a % n] on indices; [%] takes the sign of [a], and a zero
    [n] gives [NaN]. *)
Definition plus (a : index) (k : Z) : index :=
  match a with
  | Index x => Index (x + k)
  | NaN => NaN
  end.

Definition remainder (a : index) (n : Z) : index :=
  match a with
  | Index x => if n =? 0 then NaN else Index (Z.rem x n)
  | NaN => NaN
  end.

(** The two updaters handed to [setCurrentCardIndex]. *)
Inductive Updater := Forward | Backward.

(** The net number of steps forward of a list of updaters. *)
Fixpoint displacement (us : list Updater) : Z :=
  match us with
  | [] => 0
  | Forward :: rest => 1 + displacement rest
  | Backward :: rest => displacement rest - 1
  end.

Record Cards := mkCards {
  currentCardIndex : index;
  isFlipped : bool;
  timers : list Updater          (* pending setTimeout(..., 200), oldest first *)
}.

Definition initial : Cards := mkCards (Index 0) false [].

Section Cards.

Variable vocabulary : list WordPair.

(** [(prev + 1) % vocabulary.length] and
    [(prev - 1 + vocabulary.length) % vocabulary.length]. *)
Definition update (u : Updater) (prev : index) : index :=
  let n := Z.of_nat (List.length vocabulary) in
  match u with
  | Forward => remainder (plus prev 1) n
  | Backward => remainder (plus (plus prev (-1)) n) n
  end.

Definition nextCard (s : Cards) : Cards :=
  mkCards (currentCardIndex s) false (timers s ++ [Forward]).

Definition prevCard (s : Cards) : Cards :=
  mkCards (currentCardIndex s) false (timers s ++ [Backward]).

(** The oldest pending timer fires. *)
Definition fire (s : Cards) : Cards :=
  match timers s with
  | [] => s
  | u :: rest => mkCards (update u (currentCardIndex s)) (isFlipped s) rest
  end.

(** A click on the card: [setIsFlipped(!isFlipped)]. *)
Definition flip (s : Cards) : Cards :=
  mkCards (currentCardIndex s) (negb (isFlipped s)) (timers s).

(** What [handlePhaseChange] does to the cards. *)
Definition reset (s : Cards) : Cards := mkCards (Index 0) false (timers s).

Inductive Event := Next | Prev | Fire | Flip | Reset.

Definition step (s : Cards) (e : Event) : Cards :=
  match e with
  | Next => nextCard s
  | Prev => prevCard s
  | Fire => fire s
  | Flip => flip s
  | Reset => reset s
  end.

Definition run (events : list Event) (s : Cards) : Cards :=
  fold_left step events s.

(** The click that leaves an updater pending. *)
Definition click (u : Updater) : Event :=
  match u with
  | Forward => Next
  | Backward => Prev
  end.

(** The updaters of a list applied in order, as the timers fire. *)
Definition updateAll (us : list Updater) (prev : index) : index :=
  fold_left (fun p u => update u p) us prev.

(** [vocabulary[currentCardIndex]], the card on screen. *)
Definition card (s : Cards) : option WordPair :=
  match currentCardIndex s with
  | Index i => if i <? 0 then None else nth_error vocabulary (Z.to_nat i)
  | NaN => None
  end.

End Cards.

End Flashcards.

(** ** The overlay of the session ([renderSuggestopediaOverlay]) *)

Module Overlay.

(** What the overlay shows: the word, the step, and the two numbers of
    ["Wort i von n"]. *)
Record View := mkView {
  shownWord : WordPair;
  shownStep : Suggestopedia.Step;
  position : nat;
  total : nat
}.

(** [renderSuggestopediaOverlay()]; [None] stands for [null]. *)
Definition renderSuggestopediaOverlay (vocabulary : list WordPair)
    (s : Suggestopedia.Session) : option View :=
  if negb (Suggestopedia.suggestopediaActive s) then None
  else
    match nth_error vocabulary (Suggestopedia.suggestopediaWordIndex s) with
    | None => None
    | Some word =>
        Some (mkView word (Suggestopedia.suggestopediaStep s)
                     (Suggestopedia.suggestopediaWordIndex s + 1)
                     (List.length vocabulary))
    end.

End Overlay.

(** ** What holds of a session at all times *)

Module Coherence.

(** A call on the speech channel that cancels, or speaks a word of the
    vocabulary as a cycle does: German at rate 0.8 or Bulgarian at rate
    1.0. *)
Definition fromVocabulary (vocabulary : list WordPair)
    (c : Suggestopedia.SpeechCall) : Prop :=
  match c with
  | Suggestopedia.CallCancel => True
  | Suggestopedia.CallSpeak t l r =>
      exists w, In w vocabulary /\
        ((t = german w /\ l = de_DE /\ r = Num.lit_0_8) \/
         (t = bulgarian w /\ l = bg_BG /\ r = Num.lit_1_0))
  end.

(** The state and the ref agree, every suspended invocation holds the word
    of its index, every step was shown for an index of the vocabulary and
    every speech call is from the vocabulary. *)
Definition settled (vocabulary : list WordPair) (s : Suggestopedia.Session) : Prop :=
  Suggestopedia.suggestopediaActive s = Suggestopedia.suggestopediaActiveRef s /\
  Forall (fun c => nth_error vocabulary (Suggestopedia.cycleIndex c)
                   = Some (Suggestopedia.cycleWord c))
         (Suggestopedia.pending s) /\
  Forall (fun p => (fst p < List.length vocabulary)%nat) (Suggestopedia.shown s) /\
  Forall (fromVocabulary vocabulary) (Suggestopedia.speech s).

(** Besides, the word index is an index of the vocabulary while the session
    is active. *)
Definition coherent (vocabulary : list WordPair) (s : Suggestopedia.Session) : Prop :=
  settled vocabulary s /\
  (Suggestopedia.suggestopediaActiveRef s = true ->
   (Suggestopedia.suggestopediaWordIndex s < List.length vocabulary)%nat).

(** The resumptions a suspended invocation needs to end once the session
    has been stopped: the wait for the translation is followed by no check of
    the flag. *)
Definition remaining (c : Suggestopedia.Cycle) : nat :=
  match Suggestopedia.cycleAt c with
  | Suggestopedia.AwaitTranslationSpeech => 2
  | _ => 1
  end.

End Coherence.

(** * Proofs *)

Import Allocator Highlight SpeechCue Suggestopedia.

(** * Facts about binary64 arithmetic

    [SpecFloat] defines the operations; the facts below are what the
    allocator and the lookup need from them: the shape of a rounded result,
    that a sum of non-negative doubles is not below its first operand, and
    that products and quotients of non-negative canonical doubles are
    non-negative canonical doubles. *)

Module NumFacts.

Lemma fexp_eq e : fexp Num.prec Num.emax e = Z.max (e - 53) (-1074).
Proof. reflexivity. Qed.

Lemma digits2_bounds p :
  2 ^ (Zpos (digits2_pos p) - 1) <= Zpos p < 2 ^ Zpos (digits2_pos p).
Proof.
  induction p as [p IH | p IH |]; cbn [digits2_pos].
  - rewrite Pos2Z.inj_succ.
    replace (Z.succ (Zpos (digits2_pos p)) - 1) with (Z.succ (Zpos (digits2_pos p) - 1)) by lia.
    rewrite !Z.pow_succ_r by lia. lia.
  - rewrite Pos2Z.inj_succ.
    replace (Z.succ (Zpos (digits2_pos p)) - 1) with (Z.succ (Zpos (digits2_pos p) - 1)) by lia.
    rewrite !Z.pow_succ_r by lia. lia.
  - cbn. lia.
Qed.

Lemma Zdigits2_bounds m :
  0 < m -> 2 ^ (Zdigits2 m - 1) <= m < 2 ^ Zdigits2 m.
Proof.
  destruct m as [| p | p]; try lia. intros _. apply digits2_bounds.
Qed.

Lemma Zdigits2_pos m : 0 < m -> 0 < Zdigits2 m.
Proof. destruct m; cbn; lia. Qed.

Lemma Zdigits2_unique m d :
  2 ^ (d - 1) <= m < 2 ^ d -> 0 < m -> Zdigits2 m = d.
Proof.
  intros [Hlo Hhi] Hm.
  pose proof (Zdigits2_bounds m Hm) as [Blo Bhi].
  pose proof (Zdigits2_pos m Hm) as Hd.
  assert (0 < d).
  { destruct (Z_lt_le_dec 0 d) as [|Hle]; [assumption|].
    assert (2 ^ d <= 2 ^ 0) by (destruct (Z_lt_le_dec d 0); [rewrite Z.pow_neg_r by lia; cbn; lia | apply Z.pow_le_mono_r; lia]).
    cbn in *. lia. }
  destruct (Z_lt_le_dec (Zdigits2 m) d) as [Hlt|Hge].
  - assert (2 ^ Zdigits2 m <= 2 ^ (d - 1)) by (apply Z.pow_le_mono_r; lia). lia.
  - destruct (Z_lt_le_dec d (Zdigits2 m)) as [Hlt|Hle]; [|lia].
    assert (2 ^ d <= 2 ^ (Zdigits2 m - 1)) by (apply Z.pow_le_mono_r; lia). lia.
Qed.

Lemma Zdigits2_mono a b : 0 <= a <= b -> Zdigits2 a <= Zdigits2 b.
Proof.
  intros [Ha Hab].
  destruct (Z.eq_dec a 0) as [->|Hna]; [destruct b; cbn; lia|].
  assert (0 < a) by lia. assert (0 < b) by lia.
  pose proof (Zdigits2_bounds a ltac:(lia)) as [Alo _].
  pose proof (Zdigits2_bounds b ltac:(lia)) as [_ Bhi].
  destruct (Z_lt_le_dec (Zdigits2 b) (Zdigits2 a)) as [Hlt|]; [|lia].
  assert (2 ^ Zdigits2 b <= 2 ^ (Zdigits2 a - 1)) by (apply Z.pow_le_mono_r; lia). lia.
Qed.

Lemma Zdigits2_shl m k : 0 < m -> 0 <= k -> Zdigits2 (m * 2 ^ k) = Zdigits2 m + k.
Proof.
  intros Hm Hk.
  pose proof (Zdigits2_bounds m Hm) as [Blo Bhi].
  pose proof (Zdigits2_pos m Hm) as Hd.
  assert (0 < 2 ^ k) by (apply Z.pow_pos_nonneg; lia).
  apply Zdigits2_unique; [|nia].
  replace (Zdigits2 m + k - 1) with ((Zdigits2 m - 1) + k) by lia.
  rewrite !Z.pow_add_r by lia. nia.
Qed.

Lemma Zdigits2_shr m n :
  0 < m -> 0 <= n < Zdigits2 m -> Zdigits2 (m / 2 ^ n) = Zdigits2 m - n /\ 0 < m / 2 ^ n.
Proof.
  intros Hm Hn.
  pose proof (Zdigits2_bounds m Hm) as [Blo Bhi].
  assert (0 < 2 ^ n) by (apply Z.pow_pos_nonneg; lia).
  assert (L : 2 ^ (Zdigits2 m - n - 1) <= m / 2 ^ n).
  { apply Z.div_le_lower_bound; [lia|].
    rewrite Z.mul_comm, <- Z.pow_add_r by lia.
    replace (Zdigits2 m - n - 1 + n) with (Zdigits2 m - 1) by lia. exact Blo. }
  assert (0 < 2 ^ (Zdigits2 m - n - 1)) by (apply Z.pow_pos_nonneg; lia).
  split; [|lia].
  apply Zdigits2_unique; [|lia]. split; [exact L|].
  apply Z.div_lt_upper_bound; [lia|].
  rewrite <- Z.pow_add_r by lia.
  replace (n + (Zdigits2 m - n)) with (Zdigits2 m) by lia. exact Bhi.
Qed.

Lemma Zdigits2_shr_small m n : 0 <= m -> Zdigits2 m <= n -> m / 2 ^ n = 0.
Proof.
  intros Hm Hn. destruct (Z.eq_dec m 0) as [->|]; [apply Z.div_0_l; apply Z.pow_nonzero; destruct (Zdigits2 0) eqn:E; cbn in *; lia|].
  pose proof (Zdigits2_bounds m ltac:(lia)) as [_ Bhi].
  pose proof (Zdigits2_pos m ltac:(lia)).
  apply Z.div_small. split; [lia|].
  assert (2 ^ Zdigits2 m <= 2 ^ n) by (apply Z.pow_le_mono_r; lia). lia.
Qed.

Lemma shr_1_m mrs : 0 <= shr_m mrs -> shr_m (shr_1 mrs) = shr_m mrs / 2.
Proof.
  destruct mrs as [m r s]. cbn [shr_m]. intros Hm.
  destruct m as [| [p|p|] | p]; cbn [shr_1 shr_m]; try lia; try reflexivity.
  - apply Z.div_unique with (r := 1); lia.
  - apply Z.div_unique with (r := 0); lia.
Qed.

Lemma iter_shr_1_m p : forall mrs,
  0 <= shr_m mrs ->
  shr_m (iter_pos shr_1 p mrs) = shr_m mrs / 2 ^ Zpos p.
Proof.
  induction p as [p IH | p IH |]; intros mrs Hm; cbn [iter_pos].
  - assert (H1 : 0 <= shr_m (shr_1 mrs)) by (rewrite shr_1_m by lia; apply Z.div_pos; lia).
    assert (P : 0 < 2 ^ Zpos p) by (apply Z.pow_pos_nonneg; lia).
    assert (H2 : 0 <= shr_m (iter_pos shr_1 p (shr_1 mrs))) by (rewrite IH by lia; apply Z.div_pos; lia).
    rewrite IH by lia. rewrite IH by lia. rewrite shr_1_m by lia.
    rewrite !Z.div_div by lia.
    f_equal. replace (Zpos p~1) with (1 + Zpos p + Zpos p) by lia.
    rewrite !Z.pow_add_r by lia. lia.
  - assert (P : 0 < 2 ^ Zpos p) by (apply Z.pow_pos_nonneg; lia).
    assert (H2 : 0 <= shr_m (iter_pos shr_1 p mrs)) by (rewrite IH by lia; apply Z.div_pos; lia).
    rewrite IH by lia. rewrite IH by lia.
    rewrite !Z.div_div by lia.
    f_equal. replace (Zpos p~0) with (Zpos p + Zpos p) by lia.
    rewrite !Z.pow_add_r by lia. lia.
  - rewrite shr_1_m by lia. reflexivity.
Qed.

Lemma shr_record_of_loc_m m l : shr_m (shr_record_of_loc m l) = m.
Proof. destruct l as [|[| |]]; reflexivity. Qed.

(** [shr_fexp] on a non-negative mantissa whose exponent is at most the
    target exponent. *)
Lemma shr_fexp_m m e l :
  0 <= m -> e <= fexp Num.prec Num.emax (Zdigits2 m + e) ->
  shr_m (fst (shr_fexp Num.prec Num.emax m e l)) = m / 2 ^ (fexp Num.prec Num.emax (Zdigits2 m + e) - e) /\
  snd (shr_fexp Num.prec Num.emax m e l) = fexp Num.prec Num.emax (Zdigits2 m + e).
Proof.
  intros Hm He. unfold shr_fexp, shr.
  destruct (fexp Num.prec Num.emax (Zdigits2 m + e) - e) as [|n|n] eqn:En; try lia.
  - cbn [fst snd]. rewrite shr_record_of_loc_m. cbn. rewrite Z.div_1_r. split; lia.
  - cbn [fst snd]. rewrite iter_shr_1_m by (rewrite shr_record_of_loc_m; lia).
    rewrite shr_record_of_loc_m. split; [reflexivity|lia].
Qed.

Lemma shr_fexp_zero e l : shr_m (fst (shr_fexp Num.prec Num.emax 0 e l)) = 0.
Proof.
  unfold shr_fexp, shr.
  destruct (fexp Num.prec Num.emax (Zdigits2 0 + e) - e) as [|n|n]; cbn [fst];
    rewrite ?iter_shr_1_m by (rewrite shr_record_of_loc_m; lia);
    rewrite shr_record_of_loc_m; [reflexivity| |reflexivity].
  apply Z.div_0_l. apply Z.pow_nonzero; lia.
Qed.

Lemma round_nearest_even_range m l :
  m <= round_nearest_even m l <= m + 1.
Proof.
  destruct l as [|[| |]]; cbn [round_nearest_even]; try lia.
  destruct (Z.even m); lia.
Qed.

Lemma canonical_iff m e :
  canonical_mantissa Num.prec Num.emax m e = true <-> fexp Num.prec Num.emax (Zpos (digits2_pos m) + e) = e.
Proof. unfold canonical_mantissa. apply Z.eqb_eq. Qed.

(** The result of the rounding step.  [E] is the target exponent and [q] the
    truncated mantissa. *)
Lemma binary_round_aux_spec s m e l :
  0 <= m -> e <= fexp Num.prec Num.emax (Zdigits2 m + e) ->
  let E := fexp Num.prec Num.emax (Zdigits2 m + e) in
  let q := m / 2 ^ (E - e) in
  match binary_round_aux Num.prec Num.emax s m e l with
  | S754_zero s' => s' = s /\ q = 0
  | S754_finite s' m' e' =>
      s' = s /\ bounded Num.prec Num.emax m' e' = true /\
      E <= e' <= E + 1 /\ (e' = E -> q <= Zpos m') /\
      q <= Zpos m' * 2 ^ (e' - E) <= q + 1
  | S754_infinity s' => s' = s /\ Num.emax - Num.prec <= E
  | S754_nan => False
  end.
Proof.
  intros Hm He E q.
  unfold binary_round_aux.
  pose proof (shr_fexp_m m e l Hm He) as [Hq HE].
  destruct (shr_fexp Num.prec Num.emax m e l) as [mrs1 e1]. cbn [fst snd] in Hq, HE.
  fold E in Hq, HE. fold q in Hq. subst e1.
  pose proof (round_nearest_even_range (shr_m mrs1) (loc_of_shr_record mrs1)) as Hr.
  set (m2 := round_nearest_even (shr_m mrs1) (loc_of_shr_record mrs1)) in *.
  rewrite Hq in Hr.
  assert (P : 0 < 2 ^ (E - e)) by (apply Z.pow_pos_nonneg; lia).
  assert (Hq0 : 0 <= q) by (apply Z.div_pos; lia).
  (* digits of the truncated mantissa *)
  assert (Hdq : (q = 0 /\ Zdigits2 m <= E - e) \/ (0 < q /\ Zdigits2 q = Zdigits2 m - (E - e) /\ E - e < Zdigits2 m)).
  { destruct (Z_lt_le_dec (E - e) (Zdigits2 m)) as [Hlt|Hge].
    - right. assert (0 < m) by (destruct m; cbn in *; lia).
      destruct (Zdigits2_shr m (E - e) ltac:(lia) ltac:(lia)) as [D1 D2]. fold q in D1, D2. lia.
    - left. split; [|lia]. apply Zdigits2_shr_small; lia. }
  assert (HEdef : E = Z.max (Zdigits2 m + e - 53) (-1074)) by reflexivity.
  (* digits of the rounded mantissa *)
  assert (Hm2 : 0 <= m2) by lia.
  assert (Hd2 : (m2 = 0 /\ q = 0) \/
                (0 < m2 /\ Zdigits2 m2 <= 53 /\ fexp Num.prec Num.emax (Zdigits2 m2 + E) = E) \/
                (m2 = 2 ^ 53 /\ E = Zdigits2 m + e - 53)).
  { destruct Hdq as [[Hq1 Hd]|[Hq1 [Hd Hlt]]].
    - (* q = 0: m2 is 0 or 1 *)
      destruct (Z.eq_dec m2 0); [left; lia|right; left].
      assert (m2 = 1) by lia. subst m2. rewrite H. cbn [Zdigits2 digits2_pos].
      rewrite fexp_eq. lia.
    - pose proof (Zdigits2_bounds q Hq1) as [Blo Bhi].
      destruct (Z.eq_dec m2 (2 ^ Zdigits2 q)) as [Hc|Hnc].
      + (* carry *)
        destruct (Z.eq_dec (Zdigits2 q) 53) as [H53|Hn53].
        * right; right. rewrite H53 in Hc. lia.
        * right; left. split; [lia|].
          assert (Zdigits2 q < 53) by lia.
          assert (D : Zdigits2 m2 = Zdigits2 q + 1).
          { apply Zdigits2_unique; [|lia]. rewrite Hc.
            replace (Zdigits2 q + 1 - 1) with (Zdigits2 q) by lia.
            split; [lia|]. apply Z.pow_lt_mono_r; lia. }
          rewrite D, fexp_eq. lia.
      + right; left. split; [lia|].
        assert (D : Zdigits2 m2 = Zdigits2 q).
        { apply Zdigits2_unique; lia. }
        rewrite D, fexp_eq. lia. }
  destruct Hd2 as [[Hz Hqz]|[[Hpos [Hd53 Hf]]|[Hc HEn]]].
  - (* rounded to zero *)
    rewrite Hz. pose proof (shr_fexp_zero E loc_Exact) as Z0.
    destruct (shr_fexp Num.prec Num.emax 0 E loc_Exact) as [mrs2 e2]. cbn [fst] in Z0.
    rewrite Z0. split; [reflexivity|exact Hqz].
  - (* no second shift *)
    assert (S2 : shr_fexp Num.prec Num.emax m2 E loc_Exact = ({| shr_m := m2; shr_r := false; shr_s := false |}, E)).
    { unfold shr_fexp. rewrite Hf, Z.sub_diag. reflexivity. }
    rewrite S2. cbn [shr_m].
    destruct m2 as [|p|p]; try lia.
    destruct (Z.leb_spec E (Num.emax - Num.prec)) as [Hle|Hgt].
    + split; [reflexivity|]. split.
      * unfold bounded. apply andb_true_iff. split; [apply canonical_iff; exact Hf | apply Z.leb_le; exact Hle].
      * split; [lia|]. split; [intros _; lia|].
        rewrite Z.sub_diag. change (2 ^ 0) with 1. lia.
    + split; [reflexivity|lia].
  - (* carry to the next binade *)
    assert (S2 : shr_fexp Num.prec Num.emax m2 E loc_Exact = ({| shr_m := 2 ^ 52; shr_r := false; shr_s := false |}, E + 1)).
    { rewrite Hc. unfold shr_fexp.
      replace (Zdigits2 (2 ^ 53)) with 54 by reflexivity.
      rewrite fexp_eq.
      replace (Z.max (54 + E - 53) (-1074) - E) with 1 by lia.
      cbn. reflexivity. }
    rewrite S2. cbn [shr_m].
    change (2 ^ 52) with (Zpos 4503599627370496).
    destruct (Z.leb_spec (E + 1) (Num.emax - Num.prec)) as [Hle|Hgt].
    + split; [reflexivity|]. split.
      * unfold bounded. apply andb_true_iff. split; [|apply Z.leb_le; exact Hle].
        apply canonical_iff. change (Zpos (digits2_pos 4503599627370496)) with 53.
        rewrite fexp_eq. lia.
      * split; [lia|]. split; [intros; lia|].
        replace (E + 1 - E) with 1 by lia. change (2 ^ 1) with 2.
        rewrite Hc in Hr. change (2 ^ 53) with 9007199254740992 in Hr. lia.
    + split; [reflexivity|]. unfold Num.emax, Num.prec in *. lia.
Qed.

Lemma pos_iter_xO m d : Zpos (Pos.iter xO m d) = Zpos m * 2 ^ Zpos d.
Proof.
  induction d as [|d IH] using Pos.peano_ind.
  - cbn. lia.
  - rewrite Pos.iter_succ, Pos2Z.inj_xO, IH, Pos2Z.inj_succ, Z.pow_succ_r by lia. lia.
Qed.

Lemma shl_align_spec mx ex ex' :
  snd (shl_align mx ex ex') = Z.min ex ex' /\
  Zpos (fst (shl_align mx ex ex')) = Zpos mx * 2 ^ (ex - Z.min ex ex').
Proof.
  unfold shl_align. destruct (ex' - ex) as [|d|d] eqn:Ed; cbn [fst snd].
  - replace (Z.min ex ex') with ex by lia. rewrite Z.sub_diag. cbn. lia.
  - replace (Z.min ex ex') with ex by lia. rewrite Z.sub_diag. cbn. lia.
  - replace (Z.min ex ex') with ex' by lia. rewrite pos_iter_xO.
    split; [reflexivity|]. do 2 f_equal. lia.
Qed.

(** Rounding a positive mantissa to the format. *)
Lemma binary_round_spec s mx ex :
  let E := fexp Num.prec Num.emax (Zpos (digits2_pos mx) + ex) in
  let ez := Z.min ex E in
  let q := (Zpos mx * 2 ^ (ex - ez)) / 2 ^ (E - ez) in
  match binary_round Num.prec Num.emax s mx ex with
  | S754_zero s' => s' = s /\ q = 0
  | S754_finite s' m' e' =>
      s' = s /\ bounded Num.prec Num.emax m' e' = true /\
      E <= e' <= E + 1 /\ (e' = E -> q <= Zpos m') /\
      q <= Zpos m' * 2 ^ (e' - E) <= q + 1
  | S754_infinity s' => s' = s /\ Num.emax - Num.prec <= E
  | S754_nan => False
  end.
Proof.
  intros E ez q. unfold binary_round.
  pose proof (shl_align_spec mx ex E) as [Hs Hm]. fold E.
  destruct (shl_align mx ex E) as [mz ez']. cbn [fst snd] in Hs, Hm. fold ez in Hs, Hm. subst ez'.
  assert (P : 0 < 2 ^ (ex - ez)) by (apply Z.pow_pos_nonneg; lia).
  assert (D : Zdigits2 (Zpos mz) + ez = Zpos (digits2_pos mx) + ex).
  { rewrite Hm. rewrite Zdigits2_shl by lia. cbn [Zdigits2]. lia. }
  assert (He : ez <= fexp Num.prec Num.emax (Zdigits2 (Zpos mz) + ez)) by (rewrite D; fold E; lia).
  pose proof (binary_round_aux_spec s (Zpos mz) ez loc_Exact ltac:(lia) He) as H.
  cbv zeta in H. rewrite D in H. fold E in H. unfold q. rewrite <- Hm. exact H.
Qed.

Lemma bounded_canonical m e :
  bounded Num.prec Num.emax m e = true ->
  e = Z.max (Zpos (digits2_pos m) + e - 53) (-1074) /\ e <= 971.
Proof.
  unfold bounded. intros H. apply andb_true_iff in H as [Hc Hb].
  apply canonical_iff in Hc. rewrite fexp_eq in Hc. apply Z.leb_le in Hb.
  unfold Num.emax, Num.prec in Hb. lia.
Qed.

Lemma SFleb_finite_pos m1 e1 m2 e2 :
  e1 < e2 \/ (e1 = e2 /\ Zpos m1 <= Zpos m2) ->
  SFleb (S754_finite false m1 e1) (S754_finite false m2 e2) = true.
Proof.
  intros H. unfold SFleb, SFcompare.
  destruct (Z.compare_spec e1 e2) as [He|He|He].
  - change (Pos.compare_cont Eq m1 m2) with (Pos.compare m1 m2).
    destruct (Pos.compare_spec m1 m2) as [Hm|Hm|Hm]; try reflexivity. lia.
  - reflexivity.
  - lia.
Qed.

Lemma SFleb_refl_nonneg x : Num.nonneg x = true -> SFleb x x = true.
Proof.
  destruct x as [s|[|]| |[|] m e]; cbn [Num.nonneg negb]; try discriminate; try reflexivity.
  intros _. apply SFleb_finite_pos. lia.
Qed.

Lemma add_finite_pos m1 e1 m2 e2 :
  bounded Num.prec Num.emax m1 e1 = true ->
  let r := SFadd Num.prec Num.emax (S754_finite false m1 e1) (S754_finite false m2 e2) in
  Num.good r /\ SFleb (S754_finite false m1 e1) r = true.
Proof.
  intros Hb r. subst r. cbn [SFadd cond_Zopp].
  apply bounded_canonical in Hb as [Hc1 Hb1].
  pose proof (shl_align_spec m1 e1 (Z.min e1 e2)) as [_ H1].
  pose proof (shl_align_spec m2 e2 (Z.min e1 e2)) as [_ H2].
  set (ez := Z.min e1 e2) in *.
  replace (Z.min e1 ez) with ez in H1 by lia.
  replace (Z.min e2 ez) with ez in H2 by lia.
  set (a := fst (shl_align m1 e1 ez)) in *. set (b := fst (shl_align m2 e2 ez)) in *.
  change (Zpos a + Zpos b) with (Zpos (a + b)). cbn [binary_normalize].
  pose proof (binary_round_spec false (a + b) ez) as H. cbv zeta in H.
  set (E := fexp Num.prec Num.emax (Zpos (digits2_pos (a + b)) + ez)) in *.
  assert (P1 : 0 < 2 ^ (e1 - ez)) by (apply Z.pow_pos_nonneg; lia).
  assert (HM : Zpos m1 * 2 ^ (e1 - ez) <= Zpos (a + b)) by lia.
  assert (HD : Zpos (digits2_pos m1) + (e1 - ez) <= Zpos (digits2_pos (a + b))).
  { change (Zpos (digits2_pos m1)) with (Zdigits2 (Zpos m1)).
    rewrite <- Zdigits2_shl by lia.
    change (Zpos (digits2_pos (a + b))) with (Zdigits2 (Zpos (a + b))).
    apply Zdigits2_mono. lia. }
  assert (HE : e1 <= E) by (unfold E; rewrite fexp_eq; lia).
  replace (Z.min ez E) with ez in H by lia. rewrite Z.sub_diag, Z.mul_1_r in H.
  assert (Hq : E = e1 -> Zpos m1 <= Zpos (a + b) / 2 ^ (E - ez)).
  { intros ->. apply Z.div_le_lower_bound; lia. }
  destruct (binary_round Num.prec Num.emax false (a + b) ez) as [s'|s'| |s' m' e'].
  - destruct H as [_ Hz]. exfalso.
    assert (PE : 0 < 2 ^ (E - ez)) by (apply Z.pow_pos_nonneg; lia).
    destruct (Z_lt_le_dec (E - ez) (Zdigits2 (Zpos (a + b)))) as [Hlt|Hge].
    + destruct (Zdigits2_shr (Zpos (a + b)) (E - ez) ltac:(lia) ltac:(lia)) as [_ Hp]. lia.
    + cbn [Zdigits2] in Hge. unfold E in Hge. rewrite fexp_eq in Hge.
      fold E in Hge. assert (E = e1) by (unfold E in *; rewrite fexp_eq in *; lia).
      specialize (Hq H). lia.
  - destruct H as [-> _]. split; [split; reflexivity|reflexivity].
  - destruct H.
  - destruct H as [-> [Hb' [He' [Hm' _]]]]. split; [split; [exact Hb'|reflexivity]|].
    apply SFleb_finite_pos. destruct (Z.eq_dec e' e1) as [->|]; [right|left; lia].
    split; [reflexivity|]. assert (E = e1) by lia. specialize (Hq H). specialize (Hm' (eq_sym H)). lia.
Qed.

Lemma add_mono acc d :
  Num.good acc -> Num.good d ->
  Num.good (SFadd Num.prec Num.emax acc d) /\ SFleb acc (SFadd Num.prec Num.emax acc d) = true.
Proof.
  intros [Va Na] [Vd Nd].
  destruct acc as [sa|[|]| |[|] ma ea]; try discriminate Na;
  destruct d as [sd|[|]| |[|] md ed]; try discriminate Nd;
  try (destruct sa); try (destruct sd);
  try (cbn; repeat split; reflexivity);
  try (split; [split; assumption| first [reflexivity | apply SFleb_refl_nonneg; reflexivity]]).
  all: apply add_finite_pos; exact Va.
Qed.

Lemma Zdigits2_lt_pow m d : 0 <= m -> 0 <= d -> m < 2 ^ d -> Zdigits2 m <= d.
Proof.
  intros Hm Hd Hlt. destruct (Z.eq_dec m 0) as [->|]; [cbn; lia|].
  pose proof (Zdigits2_bounds m ltac:(lia)) as [Blo _].
  destruct (Z_lt_le_dec d (Zdigits2 m)) as [H|]; [|lia].
  assert (2 ^ d <= 2 ^ (Zdigits2 m - 1)) by (apply Z.pow_le_mono_r; lia). lia.
Qed.

Lemma Zdigits2_nonneg m : 0 <= Zdigits2 m.
Proof. destruct m; cbn; lia. Qed.

Lemma Zdigits2_succ_le_pow m : 0 <= m -> m + 1 <= 2 ^ Zdigits2 m.
Proof.
  intros Hm. destruct (Z.eq_dec m 0) as [->|]; [cbn; lia|].
  pose proof (Zdigits2_bounds m ltac:(lia)). lia.
Qed.

Lemma Zdigits2_mul_ge a b :
  0 < a -> 0 < b -> Zdigits2 a + Zdigits2 b - 1 <= Zdigits2 (a * b).
Proof.
  intros Ha Hb.
  pose proof (Zdigits2_bounds a Ha) as [Alo _].
  pose proof (Zdigits2_bounds b Hb) as [Blo _].
  pose proof (Zdigits2_pos a Ha). pose proof (Zdigits2_pos b Hb).
  assert (Hp : 2 ^ (Zdigits2 a - 1 + (Zdigits2 b - 1)) <= a * b).
  { rewrite Z.pow_add_r by lia.
    assert (0 < 2 ^ (Zdigits2 a - 1)) by (apply Z.pow_pos_nonneg; lia).
    assert (0 < 2 ^ (Zdigits2 b - 1)) by (apply Z.pow_pos_nonneg; lia). nia. }
  pose proof (Zdigits2_bounds (a * b) ltac:(nia)) as [_ Phi].
  destruct (Z_lt_le_dec (Zdigits2 (a * b)) (Zdigits2 a + Zdigits2 b - 1)) as [Hlt|]; [|lia].
  assert (2 ^ Zdigits2 (a * b) <= 2 ^ (Zdigits2 a - 1 + (Zdigits2 b - 1))).
  { apply Z.pow_le_mono_r; [lia|]. lia. }
  lia.
Qed.

Lemma good_of_spec (r : spec_float) :
  match r with
  | S754_zero _ => True
  | S754_finite s' m' e' => s' = false /\ bounded Num.prec Num.emax m' e' = true
  | S754_infinity s' => s' = false
  | S754_nan => False
  end -> Num.good r.
Proof.
  destruct r as [s|s| |s m e]; cbn.
  - intros _. split; reflexivity.
  - intros ->. split; reflexivity.
  - intros [].
  - intros [-> Hb]. split; [exact Hb|reflexivity].
Qed.

Lemma mul_finite_pos mx ex my ey :
  bounded Num.prec Num.emax mx ex = true -> bounded Num.prec Num.emax my ey = true ->
  Num.good (SFmul Num.prec Num.emax (S754_finite false mx ex) (S754_finite false my ey)).
Proof.
  intros Hx Hy. cbn [SFmul xorb].
  apply bounded_canonical in Hx as [Cx _]. apply bounded_canonical in Hy as [Cy _].
  pose proof (Zdigits2_mul_ge (Zpos mx) (Zpos my) ltac:(lia) ltac:(lia)) as Hd.
  change (Zpos mx * Zpos my) with (Zpos (mx * my)) in Hd. cbn [Zdigits2] in Hd.
  assert (He : ex + ey <= fexp Num.prec Num.emax (Zdigits2 (Zpos (mx * my)) + (ex + ey))).
  { rewrite fexp_eq. cbn [Zdigits2]. lia. }
  pose proof (binary_round_aux_spec false (Zpos (mx * my)) (ex + ey) loc_Exact ltac:(lia) He) as H.
  cbv zeta in H. apply good_of_spec.
  destruct (binary_round_aux Num.prec Num.emax false (Zpos (mx * my)) (ex + ey) loc_Exact); intuition.
Qed.

(** The product of a non-negative canonical double with a positive finite
    canonical double is a non-negative canonical double. *)
Lemma mul_good x my ey :
  Num.good x -> bounded Num.prec Num.emax my ey = true ->
  Num.good (SFmul Num.prec Num.emax x (S754_finite false my ey)).
Proof.
  intros [Vx Nx] Hy.
  destruct x as [s|[|]| |[|] mx ex]; try discriminate Nx.
  - split; reflexivity.
  - split; reflexivity.
  - apply mul_finite_pos; assumption.
Qed.

Lemma div_eucl_div a b : fst (Z.div_eucl a b) = a / b.
Proof. reflexivity. Qed.

(** The truncated quotient that [SFdiv] hands to the rounding step. *)
Lemma div_core_spec m1 e1 m2 e2 :
  exists q e' l r,
    SFdiv_core_binary Num.prec Num.emax (Zpos m1) e1 (Zpos m2) e2 = (q, e', l) /\
    e' <= e1 - e2 /\
    Zpos m1 * 2 ^ (e1 - e2 - e') = q * Zpos m2 + r /\
    0 <= r < Zpos m2 /\
    0 <= q /\
    e' <= fexp Num.prec Num.emax (Zdigits2 q + e') /\
    Zdigits2 q + e' <=
      Z.max (Zpos (digits2_pos m1) + e1 - (Zpos (digits2_pos m2) + e2) + 1) (-1074).
Proof.
  unfold SFdiv_core_binary. cbn [Zdigits2].
  set (d1 := Zpos (digits2_pos m1)). set (d2 := Zpos (digits2_pos m2)).
  set (e' := Z.min (fexp Num.prec Num.emax (d1 + e1 - (d2 + e2))) (e1 - e2)).
  set (s := e1 - e2 - e').
  assert (Hs : 0 <= s) by (unfold s, e'; lia).
  set (m' := match s with Z.pos _ => Z.shiftl (Zpos m1) s | 0 => Zpos m1 | Z.neg _ => 0 end).
  assert (Hm' : m' = Zpos m1 * 2 ^ s).
  { unfold m'. destruct s as [|p|p] eqn:Es; [cbn; lia| |lia].
    rewrite Z.shiftl_mul_pow2 by lia. reflexivity. }
  assert (P : 0 < 2 ^ s) by (apply Z.pow_pos_nonneg; lia).
  assert (Dm' : Zdigits2 m' = d1 + s).
  { rewrite Hm', Zdigits2_shl by lia. reflexivity. }
  pose proof (div_eucl_div m' (Zpos m2)) as Hq.
  assert (Hmod : snd (Z.div_eucl m' (Zpos m2)) = m' mod Zpos m2) by reflexivity.
  pose proof (Z.div_mod m' (Zpos m2) ltac:(lia)) as Hdm.
  pose proof (Z.mod_pos_bound m' (Zpos m2) ltac:(lia)) as Hr.
  destruct (Z.div_eucl m' (Zpos m2)) as [q r]. cbn [fst snd] in Hq, Hmod. subst q r.
  set (q := m' / Zpos m2) in *. set (r := m' mod Zpos m2) in *.
  assert (Hq0 : 0 <= q) by (apply Z.div_pos; lia).
  pose proof (Zdigits2_bounds (Zpos m2) ltac:(lia)) as [B2lo B2hi].
  cbn [Zdigits2] in B2lo, B2hi. fold d2 in B2lo, B2hi.
  pose proof (Zdigits2_bounds m' ltac:(lia)) as [Bmlo Bmhi].
  assert (Hd2 : 0 < d2) by (unfold d2; lia).
  assert (Hd1 : 0 < d1) by (unfold d1; lia).
  assert (Lq : d1 + s - d2 <= Zdigits2 q).
  { pose proof (Zdigits2_succ_le_pow q Hq0) as Hsq.
    pose proof (Zdigits2_nonneg q).
    assert (m' < 2 ^ (Zdigits2 q + d2)).
    { rewrite Z.pow_add_r by lia.
      assert (0 < 2 ^ Zdigits2 q) by (apply Z.pow_pos_nonneg; lia). nia. }
    assert (Zdigits2 m' <= Zdigits2 q + d2) by (apply Zdigits2_lt_pow; lia). lia. }
  assert (Uq : 0 < q -> Zdigits2 q <= d1 + s - d2 + 1).
  { intros Hqp.
    assert (Hle : Zpos m2 <= m') by nia.
    assert (Hdd : Zdigits2 (Zpos m2) <= Zdigits2 m') by (apply Zdigits2_mono; lia).
    cbn [Zdigits2] in Hdd. fold d2 in Hdd.
    apply Zdigits2_lt_pow; [lia|lia|].
    assert (0 < 2 ^ (d2 - 1)) by (apply Z.pow_pos_nonneg; lia).
    assert (q * 2 ^ (d2 - 1) < 2 ^ (d1 + s - d2 + 1) * 2 ^ (d2 - 1)).
    { rewrite <- Z.pow_add_r by lia.
      replace (d1 + s - d2 + 1 + (d2 - 1)) with (Zdigits2 m') by lia. nia. }
    nia. }
  exists q, e', (new_location (Zpos m2) r), r.
  split; [reflexivity|]. split; [unfold e'; lia|]. fold s. rewrite <- Hm'.
  split; [lia|]. split; [exact Hr|]. split; [exact Hq0|]. split.
  - rewrite fexp_eq. unfold e' at 1. rewrite fexp_eq. unfold s in Lq. lia.
  - destruct (Z.eq_dec q 0) as [Hz|Hnz].
    + rewrite Hz in Lq |- *. cbn [Zdigits2] in Lq |- *.
      unfold s, e' in *. rewrite fexp_eq in *. lia.
    + specialize (Uq ltac:(lia)). unfold s in Uq. lia.
Qed.

(** The quotient of two finite positive doubles is a non-negative canonical
    double, and it is finite unless the magnitudes are far apart. *)
Lemma div_finite_pos m1 e1 m2 e2 :
  let r := SFdiv Num.prec Num.emax (S754_finite false m1 e1) (S754_finite false m2 e2) in
  Num.good r /\
  (r = S754_infinity false ->
   1023 <= Zpos (digits2_pos m1) + e1 - (Zpos (digits2_pos m2) + e2)).
Proof.
  cbv zeta. cbn [SFdiv xorb].
  destruct (div_core_spec m1 e1 m2 e2)
    as (q & e' & l & r & -> & He' & Hdiv & Hr & Hq0 & He & Hd).
  pose proof (binary_round_aux_spec false q e' l Hq0 He) as H. cbv zeta in H.
  destruct (binary_round_aux Num.prec Num.emax false q e' l) as [s'|s'| |s' mr er].
  - split; [split; reflexivity|discriminate].
  - destruct H as [-> HE]. split; [split; reflexivity|]. intros _.
    rewrite fexp_eq in HE. unfold Num.emax, Num.prec in HE. lia.
  - destruct H.
  - destruct H as [-> [Hb _]]. split; [split; [exact Hb|reflexivity]|discriminate].
Qed.

Lemma of_Z_pos w :
  0 < w < 2 ^ 53 ->
  exists m e, binary_normalize Num.prec Num.emax w 0 false = S754_finite false m e /\
              bounded Num.prec Num.emax m e = true /\
              1 <= Zpos (digits2_pos m) + e <= 54.
Proof.
  intros [Hw Hlt]. destruct w as [|p|p]; try lia. cbn [binary_normalize].
  pose proof (binary_round_spec false p 0) as H. cbv zeta in H.
  assert (Hd : Zpos (digits2_pos p) <= 53).
  { change (Zpos (digits2_pos p)) with (Zdigits2 (Zpos p)). apply Zdigits2_lt_pow; lia. }
  rewrite fexp_eq in H.
  replace (Z.max (Zpos (digits2_pos p) + 0 - 53) (-1074)) with (Zpos (digits2_pos p) - 53) in H by lia.
  set (E := Zpos (digits2_pos p) - 53) in *.
  replace (Z.min 0 E) with E in H by lia. rewrite Z.sub_diag in H.
  change (2 ^ 0) with 1 in H. rewrite Z.div_1_r in H.
  assert (P : 0 < 2 ^ (0 - E)) by (apply Z.pow_pos_nonneg; lia).
  destruct (binary_round Num.prec Num.emax false p 0) as [s'|s'| |s' m e].
  - destruct H as [_ Hz]. nia.
  - destruct H as [_ HE]. unfold Num.emax, Num.prec in HE. lia.
  - destruct H.
  - destruct H as [-> [Hb [He _]]]. exists m, e. split; [reflexivity|]. split; [exact Hb|].
    apply bounded_canonical in Hb as [Hc _]. lia.
Qed.

End NumFacts.

(** ** The order of the doubles *)

Lemma compare_key x y :
  Num.is_nan x = false -> Num.is_nan y = false ->
  SFcompare x y = Some (Num.key_compare (Num.key x) (Num.key y)).
Proof.
  destruct x as [sx|[|]| |[|] mx ex]; destruct y as [sy|[|]| |[|] my ey];
    try discriminate; intros _ _; try reflexivity.
  (* both below zero *)
  cbn [SFcompare Num.key]. unfold Num.key_compare. cbn [fst snd].
  rewrite Z.compare_refl, Z.compare_opp, (Z.compare_antisym ex ey).
  destruct (ex ?= ey); reflexivity.
Qed.

Lemma leb_not_nan x y :
  Num.leb x y = true -> Num.is_nan x = false /\ Num.is_nan y = false.
Proof.
  destruct x as [sx|[|]| |[|] mx ex]; destruct y as [sy|[|]| |[|] my ey];
    cbn; intros H; try discriminate H; split; reflexivity.
Qed.

Lemma leb_key x y :
  Num.is_nan x = false -> Num.is_nan y = false ->
  Num.leb x y = negb (match Num.key_compare (Num.key x) (Num.key y) with Gt => true | _ => false end).
Proof.
  intros Hx Hy. unfold Num.leb, SFleb. rewrite (compare_key x y Hx Hy).
  destruct (Num.key_compare (Num.key x) (Num.key y)); reflexivity.
Qed.

Lemma key_compare_trans a b c :
  Num.key_compare a b <> Gt -> Num.key_compare b c <> Gt ->
  Num.key_compare a c <> Gt.
Proof.
  destruct a as [a1 [a2 a3]], b as [b1 [b2 b3]], c as [c1 [c2 c3]].
  unfold Num.key_compare. cbn [fst snd].
  destruct (Z.compare_spec a1 b1), (Z.compare_spec b1 c1), (Z.compare_spec a1 c1);
    try lia; try congruence;
  destruct (Z.compare_spec a2 b2), (Z.compare_spec b2 c2), (Z.compare_spec a2 c2);
    try lia; try congruence;
  destruct (Z.compare_spec a3 b3), (Z.compare_spec b3 c3), (Z.compare_spec a3 c3);
    try lia; congruence.
Qed.

Lemma key_compare_total a b :
  Num.key_compare a b = Gt -> Num.key_compare b a <> Gt.
Proof.
  destruct a as [a1 [a2 a3]], b as [b1 [b2 b3]].
  unfold Num.key_compare. cbn [fst snd].
  destruct (Z.compare_spec a1 b1), (Z.compare_spec b1 a1); try lia; try congruence;
  destruct (Z.compare_spec a2 b2), (Z.compare_spec b2 a2); try lia; try congruence;
  destruct (Z.compare_spec a3 b3), (Z.compare_spec b3 a3); try lia; congruence.
Qed.

(** [<=] is transitive. *)
Lemma leb_trans x y z :
  Num.leb x y = true -> Num.leb y z = true -> Num.leb x z = true.
Proof.
  intros Hxy Hyz.
  destruct (leb_not_nan _ _ Hxy) as [Nx Ny]. destruct (leb_not_nan _ _ Hyz) as [_ Nz].
  rewrite leb_key in * by assumption.
  pose proof (key_compare_trans (Num.key x) (Num.key y) (Num.key z)) as T.
  destruct (Num.key_compare (Num.key x) (Num.key y)); try discriminate;
  destruct (Num.key_compare (Num.key y) (Num.key z)); try discriminate;
  destruct (Num.key_compare (Num.key x) (Num.key z)); try reflexivity;
  exfalso; apply T; congruence.
Qed.

(** Two doubles other than NaN are comparable. *)
Lemma leb_total x y :
  Num.is_nan x = false -> Num.is_nan y = false ->
  Num.leb x y = false -> Num.leb y x = true.
Proof.
  intros Nx Ny. rewrite !leb_key by assumption.
  pose proof (key_compare_total (Num.key x) (Num.key y)) as T.
  destruct (Num.key_compare (Num.key x) (Num.key y)); try discriminate.
  intros _. destruct (Num.key_compare (Num.key y) (Num.key x)); try reflexivity.
  exfalso. apply T; reflexivity.
Qed.

Lemma leb_infinity x : Num.is_nan x = false -> Num.leb x Num.Infinity = true.
Proof. destruct x as [s|[|]| |[|] m e]; try discriminate; reflexivity. Qed.

(** * The exact values of rounded results *)

Lemma bpow_pos e : (0 < Num.bpow e)%Q.
Proof. unfold Num.bpow. apply Qpower_0_lt. reflexivity. Qed.

Lemma bpow_add a b : (Num.bpow (a + b) == Num.bpow a * Num.bpow b)%Q.
Proof. unfold Num.bpow. apply Qpower_plus. discriminate. Qed.

Lemma bpow_Z n : 0 <= n -> (Num.bpow n == inject_Z (2 ^ n))%Q.
Proof. intros Hn. unfold Num.bpow. rewrite Zpower_Qpower by exact Hn. reflexivity. Qed.

Lemma bpow_ge_1 n : 0 <= n -> (1 <= Num.bpow n)%Q.
Proof.
  intros Hn. rewrite bpow_Z by exact Hn.
  assert (1 <= 2 ^ n) by (pose proof (Z.pow_pos_nonneg 2 n); lia).
  change 1%Q with (inject_Z 1). rewrite <- Zle_Qle. exact H.
Qed.

Lemma bpow_le a b : a <= b -> (Num.bpow a <= Num.bpow b)%Q.
Proof.
  intros Hab. replace b with (a + (b - a)) by lia. rewrite bpow_add.
  pose proof (bpow_pos a). pose proof (bpow_ge_1 (b - a) ltac:(lia)). nra.
Qed.

Lemma bpow_lt_inv a b : (Num.bpow a < Num.bpow b)%Q -> a < b.
Proof.
  intros H. destruct (Z_lt_le_dec a b) as [|Hle]; [assumption|].
  pose proof (bpow_le b a Hle). lra.
Qed.

(** An integer multiple of a power of two, moved to a lower exponent. *)
Lemma bpow_shift (m : Z) (e e' : Z) :
  e' <= e -> (inject_Z m * Num.bpow e == inject_Z (m * 2 ^ (e - e')) * Num.bpow e')%Q.
Proof.
  intros H. rewrite inject_Z_mult, <- bpow_Z by lia.
  replace e with ((e - e') + e') at 1 by lia. rewrite bpow_add. ring.
Qed.

Lemma eps_pos : (0 < Num.eps)%Q. Proof. apply bpow_pos. Qed.
Lemma eta_pos : (0 < Num.eta)%Q. Proof. apply bpow_pos. Qed.

(** The value of a rounded result against the exact value [x] that the
    mantissa [m] at exponent [e] truncates. *)
Lemma binary_round_aux_value m e l (x : Q) :
  0 <= m ->
  e <= fexp Num.prec Num.emax (Zdigits2 m + e) ->
  Zdigits2 m + e <= 1000 ->
  (inject_Z m * Num.bpow e <= x)%Q ->
  (x < inject_Z (m + 1) * Num.bpow e)%Q ->
  let r := binary_round_aux Num.prec Num.emax false m e l in
  Num.good r /\ Num.is_finite r = true /\
  (x - (Num.eps * x + Num.eta) <= Num.toQ r <= x + (Num.eps * x + Num.eta))%Q.
Proof.
  intros Hm He Hmag Hlo Hhi r.
  pose proof (NumFacts.binary_round_aux_spec false m e l Hm He) as H. cbv zeta in H.
  fold r in H.
  set (E := fexp Num.prec Num.emax (Zdigits2 m + e)) in *.
  set (q := m / 2 ^ (E - e)) in *.
  assert (HE : E = Z.max (Zdigits2 m + e - 53) (-1074)) by (unfold E; apply NumFacts.fexp_eq).
  assert (P : 0 < 2 ^ (E - e)) by (apply Z.pow_pos_nonneg; lia).
  assert (Hq1 : q * 2 ^ (E - e) <= m).
  { unfold q. rewrite Z.mul_comm. apply Z.mul_div_le. exact P. }
  assert (Hq2 : m + 1 <= (q + 1) * 2 ^ (E - e)).
  { unfold q. pose proof (Z.mul_succ_div_gt m (2 ^ (E - e)) P). lia. }
  assert (Hq0 : 0 <= q) by (apply Z.div_pos; lia).
  (* the exact value lies between two neighbours at exponent [E] *)
  assert (Qlo : (inject_Z q * Num.bpow E <= x)%Q).
  { rewrite (bpow_shift q E e) by lia.
    apply Qle_trans with (inject_Z m * Num.bpow e)%Q; [|exact Hlo].
    apply Qmult_le_compat_r; [|apply Qlt_le_weak, bpow_pos].
    rewrite <- Zle_Qle. exact Hq1. }
  assert (Qhi : (x < inject_Z (q + 1) * Num.bpow E)%Q).
  { rewrite (bpow_shift (q + 1) E e) by lia.
    apply Qlt_le_trans with (inject_Z (m + 1) * Num.bpow e)%Q; [exact Hhi|].
    apply Qmult_le_compat_r; [|apply Qlt_le_weak, bpow_pos].
    rewrite <- Zle_Qle. exact Hq2. }
  rewrite inject_Z_plus in Qhi. change (inject_Z 1) with 1%Q in Qhi.
  assert (Hx0 : (0 <= x)%Q).
  { apply Qle_trans with (inject_Z q * Num.bpow E)%Q; [|exact Qlo].
    apply Qmult_le_0_compat; [|apply Qlt_le_weak, bpow_pos].
    change 0%Q with (inject_Z 0). rewrite <- Zle_Qle. exact Hq0. }
  (* one unit at exponent [E] is small against [x] *)
  assert (Hulp : (Num.bpow E <= Num.eps * x + Num.eta)%Q).
  { pose proof eps_pos. pose proof eta_pos.
    destruct (Z.eq_dec E (-1074)) as [->|Hne].
    - fold Num.eta. nra.
    - assert (Hd : E = Zdigits2 m + e - 53) by lia.
      assert (Hmpos : 0 < m) by (destruct m; cbn [Zdigits2] in *; lia).
      pose proof (NumFacts.Zdigits2_bounds m Hmpos) as [Blo _].
      assert (Q1 : (Num.bpow (Zdigits2 m - 1) * Num.bpow e <= x)%Q).
      { apply Qle_trans with (inject_Z m * Num.bpow e)%Q; [|exact Hlo].
        apply Qmult_le_compat_r; [|apply Qlt_le_weak, bpow_pos].
        rewrite bpow_Z by (pose proof (NumFacts.Zdigits2_pos m Hmpos); lia).
        rewrite <- Zle_Qle. exact Blo. }
      rewrite <- bpow_add in Q1.
      replace (Zdigits2 m - 1 + e) with (52 + E) in Q1 by lia.
      rewrite bpow_add in Q1.
      assert (U1 : (Num.eps * Num.bpow 52 == 1)%Q) by (unfold Num.eps; rewrite <- bpow_add; reflexivity).
      pose proof (bpow_pos E). nra. }
  destruct r as [s'|s'| |s' m' e'].
  - destruct H as [_ Hz]. split; [split; reflexivity|]. split; [reflexivity|].
    cbn [Num.toQ]. rewrite Hz in Qhi. change (inject_Z 0) with 0%Q in Qhi.
    pose proof eps_pos. pose proof eta_pos. nra.
  - destruct H as [_ Hinf]. unfold Num.emax, Num.prec in Hinf. lia.
  - destruct H.
  - destruct H as [-> [Hb [Hee [_ HK]]]].
    split; [split; [exact Hb|reflexivity]|]. split; [reflexivity|].
    cbn [Num.toQ]. fold (Num.bpow e').
    assert (V : (1 * inject_Z (Zpos m') * Num.bpow e' == inject_Z (Zpos m' * 2 ^ (e' - E)) * Num.bpow E)%Q).
    { rewrite <- (bpow_shift (Zpos m') e' E) by lia. ring. }
    rewrite V.
    assert (K1 : (inject_Z q <= inject_Z (Zpos m' * 2 ^ (e' - E)))%Q) by (rewrite <- Zle_Qle; lia).
    assert (K2 : (inject_Z (Zpos m' * 2 ^ (e' - E)) <= inject_Z q + 1)%Q).
    { change 1%Q with (inject_Z 1). rewrite <- inject_Z_plus, <- Zle_Qle. lia. }
    pose proof (bpow_pos E). nra.
Qed.

(** ** Magnitudes *)

Lemma toQ_finite m e : (Num.toQ (S754_finite false m e) == inject_Z (Zpos m) * Num.bpow e)%Q.
Proof. cbn [Num.toQ]. fold (Num.bpow e). ring. Qed.

Lemma toQ_bounds m e :
  (Num.bpow (Zpos (digits2_pos m) - 1 + e) <= Num.toQ (S754_finite false m e) /\
   Num.toQ (S754_finite false m e) < Num.bpow (Zpos (digits2_pos m) + e))%Q.
Proof.
  rewrite toQ_finite, !bpow_add.
  pose proof (NumFacts.digits2_bounds m) as [Blo Bhi].
  pose proof (bpow_pos e).
  rewrite (bpow_Z (Zpos (digits2_pos m) - 1)), (bpow_Z (Zpos (digits2_pos m))) by lia.
  split.
  - apply Qmult_le_compat_r; [|lra]. rewrite <- Zle_Qle. exact Blo.
  - apply Qmult_lt_compat_r; [lra|]. rewrite <- Zlt_Qlt. exact Bhi.
Qed.

Lemma toQ_nonneg a : Num.nonneg a = true -> (0 <= Num.toQ a)%Q.
Proof.
  destruct a as [s|s| |[|] m e]; cbn [Num.nonneg negb]; try discriminate; intros _;
    try (cbn [Num.toQ]; lra).
  pose proof (toQ_bounds m e) as [B _]. pose proof (bpow_pos (Zpos (digits2_pos m) - 1 + e)). lra.
Qed.

(** A positive double below [2^k] has magnitude at most [k]. *)
Lemma mag_le m e k :
  (Num.toQ (S754_finite false m e) < Num.bpow k)%Q -> Zpos (digits2_pos m) + e <= k.
Proof.
  intros H. pose proof (toQ_bounds m e) as [B _].
  assert (Hlt : (Num.bpow (Zpos (digits2_pos m) - 1 + e) < Num.bpow k)%Q) by lra.
  apply bpow_lt_inv in Hlt. lia.
Qed.

(** ** Exact conversions and the values of rounded results *)

Lemma binary_round_aux_exact s m e :
  fexp Num.prec Num.emax (Zpos (digits2_pos m) + e) = e ->
  e <= Num.emax - Num.prec ->
  binary_round_aux Num.prec Num.emax s (Zpos m) e loc_Exact = S754_finite s m e.
Proof.
  intros Hc Hb. unfold binary_round_aux, shr_fexp. cbn [Zdigits2 shr_record_of_loc].
  rewrite Hc, Z.sub_diag. cbn [shr shr_m loc_of_shr_record round_nearest_even Zdigits2].
  rewrite Hc, Z.sub_diag. cbn [shr shr_m shr_record_of_loc].
  apply Z.leb_le in Hb. rewrite Hb. reflexivity.
Qed.

Lemma of_Z_exact w :
  0 < w < 2 ^ 53 ->
  exists m e, Num.of_Z w = S754_finite false m e /\
              bounded Num.prec Num.emax m e = true /\
              (Num.toQ (Num.of_Z w) == inject_Z w)%Q.
Proof.
  intros [Hw Hlt]. destruct w as [|p|p]; try lia.
  unfold Num.of_Z. cbn [binary_normalize]. unfold binary_round.
  assert (Hd : Zpos (digits2_pos p) <= 53).
  { change (Zpos (digits2_pos p)) with (Zdigits2 (Zpos p)). apply NumFacts.Zdigits2_lt_pow; lia. }
  set (E := fexp Num.prec Num.emax (Zpos (digits2_pos p) + 0)).
  assert (HE : E = Zpos (digits2_pos p) - 53) by (unfold E; rewrite NumFacts.fexp_eq; lia).
  pose proof (NumFacts.shl_align_spec p 0 E) as [Hs Hm].
  destruct (shl_align p 0 E) as [mz ez]. cbn [fst snd] in Hs, Hm.
  replace (Z.min 0 E) with E in Hs, Hm by lia. subst ez.
  assert (P : 0 < 2 ^ (0 - E)) by (apply Z.pow_pos_nonneg; lia).
  assert (D : Zpos (digits2_pos mz) = 53).
  { change (Zpos (digits2_pos mz)) with (Zdigits2 (Zpos mz)).
    rewrite Hm, NumFacts.Zdigits2_shl by lia. cbn [Zdigits2]. lia. }
  assert (Hc : fexp Num.prec Num.emax (Zpos (digits2_pos mz) + E) = E)
    by (rewrite NumFacts.fexp_eq; lia).
  rewrite (binary_round_aux_exact false mz E Hc) by (unfold Num.emax, Num.prec; lia).
  exists mz, E. split; [reflexivity|]. split.
  - unfold bounded. apply andb_true_iff. split; [apply NumFacts.canonical_iff; exact Hc|].
    apply Z.leb_le. unfold Num.emax, Num.prec. lia.
  - rewrite toQ_finite, Hm. rewrite <- (bpow_shift (Zpos p) 0 E) by lia.
    change (Num.bpow 0) with 1%Q. ring.
Qed.

Lemma binary_round_value mx ex :
  Zpos (digits2_pos mx) + ex <= 1000 ->
  let r := binary_round Num.prec Num.emax false mx ex in
  let x := (inject_Z (Zpos mx) * Num.bpow ex)%Q in
  Num.good r /\ Num.is_finite r = true /\
  (x - (Num.eps * x + Num.eta) <= Num.toQ r <= x + (Num.eps * x + Num.eta))%Q.
Proof.
  intros Hmag. cbv zeta. unfold binary_round.
  set (E := fexp Num.prec Num.emax (Zpos (digits2_pos mx) + ex)).
  pose proof (NumFacts.shl_align_spec mx ex E) as [Hs Hm].
  destruct (shl_align mx ex E) as [mz ez]. cbn [fst snd] in Hs, Hm. subst ez.
  set (ez := Z.min ex E) in *.
  assert (P : 0 < 2 ^ (ex - ez)) by (apply Z.pow_pos_nonneg; lia).
  assert (D : Zdigits2 (Zpos mz) + ez = Zpos (digits2_pos mx) + ex).
  { rewrite Hm, NumFacts.Zdigits2_shl by lia. cbn [Zdigits2]. lia. }
  assert (V : (inject_Z (Zpos mx) * Num.bpow ex == inject_Z (Zpos mz) * Num.bpow ez)%Q).
  { rewrite Hm. apply bpow_shift. lia. }
  rewrite V.
  apply binary_round_aux_value.
  - lia.
  - rewrite D. fold E. lia.
  - rewrite D. exact Hmag.
  - lra.
  - rewrite inject_Z_plus. change (inject_Z 1) with 1%Q. pose proof (bpow_pos ez). nra.
Qed.

Lemma Zdigits2_mul_le a b :
  0 < a -> 0 < b -> Zdigits2 (a * b) <= Zdigits2 a + Zdigits2 b.
Proof.
  intros Ha Hb.
  pose proof (NumFacts.Zdigits2_bounds a Ha) as [_ Ahi].
  pose proof (NumFacts.Zdigits2_bounds b Hb) as [_ Bhi].
  pose proof (NumFacts.Zdigits2_pos a Ha). pose proof (NumFacts.Zdigits2_pos b Hb).
  apply NumFacts.Zdigits2_lt_pow; [nia|lia|].
  rewrite Z.pow_add_r by lia. nia.
Qed.

(** The product of a finite non-negative canonical double and a finite
    positive canonical double, against the exact product. *)
Lemma mul_value a mb eb :
  Num.good a -> Num.is_finite a = true ->
  bounded Num.prec Num.emax mb eb = true ->
  Num.mag a + (Zpos (digits2_pos mb) + eb) <= 1000 ->
  let r := Num.mul a (S754_finite false mb eb) in
  let x := (Num.toQ a * Num.toQ (S754_finite false mb eb))%Q in
  Num.good r /\ Num.is_finite r = true /\
  (x - (Num.eps * x + Num.eta) <= Num.toQ r <= x + (Num.eps * x + Num.eta))%Q.
Proof.
  intros [Va Na] Fa Hb Hmag. cbv zeta.
  destruct a as [s|s| |[|] ma ea]; try discriminate Na; try discriminate Fa.
  - (* zero *)
    cbn [Num.mul SFmul Num.toQ]. split; [split; reflexivity|]. split; [reflexivity|].
    pose proof eps_pos. pose proof eta_pos. nra.
  - unfold Num.mul. cbn [SFmul xorb]. cbn [Num.mag] in Hmag.
    cbn [Num.valid valid_binary] in Va.
    pose proof (NumFacts.bounded_canonical _ _ Va) as [Ca _].
    pose proof (NumFacts.bounded_canonical _ _ Hb) as [Cb _].
    pose proof (NumFacts.Zdigits2_mul_ge (Zpos ma) (Zpos mb) ltac:(lia) ltac:(lia)) as Hge.
    pose proof (Zdigits2_mul_le (Zpos ma) (Zpos mb) ltac:(lia) ltac:(lia)) as Hle.
    change (Zpos ma * Zpos mb) with (Zpos (ma * mb)) in Hge, Hle. cbn [Zdigits2] in Hge, Hle.
    assert (X : (Num.toQ (S754_finite false ma ea) * Num.toQ (S754_finite false mb eb)
                 == inject_Z (Zpos (ma * mb)) * Num.bpow (ea + eb))%Q).
    { rewrite !toQ_finite, bpow_add, Pos2Z.inj_mul, inject_Z_mult. ring. }
    rewrite X.
    apply binary_round_aux_value.
    + lia.
    + rewrite NumFacts.fexp_eq. cbn [Zdigits2]. lia.
    + cbn [Zdigits2]. lia.
    + lra.
    + rewrite inject_Z_plus. change (inject_Z 1) with 1%Q. pose proof (bpow_pos (ea + eb)). nra.
Qed.

(** The quotient of two finite positive doubles, against the exact
    quotient. *)
Lemma div_value m1 e1 m2 e2 :
  Zpos (digits2_pos m1) + e1 - (Zpos (digits2_pos m2) + e2) + 1 <= 1000 ->
  let r := Num.div (S754_finite false m1 e1) (S754_finite false m2 e2) in
  let x := (Num.toQ (S754_finite false m1 e1) / Num.toQ (S754_finite false m2 e2))%Q in
  Num.good r /\ Num.is_finite r = true /\
  (x - (Num.eps * x + Num.eta) <= Num.toQ r <= x + (Num.eps * x + Num.eta))%Q.
Proof.
  intros Hmag. cbv zeta. unfold Num.div. cbn [SFdiv xorb].
  destruct (NumFacts.div_core_spec m1 e1 m2 e2) as (q & e' & l & r & -> & He' & Hdiv & Hr & Hq0 & He & Hd).
  set (x := (Num.toQ (S754_finite false m1 e1) / Num.toQ (S754_finite false m2 e2))%Q).
  assert (P2 : (0 < inject_Z (Zpos m2))%Q) by (change 0%Q with (inject_Z 0); rewrite <- Zlt_Qlt; lia).
  assert (X : (x == inject_Z (Zpos m1 * 2 ^ (e1 - e2 - e')) / inject_Z (Zpos m2) * Num.bpow e')%Q).
  { unfold x. rewrite !toQ_finite.
    rewrite (bpow_shift (Zpos m1) e1 (e' + e2)) by lia.
    replace (e1 - (e' + e2)) with (e1 - e2 - e') by lia.
    rewrite (bpow_add e' e2).
    pose proof (bpow_pos e2). pose proof (bpow_pos e').
    field. split; lra. }
  rewrite Hdiv in X. rewrite inject_Z_plus, inject_Z_mult in X.
  assert (R0 : (0 <= inject_Z r)%Q) by (change 0%Q with (inject_Z 0); rewrite <- Zle_Qle; lia).
  assert (R1 : (inject_Z r < inject_Z (Zpos m2))%Q) by (rewrite <- Zlt_Qlt; lia).
  set (f := (inject_Z r / inject_Z (Zpos m2))%Q).
  assert (F0 : (0 <= f)%Q).
  { unfold f. apply Qle_shift_div_l; [exact P2|]. lra. }
  assert (F1 : (f < 1)%Q).
  { unfold f. apply Qlt_shift_div_r; [exact P2|]. lra. }
  assert (X' : (x == (inject_Z q + f) * Num.bpow e')%Q).
  { rewrite X. unfold f. field. lra. }
  pose proof (bpow_pos e').
  apply binary_round_aux_value.
  - exact Hq0.
  - exact He.
  - lia.
  - rewrite X'. nra.
  - rewrite X', inject_Z_plus. change (inject_Z 1) with 1%Q. nra.
Qed.

(** The sum of two finite non-negative canonical doubles, against the exact
    sum. *)
Lemma add_value a d :
  Num.good a -> Num.is_finite a = true ->
  Num.good d -> Num.is_finite d = true ->
  Num.mag a <= 999 -> Num.mag d <= 999 ->
  let r := Num.add a d in
  let x := (Num.toQ a + Num.toQ d)%Q in
  Num.good r /\ Num.is_finite r = true /\
  (x - (Num.eps * x + Num.eta) <= Num.toQ r <= x + (Num.eps * x + Num.eta))%Q.
Proof.
  intros [Va Na] Fa [Vd Nd] Fd Ma Md. cbv zeta.
  pose proof eps_pos as Hu. pose proof eta_pos as Heta.
  destruct a as [sa|sa| |[|] m1 e1]; try discriminate Na; try discriminate Fa;
  destruct d as [sd|sd| |[|] m2 e2]; try discriminate Nd; try discriminate Fd.
  - (* 0 + 0 *)
    assert (E : Num.is_zero (Num.add (S754_zero sa) (S754_zero sd)) = true)
      by (destruct sa, sd; reflexivity).
    destruct (Num.add (S754_zero sa) (S754_zero sd)) as [s| | |]; try discriminate E.
    split; [split; reflexivity|]. split; [reflexivity|]. cbn [Num.toQ]. nra.
  - (* 0 + d *)
    change (Num.add (S754_zero sa) (S754_finite false m2 e2)) with (S754_finite false m2 e2).
    split; [split; assumption|]. split; [reflexivity|].
    pose proof (toQ_nonneg (S754_finite false m2 e2) eq_refl).
    change (Num.toQ (S754_zero sa)) with 0%Q. nra.
  - (* a + 0 *)
    change (Num.add (S754_finite false m1 e1) (S754_zero sd)) with (S754_finite false m1 e1).
    split; [split; assumption|]. split; [reflexivity|].
    pose proof (toQ_nonneg (S754_finite false m1 e1) eq_refl).
    change (Num.toQ (S754_zero sd)) with 0%Q. nra.
  - (* both positive *)
    unfold Num.add. cbn [SFadd cond_Zopp]. cbn [Num.mag] in Ma, Md.
    pose proof (NumFacts.shl_align_spec m1 e1 (Z.min e1 e2)) as [_ H1].
    pose proof (NumFacts.shl_align_spec m2 e2 (Z.min e1 e2)) as [_ H2].
    set (ez := Z.min e1 e2) in *.
    replace (Z.min e1 ez) with ez in H1 by lia.
    replace (Z.min e2 ez) with ez in H2 by lia.
    set (ma := fst (shl_align m1 e1 ez)) in *. set (mb := fst (shl_align m2 e2 ez)) in *.
    change (Zpos ma + Zpos mb) with (Zpos (ma + mb)). cbn [binary_normalize].
    assert (P1 : 0 < 2 ^ (e1 - ez)) by (apply Z.pow_pos_nonneg; lia).
    assert (P2 : 0 < 2 ^ (e2 - ez)) by (apply Z.pow_pos_nonneg; lia).
    assert (X : (Num.toQ (S754_finite false m1 e1) + Num.toQ (S754_finite false m2 e2)
                 == inject_Z (Zpos (ma + mb)) * Num.bpow ez)%Q).
    { rewrite !toQ_finite, Pos2Z.inj_add, inject_Z_plus, H1, H2.
      rewrite (bpow_shift (Zpos m1) e1 ez), (bpow_shift (Zpos m2) e2 ez) by lia. ring. }
    rewrite X. apply binary_round_value.
    (* the magnitude of the sum *)
    assert (Da : Zdigits2 (Zpos ma) = Zpos (digits2_pos m1) + (e1 - ez)).
    { rewrite H1, NumFacts.Zdigits2_shl by lia. reflexivity. }
    assert (Db : Zdigits2 (Zpos mb) = Zpos (digits2_pos m2) + (e2 - ez)).
    { rewrite H2, NumFacts.Zdigits2_shl by lia. reflexivity. }
    pose proof (NumFacts.Zdigits2_bounds (Zpos ma) ltac:(lia)) as [_ Ahi].
    pose proof (NumFacts.Zdigits2_bounds (Zpos mb) ltac:(lia)) as [_ Bhi].
    set (k := Z.max (Zdigits2 (Zpos ma)) (Zdigits2 (Zpos mb))).
    assert (Ka : 2 ^ Zdigits2 (Zpos ma) <= 2 ^ k) by (apply Z.pow_le_mono_r; unfold k; lia).
    assert (Kb : 2 ^ Zdigits2 (Zpos mb) <= 2 ^ k) by (apply Z.pow_le_mono_r; unfold k; lia).
    assert (Hk : 0 <= k) by (unfold k; pose proof (NumFacts.Zdigits2_nonneg (Zpos ma)); lia).
    assert (Hs : Zdigits2 (Zpos (ma + mb)) <= k + 1).
    { apply NumFacts.Zdigits2_lt_pow; [lia|lia|].
      rewrite Z.pow_add_r by lia. change (2 ^ 1) with 2. rewrite Pos2Z.inj_add. lia. }
    cbn [Zdigits2] in Hs. unfold k in Hs. lia.
Qed.

(** * The timestamp allocator *)

Lemma weight_ge_2 s : 2 <= weight s.
Proof.
  unfold weight. destruct (isWord s); cbn [negb]; [lia|].
  destruct (_ || _ || _); [lia|]. destruct (_ || _ || _); lia.
Qed.

Lemma fold_left_add_shift (l : list Z) (a : Z) :
  fold_left Z.add l a = a + fold_left Z.add l 0.
Proof.
  revert a. induction l as [|x l IH]; intros a; cbn [fold_left]; [lia|].
  rewrite (IH (a + x)), (IH (0 + x)). lia.
Qed.

Lemma totalWeight_cons s segs :
  totalWeight (s :: segs) = weight s + totalWeight segs.
Proof.
  unfold totalWeight, weights. cbn [List.map fold_left].
  rewrite fold_left_add_shift. lia.
Qed.

Lemma totalWeight_lower segs : 2 * Z.of_nat (List.length segs) <= totalWeight segs.
Proof.
  induction segs as [|s segs IH]; [cbn; lia|].
  rewrite totalWeight_cons. pose proof (weight_ge_2 s).
  cbn [List.length]. lia.
Qed.

Lemma weight_le_total segs s : In s segs -> weight s <= totalWeight segs.
Proof.
  induction segs as [|x segs IH]; [intros []|].
  rewrite totalWeight_cons. intros [->|Hin].
  - pose proof (totalWeight_lower segs). lia.
  - specialize (IH Hin). pose proof (weight_ge_2 x). lia.
Qed.

(** What [stamp] returns, read off against a list of weights that holds the
    weights of [segs] from position [length wpre] on. *)
Lemma stamp_windows d T segs : forall wpre acc,
  List.map window (fst (stamp d (wpre ++ List.map weight segs) T (List.length wpre) acc segs)) =
  accumulate acc (List.map (fun s => portion d T (weight s)) segs).
Proof.
  induction segs as [|s rest IH]; intros wpre acc; [reflexivity|].
  cbn [stamp List.map].
  assert (Hd : segmentDuration d (wpre ++ weight s :: List.map weight rest) T (List.length wpre)
               = portion d T (weight s)).
  { unfold segmentDuration. rewrite nth_error_app2 by lia. rewrite Nat.sub_diag. reflexivity. }
  rewrite Hd.
  specialize (IH (wpre ++ [weight s]) (Num.add acc (portion d T (weight s)))).
  rewrite <- app_assoc, length_app in IH. cbn [List.app List.length] in IH.
  rewrite Nat.add_1_r in IH.
  destruct (stamp d (wpre ++ weight s :: List.map weight rest) T (S (List.length wpre))
                  (Num.add acc (portion d T (weight s))) rest) as [out dv].
  cbn [fst List.map accumulate window startTime endTime] in *. rewrite IH. reflexivity.
Qed.

Lemma stamp_frame d ws T segs : forall i acc,
  List.map text (fst (stamp d ws T i acc segs)) = List.map text segs /\
  List.map isWord (fst (stamp d ws T i acc segs)) = List.map isWord segs /\
  List.map translation (fst (stamp d ws T i acc segs)) = List.map translation segs /\
  snd (stamp d ws T i acc segs) = List.map (fun _ => T) segs.
Proof.
  induction segs as [|s rest IH]; intros i acc; [repeat split; reflexivity|].
  cbn [stamp]. specialize (IH (S i) (Num.add acc (segmentDuration d ws T i))).
  destruct (stamp d ws T (S i) (Num.add acc (segmentDuration d ws T i)) rest) as [out dv].
  cbn [fst snd List.map text isWord translation] in *.
  destruct IH as (-> & -> & -> & ->). repeat split; reflexivity.
Qed.

Lemma calculateTimestamps_windows d segs :
  List.map window (calculateTimestamps d segs) = accumulate Num.zero (shares d segs).
Proof.
  unfold calculateTimestamps, stampAll, shares, weights.
  exact (stamp_windows d (totalWeight segs) segs [] Num.zero).
Qed.

(** ** Shares for a positive duration *)

Lemma portion_good D T w :
  Num.positive_finite D = true -> 0 < w < 2 ^ 53 -> 0 < T < 2 ^ 53 ->
  Num.good (portion D T w).
Proof.
  intros HD Hw HT. unfold portion, Num.mul, Num.div, Num.of_Z.
  destruct (NumFacts.of_Z_pos w Hw) as (mw & ew & -> & _ & _).
  destruct (NumFacts.of_Z_pos T HT) as (mT & eT & -> & _ & _).
  destruct D as [s|s| |[|] mD eD]; try discriminate HD. cbn [Num.positive_finite] in HD.
  apply NumFacts.mul_good; [|exact HD].
  apply (NumFacts.div_finite_pos mw ew mT eT).
Qed.

Lemma shares_good D segs :
  Num.positive_finite D = true -> totalWeight segs < 2 ^ 53 ->
  Forall Num.good (shares D segs).
Proof.
  intros HD HT. unfold shares. apply Forall_forall. intros x Hx.
  apply in_map_iff in Hx as (s & <- & Hin).
  pose proof (weight_ge_2 s). pose proof (weight_le_total segs s Hin).
  apply portion_good; [exact HD|lia|lia].
Qed.

Lemma accumulate_contiguous ds : forall acc out,
  Num.good acc -> Forall Num.good ds ->
  List.map window out = accumulate acc ds -> contiguous acc out.
Proof.
  induction ds as [|d ds IH]; intros acc out Hacc Hds Hw.
  - destruct out; [exact I|discriminate Hw].
  - destruct out as [|s out]; [discriminate Hw|].
    cbn [List.map accumulate] in Hw. unfold window at 1 in Hw.
    injection Hw as Hst Hen Hrest.
    inversion Hds as [|? ? Hd Hds']; subst.
    destruct (NumFacts.add_mono acc d Hacc Hd) as [Hg Hle].
    cbn [contiguous]. split; [exact Hst|].
    exists (Num.add acc d). split; [exact Hen|]. split; [exact Hg|]. split; [exact Hle|].
    apply IH; assumption.
Qed.

Lemma contiguous_head_le a out : forall j sj,
  contiguous a out -> Num.nonneg a = true -> nth_error out j = Some sj ->
  Num.leb a (startOf sj) = true /\ Num.leb (startOf sj) (endOf sj) = true.
Proof.
  revert a. induction out as [|s out IH]; intros a j sj Hc Ha Hj.
  - destruct j; discriminate Hj.
  - cbn [contiguous] in Hc. destruct Hc as (Hst & b & Hen & Hg & Hle & Hc).
    destruct j as [|j].
    + injection Hj as <-. unfold startOf, endOf. rewrite Hst, Hen.
      split; [apply NumFacts.SFleb_refl_nonneg; exact Ha|exact Hle].
    + cbn [nth_error] in Hj. destruct (IH b j sj Hc (proj2 Hg) Hj) as [H1 H2].
      split; [|exact H2]. exact (leb_trans _ _ _ Hle H1).
Qed.

Lemma contiguous_pairs a out : forall i j si sj,
  contiguous a out -> (i < j)%nat ->
  nth_error out i = Some si -> nth_error out j = Some sj ->
  Num.leb (endOf si) (startOf sj) = true /\ Num.leb (startOf si) (startOf sj) = true.
Proof.
  revert a. induction out as [|s out IH]; intros a i j si sj Hc Hij Hi Hj.
  - destruct i; discriminate Hi.
  - cbn [contiguous] in Hc. destruct Hc as (Hst & b & Hen & Hg & Hle & Hc).
    destruct j as [|j]; [lia|]. cbn [nth_error] in Hj.
    destruct i as [|i].
    + injection Hi as <-. unfold endOf at 1. unfold startOf at 2. rewrite Hen, Hst.
      destruct (contiguous_head_le b out j sj Hc (proj2 Hg) Hj) as [H1 _].
      split; [exact H1|]. exact (leb_trans _ _ _ Hle H1).
    + cbn [nth_error] in Hi. apply (IH b i j si sj Hc); [lia|assumption|assumption].
Qed.

Lemma contiguous_next a out : forall i si sj,
  contiguous a out ->
  nth_error out i = Some si -> nth_error out (S i) = Some sj ->
  startTime sj = endTime si.
Proof.
  revert a. induction out as [|s out IH]; intros a i si sj Hc Hi Hj.
  - destruct i; discriminate Hi.
  - cbn [contiguous] in Hc. destruct Hc as (Hst & b & Hen & Hg & Hle & Hc).
    cbn [nth_error] in Hj. destruct i as [|i].
    + injection Hi as <-. destruct out as [|s' out]; [discriminate Hj|].
      injection Hj as <-. cbn [contiguous] in Hc. destruct Hc as (Hst' & _).
      rewrite Hst', Hen. reflexivity.
    + cbn [nth_error] in Hi. exact (IH b i si sj Hc Hi Hj).
Qed.

(** ** Shares for a zero duration *)

Lemma portion_zero D T w :
  Num.is_zero D = true -> 0 < w < 2 ^ 53 -> 0 < T < 2 ^ 53 ->
  Num.is_zero (portion D T w) = true.
Proof.
  intros HD Hw HT. unfold portion, Num.mul, Num.div, Num.of_Z.
  destruct (NumFacts.of_Z_pos w Hw) as (mw & ew & -> & _ & Hmw).
  destruct (NumFacts.of_Z_pos T HT) as (mT & eT & -> & _ & HmT).
  destruct (NumFacts.div_finite_pos mw ew mT eT) as [[_ Hn] Hinf].
  destruct D as [s|s| |s mD eD]; try discriminate HD.
  destruct (SFdiv Num.prec Num.emax (S754_finite false mw ew) (S754_finite false mT eT))
    as [sq|[|]| |sq mq eq]; try discriminate Hn; try reflexivity.
  specialize (Hinf eq_refl). lia.
Qed.

Lemma accumulate_zero ds :
  Forall (fun x => Num.is_zero x = true) ds ->
  accumulate Num.zero ds = List.map (fun _ => (Some Num.zero, Some Num.zero)) ds.
Proof.
  induction 1 as [|d ds Hd _ IH]; [reflexivity|].
  cbn [accumulate List.map].
  assert (E : Num.add Num.zero d = Num.zero) by (destruct d as [[|]| | |]; try discriminate Hd; reflexivity).
  rewrite E, IH. reflexivity.
Qed.

Lemma of_Z_not_zero z : 0 < z -> Num.is_zero (Num.of_Z z) = false.
Proof.
  intros Hz. destruct z as [|p|p]; try lia. unfold Num.of_Z. cbn [binary_normalize].
  pose proof (NumFacts.binary_round_spec false p 0) as H. cbv zeta in H.
  destruct (binary_round Num.prec Num.emax false p 0) as [s| | |]; try reflexivity.
  exfalso. destruct H as [_ Hq].
  set (E := fexp Num.prec Num.emax (Zpos (digits2_pos p) + 0)) in *.
  assert (HE : E = Z.max (Zpos (digits2_pos p) - 53) (-1074)).
  { unfold E. rewrite NumFacts.fexp_eq. lia. }
  destruct (Z_le_gt_dec E 0) as [Hle|Hgt].
  - replace (Z.min 0 E) with E in Hq by lia. rewrite Z.sub_diag in Hq.
    change (2 ^ 0) with 1 in Hq. rewrite Z.div_1_r in Hq.
    assert (0 < 2 ^ (0 - E)) by (apply Z.pow_pos_nonneg; lia). nia.
  - replace (Z.min 0 E) with 0 in Hq by lia.
    rewrite !Z.sub_0_r in Hq. change (2 ^ 0) with 1 in Hq. rewrite Z.mul_1_r in Hq.
    destruct (NumFacts.Zdigits2_shr (Zpos p) E ltac:(lia)) as [_ Hp]; [cbn [Zdigits2]; lia|lia].
Qed.

(** ** The accumulated error of the allocator *)

Section Accumulation.

Variables (mD : positive) (eD : Z) (T : Z).

Let D : number := S754_finite false mD eD.

Hypothesis D_bounded : bounded Num.prec Num.emax mD eD = true.
Hypothesis T_range : 0 < T < 2 ^ 53.

Hypothesis D_le : (Num.toQ D <= Dmax)%Q.

Lemma eps_value : (Num.eps == 1 # 4503599627370496)%Q.
Proof. reflexivity. Qed.

Lemma eta_small : (Num.eta <= 1 # 1000000000000000000000000000000)%Q.
Proof.
  unfold Num.eta. change (-1074) with (-100 + -974). rewrite bpow_add.
  assert (H1 : (Num.bpow (-100) <= 1 # 1000000000000000000000000000000)%Q) by (vm_compute; discriminate).
  assert (H2 : (Num.bpow (-974) <= 1)%Q).
  { pose proof (bpow_ge_1 974 ltac:(lia)). pose proof (bpow_pos (-974)).
    assert (E : (Num.bpow (-974) * Num.bpow 974 == 1)%Q) by (rewrite <- bpow_add; reflexivity).
    nra. }
  pose proof (bpow_pos (-100)). pose proof (bpow_pos (-974)). nra.
Qed.

Lemma D_pos : (0 < Num.toQ D)%Q.
Proof.
  pose proof (toQ_bounds mD eD) as [B _].
  pose proof (bpow_pos (Zpos (digits2_pos mD) - 1 + eD)). unfold D. lra.
Qed.

Lemma D_mag : Zpos (digits2_pos mD) + eD <= 17.
Proof.
  apply mag_le. fold D. apply Qle_lt_trans with Dmax; [exact D_le|].
  vm_compute. reflexivity.
Qed.

Lemma exactTime_range A : 0 <= A <= T -> (0 <= exactTime T D A <= Num.toQ D)%Q.
Proof.
  intros [H0 H1]. unfold exactTime. pose proof D_pos.
  assert (PT : (0 < inject_Z T)%Q) by (change 0%Q with (inject_Z 0); rewrite <- Zlt_Qlt; lia).
  assert (R0 : (0 <= inject_Z A / inject_Z T)%Q).
  { apply Qle_shift_div_l; [exact PT|]. rewrite Qmult_0_l.
    change 0%Q with (inject_Z 0). rewrite <- Zle_Qle. exact H0. }
  assert (R1 : (inject_Z A / inject_Z T <= 1)%Q).
  { apply Qle_shift_div_r; [exact PT|]. rewrite Qmult_1_l. rewrite <- Zle_Qle. exact H1. }
  split; nra.
Qed.

Lemma exactTime_add A w :
  (exactTime T D (A + w) == exactTime T D A + exactTime T D w)%Q.
Proof.
  unfold exactTime. rewrite inject_Z_plus.
  assert (PT : (0 < inject_Z T)%Q) by (change 0%Q with (inject_Z 0); rewrite <- Zlt_Qlt; lia).
  field. lra.
Qed.

(** One share against its exact value. *)
Lemma portion_value w :
  0 < w <= T ->
  let d := portion D T w in
  let x := exactTime T D w in
  Num.good d /\ Num.is_finite d = true /\
  (x - (3 * Num.eps * x + eta1) <= Num.toQ d <= x + (3 * Num.eps * x + eta1))%Q.
Proof.
  intros Hw. cbv zeta. unfold portion.
  destruct (of_Z_exact w ltac:(lia)) as (mw & ew & Ew & Bw & Vw).
  destruct (of_Z_exact T T_range) as (mT & eT & ET & BT & VT).
  rewrite Ew, ET in *.
  (* magnitudes of the operands *)
  assert (Mw : Zpos (digits2_pos mw) + ew <= 53).
  { apply mag_le. rewrite Vw. rewrite bpow_Z by lia. rewrite <- Zlt_Qlt. lia. }
  assert (MT : 1 <= Zpos (digits2_pos mT) + eT).
  { pose proof (toQ_bounds mT eT) as [_ B]. rewrite VT in B.
    assert (L : (Num.bpow 0 < Num.bpow (Zpos (digits2_pos mT) + eT))%Q).
    { apply Qle_lt_trans with (inject_Z T); [|exact B].
      change (Num.bpow 0) with (inject_Z 1). rewrite <- Zle_Qle. lia. }
    apply bpow_lt_inv in L. lia. }
  pose proof (div_value mw ew mT eT ltac:(lia)) as (Ga & Fa & Ha). cbv zeta in Ha.
  rewrite Vw, VT in Ha.
  set (a := Num.div (S754_finite false mw ew) (S754_finite false mT eT)) in *.
  set (r := (inject_Z w / inject_Z T)%Q) in *.
  assert (PT : (0 < inject_Z T)%Q) by (change 0%Q with (inject_Z 0); rewrite <- Zlt_Qlt; lia).
  assert (R0 : (0 < r)%Q).
  { unfold r. apply Qlt_shift_div_l; [exact PT|]. rewrite Qmult_0_l.
    change 0%Q with (inject_Z 0). rewrite <- Zlt_Qlt. lia. }
  assert (R1 : (r <= 1)%Q).
  { unfold r. apply Qle_shift_div_r; [exact PT|]. rewrite Qmult_1_l. rewrite <- Zle_Qle. lia. }
  pose proof eps_pos as Hu. pose proof eta_pos as Heta. pose proof eta_small as Hes.
  pose proof eps_value as Uv.
  assert (A2 : (Num.toQ a < Num.bpow 1)%Q).
  { change (Num.bpow 1) with 2%Q.
    assert (Ur : (Num.eps * r <= 1 # 4)%Q) by (rewrite Uv; clear - R0 R1; lra).
    clear - Ha Ur R1 Hes. lra. }
  assert (Ma : Num.mag a + (Zpos (digits2_pos mD) + eD) <= 1000).
  { pose proof D_mag. destruct a as [s|s| |[|] ma ea]; cbn [Num.mag]; try lia.
    - destruct Ga as [_ Na]. discriminate Na.
    - pose proof (mag_le ma ea 1 A2). lia. }
  pose proof (mul_value a mD eD Ga Fa D_bounded Ma) as (Gd & Fd & Hd). cbv zeta in Hd.
  fold D in Hd |- *.
  split; [exact Gd|]. split; [exact Fd|].
  pose proof D_pos as HD. pose proof D_le as HDle.
  pose proof (toQ_nonneg a (proj2 Ga)) as Ha0.
  unfold exactTime. fold r. unfold eta1.
  assert (Dm : (Dmax == 86400)%Q) by reflexivity.
  set (va := Num.toQ a) in *. set (vD := Num.toQ D) in *. set (vd := Num.toQ (Num.mul a D)) in *.
  assert (U1 : (Num.eps <= 1)%Q) by (rewrite Uv; discriminate).
  assert (P1 : (va * vD <= (r + (Num.eps * r + Num.eta)) * vD)%Q) by (clear - Ha HD; nra).
  assert (P2 : ((r - (Num.eps * r + Num.eta)) * vD <= va * vD)%Q) by (clear - Ha HD; nra).
  assert (P3 : (Num.eps * (va * vD) <= Num.eps * ((r + (Num.eps * r + Num.eta)) * vD))%Q) by (clear - P1 Hu; nra).
  assert (P7 : (0 <= r * vD)%Q) by (clear - R0 HD; nra).
  assert (P8 : (0 <= Num.eps * (r * vD))%Q) by (clear - P7 Hu; nra).
  assert (P4 : (Num.eps * (Num.eps * (r * vD)) <= Num.eps * (r * vD))%Q) by (clear - P8 Hu U1; nra).
  assert (P5 : (Num.eta * vD <= Num.eta * Dmax)%Q) by (clear - Heta HDle; nra).
  assert (P9 : (0 <= Num.eta * vD)%Q) by (clear - Heta HD; nra).
  assert (P6 : (Num.eps * (Num.eta * vD) <= Num.eta * vD)%Q) by (clear - P9 Hu U1; nra).
  assert (P10 : (0 <= va * vD)%Q) by (clear - Ha0 HD; nra).
  assert (P11 : (0 <= Num.eps * (va * vD))%Q) by (clear - P10 Hu; nra).
  clear - Hd P1 P2 P3 P4 P5 P6 P7 P8 P9 P10 P11 Heta.
  split; lra.
Qed.


(** The accumulated time after [k] shares, against its exact value. *)
Lemma fold_value ws : forall acc A k,
  Forall (fun w => 0 < w) ws ->
  0 <= A -> A + fold_right Z.add 0 ws <= T ->
  0 <= k -> k + Z.of_nat (List.length ws) <= Nmax ->
  Num.good acc -> Num.is_finite acc = true ->
  (exactTime T D A - (3 * Num.eps * exactTime T D A + inject_Z k * delta) <= Num.toQ acc
   <= exactTime T D A + (3 * Num.eps * exactTime T D A + inject_Z k * delta))%Q ->
  let r := fold_left Num.add (List.map (portion D T) ws) acc in
  let X := exactTime T D (A + fold_right Z.add 0 ws) in
  let n := k + Z.of_nat (List.length ws) in
  Num.good r /\ Num.is_finite r = true /\
  (X - (3 * Num.eps * X + inject_Z n * delta) <= Num.toQ r
   <= X + (3 * Num.eps * X + inject_Z n * delta))%Q.
Proof.
  induction ws as [|w ws IH]; intros acc A k Hws HA HT Hk HN Gacc Facc Hacc.
  - cbn [List.map fold_left fold_right List.length Z.of_nat].
    rewrite !Z.add_0_r. split; [exact Gacc|]. split; [exact Facc|]. exact Hacc.
  - cbn [List.map fold_left fold_right List.length] in *.
    inversion Hws as [|? ? Hw Hws']; subst.
    assert (Hsum : 0 <= fold_right Z.add 0 ws).
    { clear - Hws'. induction Hws' as [|x l Hx _ IHl]; cbn [fold_right]; lia. }
    rewrite Nat2Z.inj_succ in HN |- *.
    destruct (portion_value w ltac:(lia)) as (Gd & Fd & Hd). cbv zeta in Hd.
    pose proof (exactTime_range A ltac:(lia)) as [XA0 XA1].
    pose proof (exactTime_range w ltac:(lia)) as [Xw0 Xw1].
    pose proof (exactTime_range (A + w) ltac:(lia)) as [XAw0 XAw1].
    pose proof (exactTime_add A w) as Xadd.
    pose proof eps_pos as Hu. pose proof eta_pos as Heta. pose proof eta_small as Hes.
    pose proof eps_value as Uv. pose proof D_le as HDle.
    assert (Dm : (Dmax == 86400)%Q) by reflexivity.
    assert (Kq : (0 <= inject_Z k <= 10000)%Q).
    { split; [change 0%Q with (inject_Z 0)|change 10000%Q with (inject_Z 10000)];
        rewrite <- Zle_Qle; unfold Nmax in HN; lia. }
    assert (Hdelta : (0 <= delta <= 1 # 10000000000)%Q).
    { unfold delta, eta1. rewrite Uv, Dm. clear - Heta Hes. split; lra. }
    assert (He1 : (0 <= eta1 <= delta)%Q).
    { unfold delta, eta1. rewrite Uv, Dm. clear - Heta. split; lra. }
    set (xa := exactTime T D A) in *. set (xw := exactTime T D w) in *.
    set (va := Num.toQ acc) in *. set (vd := Num.toQ (portion D T w)) in *.
    assert (Kd : (0 <= inject_Z k * delta <= 1 # 1000000)%Q) by (clear - Kq Hdelta; nra).
    assert (Uxa : (0 <= Num.eps * xa <= 1 # 1000000)%Q).
    { rewrite Uv. clear - XA0 XA1 HDle Dm. lra. }
    assert (Uxw : (0 <= Num.eps * xw <= 1 # 1000000)%Q).
    { rewrite Uv. clear - Xw0 Xw1 HDle Dm. lra. }
    (* the operands of the sum stay below twice the longest duration *)
    assert (Ba : (va < Num.bpow 18)%Q).
    { change (Num.bpow 18) with 262144%Q. clear - Hacc Kd Uxa XA1 HDle Dm. lra. }
    assert (Bd : (vd < Num.bpow 18)%Q).
    { change (Num.bpow 18) with 262144%Q. clear - Hd He1 Hdelta Uxw Xw1 HDle Dm. lra. }
    assert (Ma : Num.mag acc <= 999).
    { destruct Gacc as [_ Na]. destruct acc as [s|s| |[|] ma ea]; cbn [Num.mag]; try lia.
      - discriminate Na.
      - pose proof (mag_le ma ea 18 Ba). lia. }
    assert (Md : Num.mag (portion D T w) <= 999).
    { destruct Gd as [_ Nd]. fold vd in Bd.
      destruct (portion D T w) as [s|s| |[|] md ed]; cbn [Num.mag]; try lia.
      - discriminate Nd.
      - pose proof (mag_le md ed 18 Bd). lia. }
    pose proof (add_value acc (portion D T w) Gacc Facc Gd Fd Ma Md) as (Gr & Fr & Hr).
    cbv zeta in Hr. fold va vd in Hr.
    set (vr := Num.toQ (Num.add acc (portion D T w))) in *.
    assert (Hstep : (exactTime T D (A + w)
                       - (3 * Num.eps * exactTime T D (A + w) + inject_Z (k + 1) * delta) <= vr
                     <= exactTime T D (A + w)
                       + (3 * Num.eps * exactTime T D (A + w) + inject_Z (k + 1) * delta))%Q).
    { rewrite Xadd, inject_Z_plus. change (inject_Z 1) with 1%Q.
      fold xa xw.
      assert (Dd : (delta == 2 * Num.eps * Dmax + Num.eta + eta1)%Q) by reflexivity.
      assert (X1 : (xa + xw <= Dmax)%Q).
      { rewrite Xadd in XAw1. fold xa xw in XAw1. clear - XAw1 HDle. lra. }
      assert (S1 : (va + vd <= 2 * Dmax)%Q).
      { clear - Hacc Hd Kd He1 Hdelta Uxa Uxw X1 Dm. lra. }
      assert (S0 : (0 <= va + vd)%Q).
      { pose proof (toQ_nonneg acc (proj2 Gacc)) as N1.
        pose proof (toQ_nonneg _ (proj2 Gd)) as N2.
        fold va in N1. fold vd in N2. clear - N1 N2. lra. }
      assert (S2 : (0 <= Num.eps * (va + vd) <= 2 * Num.eps * Dmax)%Q) by (clear - S0 S1 Hu; nra).
      clear - Hacc Hd Hr S2 Dd. split; lra. }
    specialize (IH (Num.add acc (portion D T w)) (A + w) (k + 1) Hws'
                   ltac:(lia) ltac:(lia) ltac:(lia) ltac:(lia) Gr Fr Hstep).
    cbv zeta in IH.
    replace (A + w + fold_right Z.add 0 ws) with (A + (w + fold_right Z.add 0 ws)) in IH by lia.
    replace (k + 1 + Z.of_nat (List.length ws)) with (k + Z.succ (Z.of_nat (List.length ws))) in IH by lia.
    exact IH.
Qed.

(** The last accumulated time is within [1e-6] of the duration. *)
Lemma fold_within ws :
  Forall (fun w => 0 < w) ws ->
  fold_right Z.add 0 ws = T ->
  Z.of_nat (List.length ws) <= Nmax ->
  let r := fold_left Num.add (List.map (portion D T) ws) Num.zero in
  Num.is_finite r = true /\
  (Qabs (Num.toQ r - Num.toQ D) <= 1 # 1000000)%Q.
Proof.
  intros Hws Hsum Hn.
  assert (H0 : (exactTime T D 0 - (3 * Num.eps * exactTime T D 0 + inject_Z 0 * delta) <= Num.toQ Num.zero
                <= exactTime T D 0 + (3 * Num.eps * exactTime T D 0 + inject_Z 0 * delta))%Q).
  { assert (X0 : (exactTime T D 0 == 0)%Q).
    { unfold exactTime. change (inject_Z 0) with 0%Q.
      assert (PT : (0 < inject_Z T)%Q)
        by (change 0%Q with (inject_Z 0); rewrite <- Zlt_Qlt; lia).
      field. lra. }
    rewrite X0. change (Num.toQ Num.zero) with 0%Q. change (inject_Z 0) with 0%Q.
    split; lra. }
  pose proof (fold_value ws Num.zero 0 0 Hws ltac:(lia) ltac:(lia) ltac:(lia) ltac:(lia)
                (conj eq_refl eq_refl) eq_refl H0) as (_ & Fr & Hr).
  cbv zeta in Hr. rewrite !Z.add_0_l, Hsum in Hr.
  split; [exact Fr|].
  assert (XT : (exactTime T D T == Num.toQ D)%Q).
  { unfold exactTime.
    assert (PT : (0 < inject_Z T)%Q) by (change 0%Q with (inject_Z 0); rewrite <- Zlt_Qlt; lia).
    field. lra. }
  rewrite XT in Hr.
  pose proof eps_value as Uv. pose proof D_le as HDle. pose proof D_pos as HD.
  pose proof eta_pos as Heta. pose proof eta_small as Hes.
  assert (Dm : (Dmax == 86400)%Q) by reflexivity.
  assert (Nq : (0 <= inject_Z (Z.of_nat (List.length ws)) <= 10000)%Q).
  { split; [change 0%Q with (inject_Z 0)|change 10000%Q with (inject_Z 10000)];
      rewrite <- Zle_Qle; unfold Nmax in Hn; lia. }
  assert (Hdelta : (0 <= delta <= 1 # 20000000000)%Q).
  { unfold delta, eta1. rewrite Uv, Dm. clear - Heta Hes. split; lra. }
  assert (Nd : (0 <= inject_Z (Z.of_nat (List.length ws)) * delta <= 1 # 2000000)%Q)
    by (clear - Nq Hdelta; nra).
  assert (UD : (0 <= Num.eps * Num.toQ D <= 1 # 10000000)%Q).
  { rewrite Uv. clear - HD HDle Dm. lra. }
  apply Qabs_Qle_condition. clear - Hr Nd UD. split; lra.
Qed.

End Accumulation.

Lemma accumulate_last ds : forall acc out,
  ds <> [] ->
  List.map window out = accumulate acc ds ->
  lastEndTime out = fold_left Num.add ds acc.
Proof.
  induction ds as [|d ds IH]; intros acc out Hne Hw; [congruence|].
  destruct out as [|s out]; [discriminate Hw|].
  cbn [List.map accumulate] in Hw. unfold window at 1 in Hw.
  injection Hw as Hst Hen Hrest.
  destruct ds as [|d' ds'].
  - destruct out as [|s' out']; [|discriminate Hrest].
    cbn [lastEndTime fold_left]. unfold endOf. rewrite Hen. reflexivity.
  - destruct out as [|s' out']; [discriminate Hrest|].
    change (lastEndTime (s :: s' :: out')) with (lastEndTime (s' :: out')).
    cbn [fold_left]. apply IH; [discriminate|exact Hrest].
Qed.

Lemma totalWeight_fold_right segs :
  totalWeight segs = fold_right Z.add 0 (weights segs).
Proof.
  induction segs as [|s segs IH]; [reflexivity|].
  rewrite totalWeight_cons, IH. reflexivity.
Qed.

(** For a duration of at most a day and at most ten thousand segments the
    last [endTime] is finite and within [1e-6] of the duration. *)
Lemma lastEndTime_within D segs :
  Num.positive_finite D = true ->
  totalWeight segs < 2 ^ 53 ->
  segs <> [] ->
  (Num.toQ D <= Dmax)%Q ->
  Z.of_nat (List.length segs) <= Nmax ->
  Num.is_finite (lastEndTime (calculateTimestamps D segs)) = true /\
  (Qabs (Num.toQ (lastEndTime (calculateTimestamps D segs)) - Num.toQ D)
   <= 1 # 1000000)%Q.
Proof.
  intros HD HT Hne HDmax Hn.
  destruct D as [s|s| |[|] mD eD]; try discriminate HD. cbn [Num.positive_finite] in HD.
  assert (Hpos : 0 < totalWeight segs).
  { destruct segs as [|s0 rest]; [congruence|].
    rewrite totalWeight_cons. pose proof (weight_ge_2 s0).
    pose proof (totalWeight_lower rest). lia. }
  assert (Hsh : shares (S754_finite false mD eD) segs =
                List.map (portion (S754_finite false mD eD) (totalWeight segs)) (weights segs)).
  { unfold shares, weights. rewrite List.map_map. reflexivity. }
  rewrite (accumulate_last (shares (S754_finite false mD eD) segs) Num.zero).
  - rewrite Hsh. apply (fold_within mD eD (totalWeight segs) HD (conj Hpos HT) HDmax).
    + unfold weights. apply Forall_forall. intros w Hw.
      apply in_map_iff in Hw as (s & <- & _). pose proof (weight_ge_2 s). lia.
    + symmetry. apply totalWeight_fold_right.
    + unfold weights. rewrite List.length_map. exact Hn.
  - unfold shares. destruct segs; [congruence|discriminate].
  - apply calculateTimestamps_windows.
Qed.

(** * The claims about the allocator *)

(** C2, amended.  A word weighs its length plus 2.  A punctuation segment
    weighs 12 if its text contains [.], [!] or [?]; otherwise 6 if it
    contains [,], [;] or [:]; otherwise 2 (so a segment that is exactly one
    of these marks gets the weight the specification names).  The share of a
    segment is [(weight / totalWeight) * duration], the windows start at 0
    and each begins where the previous one ends.  For ["Der", "Hund", "."]
    and 23 seconds the windows are [0,5], [5,11] and [11,23]. *)
Theorem C2_weights_shares_windows (duration : number) (segs : list TextSegment) :
  (forall t tr a b,
     weight (mkTextSegment t tr true a b) = Z.of_nat (List.length t) + 2) /\
  (forall t tr a b,
     weight (mkTextSegment t tr false a b) =
       if includes t "." || includes t "!" || includes t "?" then 12
       else if includes t "," || includes t ";" || includes t ":" then 6
       else 2) /\
  (forall c tr a b,
     weight (mkTextSegment [c] tr false a b) =
     weight_as_specified (mkTextSegment [c] tr false a b)) /\
  shares duration segs =
    List.map (fun s => Num.mul (Num.div (Num.of_Z (weight s))
                                        (Num.of_Z (totalWeight segs))) duration) segs /\
  List.map window (calculateTimestamps duration segs) =
    accumulate Num.zero (shares duration segs) /\
  List.map weight der_hund = [5; 6; 12] /\
  List.map window (calculateTimestamps (Num.of_Z 23) der_hund) =
    [(Some (Num.of_Z 0), Some (Num.of_Z 5));
     (Some (Num.of_Z 5), Some (Num.of_Z 11));
     (Some (Num.of_Z 11), Some (Num.of_Z 23))].
Proof.
  split; [|split; [|split; [|split; [|split; [|split]]]]].
  - reflexivity.
  - reflexivity.
  - intros c tr a b. unfold weight, weight_as_specified, includes, is_char.
    cbn [isWord text negb existsb]. rewrite !orb_false_r, !(N.eqb_sym c). reflexivity.
  - reflexivity.
  - apply calculateTimestamps_windows.
  - reflexivity.
  - vm_compute. reflexivity.
Qed.

(** C2 as stated fails: the non-word segment ["2,5"] is not one of the marks
    [,], [;], [:], yet it weighs 6 and not 2. *)
Lemma C2_counterexample :
  isWord (punct "2,5") = false /\
  weight_as_specified (punct "2,5") = 2 /\
  weight (punct "2,5") = 6 /\
  weight (punct "2,5") <> weight_as_specified (punct "2,5").
Proof. repeat split; try reflexivity. discriminate. Qed.

(** C3, amended.  For a finite duration above zero (and a total weight below
    [2^53]) the first window starts at 0, every window ends no earlier than
    it starts, every window starts exactly where the previous one ends, and
    so start times never decrease and a window never reaches into a later
    one.  The last [endTime] is within [1e-6] of the duration when the
    duration is at most a day (86400 seconds) and there are at most ten
    thousand segments. *)
Theorem C3_windows_ordered (D : number) (segs : list TextSegment) :
  Num.positive_finite D = true ->
  totalWeight segs < 2 ^ 53 ->
  let out := calculateTimestamps D segs in
  contiguous Num.zero out /\
  (forall i si, nth_error out i = Some si ->
     Num.leb (startOf si) (endOf si) = true) /\
  (forall i j si sj, (i < j)%nat ->
     nth_error out i = Some si -> nth_error out j = Some sj ->
     Num.leb (startOf si) (startOf sj) = true /\
     Num.leb (endOf si) (startOf sj) = true) /\
  (forall i si sj,
     nth_error out i = Some si -> nth_error out (S i) = Some sj ->
     startTime sj = endTime si) /\
  (segs <> [] -> (Num.toQ D <= Dmax)%Q -> Z.of_nat (List.length segs) <= Nmax ->
     Num.is_finite (lastEndTime out) = true /\
     (Qabs (Num.toQ (lastEndTime out) - Num.toQ D) <= 1 # 1000000)%Q).
Proof.
  intros HD HT out.
  assert (Hc : contiguous Num.zero out).
  { apply (accumulate_contiguous (shares D segs)).
    - split; reflexivity.
    - apply shares_good; assumption.
    - apply calculateTimestamps_windows. }
  split; [exact Hc|]. split; [|split; [|split]].
  - intros i si Hi. exact (proj2 (contiguous_head_le _ _ i si Hc eq_refl Hi)).
  - intros i j si sj Hij Hi Hj.
    destruct (contiguous_pairs _ _ i j si sj Hc Hij Hi Hj) as [H1 H2]. split; assumption.
  - intros i si sj Hi Hj. exact (contiguous_next _ _ i si sj Hc Hi Hj).
  - intros Hne HDmax Hn. apply lastEndTime_within; assumption.
Qed.

Lemma C3_witness :
  Num.positive_finite (Num.of_Z 23) = true /\
  totalWeight der_hund < 2 ^ 53 /\
  der_hund <> [] /\
  (Num.toQ (Num.of_Z 23) <= Dmax)%Q /\
  Z.of_nat (List.length der_hund) <= Nmax /\
  contiguous Num.zero (calculateTimestamps (Num.of_Z 23) der_hund) /\
  (Qabs (Num.toQ (lastEndTime (calculateTimestamps (Num.of_Z 23) der_hund))
         - Num.toQ (Num.of_Z 23)) <= 1 # 1000000)%Q.
Proof.
  assert (H1 : Num.positive_finite (Num.of_Z 23) = true) by reflexivity.
  assert (H2 : totalWeight der_hund < 2 ^ 53) by reflexivity.
  assert (H3 : der_hund <> []) by discriminate.
  assert (H4 : (Num.toQ (Num.of_Z 23) <= Dmax)%Q) by (vm_compute; discriminate).
  assert (H5 : Z.of_nat (List.length der_hund) <= Nmax) by (vm_compute; discriminate).
  split; [exact H1|]. split; [exact H2|]. split; [exact H3|].
  split; [exact H4|]. split; [exact H5|].
  pose proof (C3_windows_ordered (Num.of_Z 23) der_hund H1 H2) as (Hc & _ & _ & _ & Hl).
  split; [exact Hc|]. exact (proj2 (Hl H3 H4 H5)).
Defined.

(** C3 as stated fails: for ["O", "!", "O"] and a duration of [1e10] seconds
    the last [endTime] is [9999999999.999998], which is [2^-19], more than
    [1e-6], away from the duration. *)
Lemma C3_counterexample :
  Num.positive_finite Num.lit_1e10 = true /\
  Num.ltb Num.zero Num.lit_1e10 = true /\
  oh_oh <> [] /\
  lastEndTime (calculateTimestamps Num.lit_1e10 oh_oh) =
    S754_finite false 5242879999999999 (-19) /\
  (Num.toQ Num.lit_1e10
     - Num.toQ (lastEndTime (calculateTimestamps Num.lit_1e10 oh_oh)) == 1 # 524288)%Q /\
  ~ (Qabs (Num.toQ (lastEndTime (calculateTimestamps Num.lit_1e10 oh_oh))
           - Num.toQ Num.lit_1e10) <= 1 # 1000000)%Q /\
  Num.within Num.micro (lastEndTime (calculateTimestamps Num.lit_1e10 oh_oh))
             Num.lit_1e10 = false.
Proof.
  assert (E : lastEndTime (calculateTimestamps Num.lit_1e10 oh_oh) =
              S754_finite false 5242879999999999 (-19)) by (vm_compute; reflexivity).
  split; [reflexivity|]. split; [reflexivity|]. split; [discriminate|].
  split; [exact E|]. rewrite E. split; [vm_compute; reflexivity|].
  split; [|vm_compute; reflexivity].
  intros H. vm_compute in H. apply H. reflexivity.
Qed.

(** C7, amended.  An empty list comes back empty for every duration.  For a
    duration that is zero (and a total weight below [2^53]) every share is
    zero and every [startTime] and [endTime] is 0.  The allocator is a total
    function: no input makes it fail. *)
Theorem C7_empty_list_and_zero_duration (d : number) (segs : list TextSegment) :
  Num.is_zero d = true ->
  totalWeight segs < 2 ^ 53 ->
  (forall d', calculateTimestamps d' [] = []) /\
  Forall (fun x => Num.is_zero x = true) (shares d segs) /\
  List.map window (calculateTimestamps d segs) =
    List.map (fun _ => (Some Num.zero, Some Num.zero)) segs.
Proof.
  intros Hd HT. split; [reflexivity|].
  assert (Hs : Forall (fun x => Num.is_zero x = true) (shares d segs)).
  { unfold shares. apply Forall_forall. intros x Hx.
    apply in_map_iff in Hx as (s & <- & Hin).
    pose proof (weight_ge_2 s). pose proof (weight_le_total segs s Hin).
    apply portion_zero; [exact Hd|lia|lia]. }
  split; [exact Hs|].
  rewrite calculateTimestamps_windows, (accumulate_zero _ Hs).
  unfold shares. rewrite List.map_map. reflexivity.
Qed.

Lemma C7_witness :
  Num.is_zero Num.zero = true /\
  totalWeight der_hund < 2 ^ 53 /\
  List.map window (calculateTimestamps Num.zero der_hund) =
    List.map (fun _ => (Some Num.zero, Some Num.zero)) der_hund.
Proof.
  assert (H1 : Num.is_zero Num.zero = true) by reflexivity.
  assert (H2 : totalWeight der_hund < 2 ^ 53) by reflexivity.
  split; [exact H1|]. split; [exact H2|].
  exact (proj2 (proj2 (C7_empty_list_and_zero_duration Num.zero der_hund H1 H2))).
Defined.

(** C7 as stated fails for a duration below zero: for ["Der", "Hund", "."]
    and -23 seconds the shares are -5, -6 and -12 and the times run from 0
    down to -23. *)
Lemma C7_counterexample :
  Num.leb (Num.of_Z (-23)) Num.zero = true /\
  der_hund <> [] /\
  shares (Num.of_Z (-23)) der_hund = [Num.of_Z (-5); Num.of_Z (-6); Num.of_Z (-12)] /\
  List.map window (calculateTimestamps (Num.of_Z (-23)) der_hund) =
    [(Some (Num.of_Z 0), Some (Num.of_Z (-5)));
     (Some (Num.of_Z (-5)), Some (Num.of_Z (-11)));
     (Some (Num.of_Z (-11)), Some (Num.of_Z (-23)))] /\
  ~ Forall (fun x => Num.is_zero x = true) (shares (Num.of_Z (-23)) der_hund).
Proof.
  assert (E : shares (Num.of_Z (-23)) der_hund =
              [Num.of_Z (-5); Num.of_Z (-6); Num.of_Z (-12)]) by (vm_compute; reflexivity).
  split; [reflexivity|]. split; [discriminate|].
  split; [exact E|]. split; [vm_compute; reflexivity|].
  rewrite E. intros H. apply Forall_inv in H. vm_compute in H. discriminate H.
Qed.

Lemma windows_stamped out : forall acc ds,
  List.map window out = accumulate acc ds ->
  Forall (fun s => startTime s <> None /\ endTime s <> None) out.
Proof.
  induction out as [|s out IH]; intros acc ds Hwin; [constructor|].
  destruct ds as [|d ds]; [discriminate Hwin|].
  cbn [List.map accumulate] in Hwin. unfold window at 1 in Hwin.
  injection Hwin as Hst Hen Hrest. constructor.
  - rewrite Hst, Hen. split; discriminate.
  - exact (IH _ _ Hrest).
Qed.

(** C9.  The allocator returns as many segments as it was given; at every
    position [text], [isWord] and [translation] are those of the input, and
    [startTime] and [endTime] are set. *)
Theorem C9_frame (duration : number) (segs : list TextSegment) :
  List.length (calculateTimestamps duration segs) = List.length segs /\
  List.map text (calculateTimestamps duration segs) = List.map text segs /\
  List.map isWord (calculateTimestamps duration segs) = List.map isWord segs /\
  List.map translation (calculateTimestamps duration segs) =
    List.map translation segs /\
  Forall (fun s => startTime s <> None /\ endTime s <> None)
         (calculateTimestamps duration segs).
Proof.
  unfold calculateTimestamps, stampAll.
  destruct (stamp_frame duration (weights segs) (totalWeight segs) segs 0 Num.zero)
    as (Ht & Hw & Htr & _).
  split; [|split; [exact Ht|split; [exact Hw|split; [exact Htr|]]]].
  - rewrite <- (List.length_map text), Ht, List.length_map. reflexivity.
  - exact (windows_stamped _ _ _ (calculateTimestamps_windows duration segs)).
Qed.

(** C10.  Every weight is at least 2, so the total weight of a non-empty
    list is above zero; every division the allocator performs has a divisor
    above zero (as an integer and as a double), and on the empty list it
    performs none. *)
Theorem C10_divisor_positive (duration : number) (segs : list TextSegment) :
  (forall s, 2 <= weight s) /\
  (forall s rest, 0 < totalWeight (s :: rest)) /\
  2 * Z.of_nat (List.length segs) <= totalWeight segs /\
  Forall (fun T => 0 < T /\ Num.is_zero (Num.of_Z T) = false)
         (divisors duration segs) /\
  List.length (divisors duration segs) = List.length segs /\
  divisors duration [] = [] /\
  calculateTimestamps duration [] = [].
Proof.
  split; [exact weight_ge_2|]. split.
  { intros s rest. rewrite totalWeight_cons.
    pose proof (weight_ge_2 s). pose proof (totalWeight_lower rest). lia. }
  split; [apply totalWeight_lower|].
  unfold divisors, stampAll.
  destruct (stamp_frame duration (weights segs) (totalWeight segs) segs 0 Num.zero)
    as (_ & _ & _ & Hdv).
  rewrite Hdv. split; [|split; [apply List.length_map|split; reflexivity]].
  apply Forall_forall. intros T HT. apply in_map_iff in HT as (s & <- & Hin).
  assert (0 < totalWeight segs).
  { pose proof (weight_ge_2 s). pose proof (weight_le_total segs s Hin). lia. }
  split; [assumption|]. apply of_Z_not_zero. assumption.
Qed.

(** * The active-segment lookup *)

Lemma findIndex_Some {A : Type} (p : A -> bool) (l : list A) : forall i,
  findIndex p l = Some i ->
  exists x, nth_error l i = Some x /\ p x = true /\
            forall j y, (j < i)%nat -> nth_error l j = Some y -> p y = false.
Proof.
  induction l as [|x l IH]; intros i H; [discriminate H|].
  cbn [findIndex] in H. destruct (p x) eqn:Hx.
  - injection H as <-. exists x. repeat split; [assumption|]. intros j y Hj. lia.
  - destruct (findIndex p l) as [k|] eqn:Hk; [|discriminate H].
    injection H as <-. destruct (IH k eq_refl) as (y & Hn & Hy & Hfirst).
    exists y. repeat split; [assumption|assumption|].
    intros j z Hj Hz. destruct j as [|j].
    + injection Hz as <-. exact Hx.
    + apply (Hfirst j z); [lia|exact Hz].
Qed.

Lemma findIndex_None {A : Type} (p : A -> bool) (l : list A) :
  findIndex p l = None -> forall x, In x l -> p x = false.
Proof.
  induction l as [|y l IH]; intros H x Hin; [destruct Hin|].
  cbn [findIndex] in H. destruct (p y) eqn:Hy; [discriminate H|].
  destruct (findIndex p l); [discriminate H|].
  destruct Hin as [<-|Hin]; [exact Hy|exact (IH eq_refl x Hin)].
Qed.

Lemma findIndex_found {A : Type} (p : A -> bool) (l : list A) x :
  In x l -> p x = true -> exists i, findIndex p l = Some i.
Proof.
  intros Hin Hx. destruct (findIndex p l) as [i|] eqn:H; [exists i; reflexivity|].
  rewrite (findIndex_None p l H x Hin) in Hx. discriminate Hx.
Qed.

(** Chained windows that reach [D] leave no position between the first
    start and [D] uncovered. *)
Lemma chained_covers D p segs :
  chained D segs = true ->
  match segs with s :: _ => Num.leb (startOf s) p = true | [] => True end ->
  Num.leb p D = true ->
  exists s, In s segs /\ inWindow p s = true.
Proof.
  intros Hc Hs HD. destruct (leb_not_nan _ _ HD) as [Np _].
  induction segs as [|s rest IH]; [discriminate Hc|].
  cbn [chained] in Hc.
  destruct (startTime s) as [a|] eqn:Ha; [|discriminate Hc].
  destruct (endTime s) as [b|] eqn:Hb; [|discriminate Hc].
  assert (Hsa : Num.leb a p = true) by (unfold startOf in Hs; rewrite Ha in Hs; exact Hs).
  assert (Hw : inWindow p s = Num.leb p (endOrInfinity s)).
  { unfold inWindow. rewrite Ha. unfold Num.geb. fold (Num.leb a p). rewrite Hsa. reflexivity. }
  destruct (Num.leb p (endOrInfinity s)) eqn:Hin.
  { exists s. split; [left; reflexivity|exact Hw]. }
  (* [p] lies beyond this window *)
  assert (Hb' : Num.truthy b = true /\ Num.leb p b = false).
  { unfold endOrInfinity in Hin. rewrite Hb in Hin.
    destruct (Num.truthy b); [split; [reflexivity|exact Hin]|].
    rewrite leb_infinity in Hin by exact Np. discriminate Hin. }
  destruct Hb' as [_ Hpb].
  destruct rest as [|s' rest'].
  - (* the last window ends at [D] or later *)
    rewrite (leb_trans _ _ _ HD Hc) in Hpb. discriminate Hpb.
  - apply andb_true_iff in Hc as [Hnext Hrest].
    destruct (leb_not_nan _ _ Hnext) as [_ Nb].
    assert (Hbp : Num.leb b p = true) by (apply leb_total; assumption).
    destruct (IH Hrest (leb_trans _ _ _ Hnext Hbp)) as (x & Hx & Hwx).
    exists x. split; [right; exact Hx|exact Hwx].
Qed.

(** C4, amended.  On a stamped list whose windows are chained from 0 or
    earlier up to [D] or later, the lookup finds a segment for every
    position between 0 and [D]: the first one whose closed window holds the
    position.  For any list and position it returns none only if no window
    holds the position.  (A window is open-ended only when its [endTime] is
    missing, 0 or NaN; the final window is closed like the others.) *)
Theorem C4_lookup_finds_first_window (D p : number) (segs : list TextSegment) :
  covers D segs = true ->
  Num.leb Num.zero p = true ->
  Num.leb p D = true ->
  (exists i s,
     activeIndex p segs = Some i /\
     nth_error segs i = Some s /\
     inWindow p s = true /\
     forall j s', (j < i)%nat -> nth_error segs j = Some s' -> inWindow p s' = false) /\
  (forall q, activeIndex q segs = None ->
     forall s, In s segs -> inWindow q s = false).
Proof.
  intros Hc H0 HD. split.
  - unfold covers in Hc. destruct segs as [|s0 rest]; [discriminate Hc|].
    apply andb_true_iff in Hc as [Hfirst Hch].
    destruct (chained_covers D p (s0 :: rest) Hch (leb_trans _ _ _ Hfirst H0) HD)
      as (x & Hx & Hwx).
    destruct (findIndex_found (inWindow p) (s0 :: rest) x Hx Hwx) as [i Hi].
    destruct (findIndex_Some (inWindow p) (s0 :: rest) i Hi) as (s & Hn & Hs & Hmin).
    exists i, s. repeat split; assumption.
  - intros q Hq. exact (findIndex_None (inWindow q) segs Hq).
Qed.

Lemma C4_witness :
  covers (Num.of_Z 23) (calculateTimestamps (Num.of_Z 23) der_hund) = true /\
  Num.leb Num.zero (Num.of_Z 7) = true /\
  Num.leb (Num.of_Z 7) (Num.of_Z 23) = true /\
  (exists i s,
     activeIndex (Num.of_Z 7) (calculateTimestamps (Num.of_Z 23) der_hund) = Some i /\
     nth_error (calculateTimestamps (Num.of_Z 23) der_hund) i = Some s /\
     inWindow (Num.of_Z 7) s = true /\
     forall j s', (j < i)%nat ->
       nth_error (calculateTimestamps (Num.of_Z 23) der_hund) j = Some s' ->
       inWindow (Num.of_Z 7) s' = false) /\
  activeIndex (Num.of_Z 30) (calculateTimestamps (Num.of_Z 23) der_hund) = None /\
  (forall s, In s (calculateTimestamps (Num.of_Z 23) der_hund) ->
     inWindow (Num.of_Z 30) s = false).
Proof.
  assert (H1 : covers (Num.of_Z 23) (calculateTimestamps (Num.of_Z 23) der_hund) = true)
    by (vm_compute; reflexivity).
  assert (H2 : Num.leb Num.zero (Num.of_Z 7) = true) by reflexivity.
  assert (H3 : Num.leb (Num.of_Z 7) (Num.of_Z 23) = true) by reflexivity.
  assert (H4 : activeIndex (Num.of_Z 30) (calculateTimestamps (Num.of_Z 23) der_hund) = None)
    by (vm_compute; reflexivity).
  split; [exact H1|]. split; [exact H2|]. split; [exact H3|].
  destruct (C4_lookup_finds_first_window _ _ _ H1 H2 H3) as [Hfound Hnone].
  split; [exact Hfound|]. split; [exact H4|]. exact (Hnone _ H4).
Defined.

(** C4 as stated fails.  The allocator stamps ["Der", "und", "sie"] for a
    duration of 7 seconds with windows that start at 0, follow each other
    without a gap and end at [6.999999999999999], within [1e-6] of the
    duration.  For the position 7 the lookup of the code returns none,
    whereas a lookup whose final window is open-ended returns the last
    segment. *)
Lemma C4_counterexample :
  List.map window (calculateTimestamps (Num.of_Z 7) three_words) =
    [(Some Num.zero, Some (S754_finite false 5254199565265578 (-51)));
     (Some (S754_finite false 5254199565265578 (-51)),
      Some (S754_finite false 5254199565265578 (-50)));
     (Some (S754_finite false 5254199565265578 (-50)),
      Some (S754_finite false 7881299347898367 (-50)))] /\
  Num.within Num.micro
    (lastEndTime (calculateTimestamps (Num.of_Z 7) three_words)) (Num.of_Z 7) = true /\
  Num.leb Num.zero (Num.of_Z 7) = true /\
  Num.leb (Num.of_Z 7) (Num.of_Z 7) = true /\
  activeIndex (Num.of_Z 7) (calculateTimestamps (Num.of_Z 7) three_words) = None /\
  lookup_as_specified (Num.of_Z 7) (calculateTimestamps (Num.of_Z 7) three_words)
    = Some 2%nat.
Proof. repeat split; vm_compute; reflexivity. Qed.

(** * The speech cue *)

Lemma settle_length p ps : List.length (settle p ps) = List.length ps.
Proof.
  revert p. induction ps as [|x ps IH]; intros p; [destruct p; reflexivity|].
  destruct p as [|p]; [destruct x; reflexivity|].
  cbn [settle]. destruct x; cbn [List.length]; rewrite IH; reflexivity.
Qed.

(** Resolving turns a pending promise into a resolved one and leaves a
    settled one alone. *)
Lemma settle_same p ps :
  nth_error (settle p ps) p =
  match nth_error ps p with
  | Some Pending => Some Resolved
  | other => other
  end.
Proof.
  revert p. induction ps as [|x ps IH]; intros p; [destruct p; reflexivity|].
  destruct p as [|p]; [destruct x; reflexivity|].
  destruct x; cbn [settle nth_error]; apply IH.
Qed.

Lemma settle_other p q ps : p <> q -> nth_error (settle p ps) q = nth_error ps q.
Proof.
  revert p q. induction ps as [|x ps IH]; intros p q Hpq; [destruct p; reflexivity|].
  destruct p as [|p], q as [|q]; try congruence; try (destruct x; reflexivity).
  destruct x; cbn [settle nth_error]; apply IH; congruence.
Qed.

Lemma deliver_promises ev st :
  promises (deliver ev st) = promises st \/
  exists u, promises (deliver ev st) = settle (upromise u) (promises st).
Proof.
  unfold deliver. destruct (nth_error (utterances st) (snd ev)) as [u|]; [|left; reflexivity].
  right. exists u. destruct (fst ev); reflexivity.
Qed.

(** A resolved promise stays resolved. *)
Lemma deliver_resolved ev st p :
  promiseState st p = Some Resolved ->
  promiseState (deliver ev st) p = Some Resolved.
Proof.
  unfold promiseState. intros H.
  destruct (deliver_promises ev st) as [-> | [u ->]]; [exact H|].
  destruct (Nat.eq_dec (upromise u) p) as [->|Hne].
  - rewrite settle_same, H. reflexivity.
  - rewrite settle_other by exact Hne. exact H.
Qed.

(** No handler rejects: a pending promise stays pending or becomes
    resolved. *)
Lemma deliver_pending ev st p :
  promiseState st p = Some Pending ->
  promiseState (deliver ev st) p = Some Pending \/
  promiseState (deliver ev st) p = Some Resolved.
Proof.
  unfold promiseState. intros H.
  destruct (deliver_promises ev st) as [-> | [u ->]]; [left; exact H|].
  destruct (Nat.eq_dec (upromise u) p) as [->|Hne].
  - right. rewrite settle_same, H. reflexivity.
  - left. rewrite settle_other by exact Hne. exact H.
Qed.

Lemma deliverAll_resolved evs : forall st p,
  promiseState st p = Some Resolved ->
  promiseState (deliverAll evs st) p = Some Resolved.
Proof.
  induction evs as [|ev evs IH]; intros st p H; [exact H|].
  cbn [deliverAll fold_left]. apply IH. apply deliver_resolved. exact H.
Qed.

Lemma deliverAll_not_rejected evs : forall st p,
  promiseState st p = Some Pending ->
  promiseState (deliverAll evs st) p = Some Pending \/
  promiseState (deliverAll evs st) p = Some Resolved.
Proof.
  induction evs as [|ev evs IH]; intros st p H; [left; exact H|].
  cbn [deliverAll fold_left].
  destruct (deliver_pending ev st p H) as [E|E].
  - apply IH. exact E.
  - right. apply deliverAll_resolved. exact E.
Qed.

Lemma deliverAll_utterances evs : forall st,
  utterances (deliverAll evs st) = utterances st.
Proof.
  induction evs as [|ev evs IH]; intros st; [reflexivity|].
  cbn [deliverAll fold_left]. fold (deliverAll evs (deliver ev st)). rewrite IH.
  unfold deliver. destruct (nth_error (utterances st) (snd ev)); [|reflexivity].
  destruct (fst ev); reflexivity.
Qed.

Lemma deliverAll_app evs1 evs2 st :
  deliverAll (evs1 ++ evs2) st = deliverAll evs2 (deliverAll evs1 st).
Proof. apply fold_left_app. Qed.

Lemma speak_result text lang rate st :
  fst (speak text lang rate st) = List.length (promises st) /\
  promiseState (snd (speak text lang rate st)) (List.length (promises st)) = Some Pending /\
  nth_error (utterances (snd (speak text lang rate st))) (List.length (utterances st)) =
    Some (mkUtterance text lang rate (List.length (promises st))).
Proof.
  unfold speak, promiseState. cbn [fst snd promises utterances].
  assert (P : promises (if speaking st then cancel st else st) = promises st)
    by (destruct (speaking st); reflexivity).
  assert (U : utterances (if speaking st then cancel st else st) = utterances st)
    by (destruct (speaking st); reflexivity).
  rewrite P, U. split; [reflexivity|]. split.
  - rewrite nth_error_app2 by lia. rewrite Nat.sub_diag. reflexivity.
  - rewrite nth_error_app2 by lia. rewrite Nat.sub_diag. reflexivity.
Qed.

(** A rejected promise stays rejected: the handlers only resolve. *)
Lemma deliverAll_rejected evs : forall st p,
  promiseState st p = Some Rejected ->
  promiseState (deliverAll evs st) p = Some Rejected.
Proof.
  induction evs as [|ev evs IH]; intros st p H; [exact H|].
  cbn [deliverAll fold_left]. apply IH. unfold promiseState in *.
  destruct (deliver_promises ev st) as [-> | [u ->]]; [exact H|].
  destruct (Nat.eq_dec (upromise u) p) as [->|Hne].
  - rewrite settle_same, H. reflexivity.
  - rewrite settle_other by exact Hne. exact H.
Qed.

(** When no call throws, the executor runs to its end. *)
Lemma speakOn_returns throws text lang rate st :
  throwing throws text lang rate st = false ->
  speakOn throws text lang rate st = speak text lang rate st.
Proof.
  unfold throwing, speakOn. intros H.
  repeat (apply orb_false_iff in H; destruct H as [H ?]).
  repeat match goal with E : _ = false |- _ => rewrite E; clear E end.
  reflexivity.
Qed.

(** When a call throws, the promise is rejected and no utterance reaches
    the browser. *)
Lemma speakOn_throws throws text lang rate st :
  throwing throws text lang rate st = true ->
  fst (speakOn throws text lang rate st) = List.length (promises st) /\
  promiseState (snd (speakOn throws text lang rate st)) (List.length (promises st))
    = Some Rejected /\
  utterances (snd (speakOn throws text lang rate st)) = utterances st.
Proof.
  unfold throwing, speakOn, promiseState. intros H.
  assert (R : forall s, promises s = promises st -> utterances s = utterances st ->
            fst (rejected s) = List.length (promises st) /\
            nth_error (promises (snd (rejected s))) (List.length (promises st))
              = Some Rejected /\
            utterances (snd (rejected s)) = utterances st).
  { intros s P U. unfold rejected. cbn [fst snd promises utterances]. rewrite P.
    rewrite nth_error_app2 by lia. rewrite Nat.sub_diag. repeat split. exact U. }
  destruct (throws GetSpeaking); [apply R; reflexivity|].
  destruct (speaking st && throws HostCancel)%bool; [apply R; reflexivity|].
  assert (P1 : promises (if speaking st then cancel st else st) = promises st)
    by (destruct (speaking st); reflexivity).
  assert (U1 : utterances (if speaking st then cancel st else st) = utterances st)
    by (destruct (speaking st); reflexivity).
  destruct (throws (NewUtterance text)); [apply R; assumption|].
  destruct (throws (SetLang lang)); [apply R; assumption|].
  destruct (throws (SetRate rate)); [apply R; assumption|].
  destruct (throws HostSpeak); [apply R; assumption|].
  discriminate H.
Qed.

(** A report on another utterance of a well-formed channel leaves the new
    promise as it is. *)
Lemma deliverAll_unreported text lang rate st evs :
  wellFormed st ->
  Forall (fun ev => snd ev <> List.length (utterances st)) evs ->
  promiseState (deliverAll evs (snd (speak text lang rate st)))
               (List.length (promises st)) = Some Pending.
Proof.
  intros Hwf Hev.
  destruct (speak_result text lang rate st) as (_ & Hpend & _).
  set (st1 := snd (speak text lang rate st)) in *.
  set (p := List.length (promises st)) in *.
  assert (U1 : utterances st1
               = utterances st ++ [mkUtterance text lang rate p]).
  { subst st1. unfold speak. cbn [snd utterances].
    destruct (speaking st); reflexivity. }
  assert (Hgen : forall s,
            utterances s = utterances st1 ->
            promiseState s p = Some Pending ->
            promiseState (deliverAll evs s) p = Some Pending).
  { induction Hev as [|ev evs Hne _ IH]; intros s Hu Hp; [exact Hp|].
    cbn [deliverAll fold_left]. apply IH.
    - unfold deliver. destruct (nth_error (utterances s) (snd ev)); [|exact Hu].
      destruct (fst ev); exact Hu.
    - unfold deliver. destruct (nth_error (utterances s) (snd ev)) as [x|] eqn:Hx;
        [|exact Hp].
      assert (Hxp : upromise x <> p).
      { rewrite Hu, U1 in Hx.
        destruct (Nat.lt_ge_cases (snd ev) (List.length (utterances st))) as [Hlt|Hge].
        - rewrite nth_error_app1 in Hx by exact Hlt.
          unfold wellFormed in Hwf. rewrite Forall_forall in Hwf.
          specialize (Hwf x (nth_error_In _ _ Hx)). subst p. lia.
        - rewrite nth_error_app2 in Hx by exact Hge.
          destruct (snd ev - List.length (utterances st))%nat as [|k] eqn:Hk; [lia|].
          destruct k; discriminate Hx. }
      assert (E : promises (handler (fst ev) x s) = settle (upromise x) (promises s))
        by (destruct (fst ev); reflexivity).
      unfold promiseState in *. rewrite E, settle_other by exact Hxp. exact Hp. }
  apply Hgen; [reflexivity|exact Hpend].
Qed.

(** Well-formedness holds of the empty channel and is kept by every call of
    [speak] and every report, so it holds of every channel that the program
    reaches. *)
Lemma wellFormed_deliver ev st : wellFormed st -> wellFormed (deliver ev st).
Proof.
  unfold wellFormed, deliver. intros H.
  destruct (nth_error (utterances st) (snd ev)) as [x|]; [|exact H].
  destruct (fst ev); cbn [handler resolve clearRef warn utterances promises];
    rewrite settle_length; exact H.
Qed.

Lemma wellFormed_speakOn throws text lang rate st :
  wellFormed st -> wellFormed (snd (speakOn throws text lang rate st)).
Proof.
  unfold wellFormed. intros H.
  assert (W : forall x, (upromise x < List.length (promises st))%nat ->
                        (upromise x < List.length (promises st ++ [Rejected]))%nat)
    by (intros x Hx; rewrite length_app; cbn [List.length]; lia).
  assert (R : forall s, promises s = promises st -> utterances s = utterances st ->
            Forall (fun x => (upromise x < List.length (promises (snd (rejected s))))%nat)
                   (utterances (snd (rejected s)))).
  { intros s P U. unfold rejected. cbn [snd promises utterances]. rewrite P, U.
    exact (Forall_impl _ W H). }
  assert (P1 : promises (if speaking st then cancel st else st) = promises st)
    by (destruct (speaking st); reflexivity).
  assert (U1 : utterances (if speaking st then cancel st else st) = utterances st)
    by (destruct (speaking st); reflexivity).
  unfold speakOn.
  destruct (throws GetSpeaking); [apply R; reflexivity|].
  destruct (speaking st && throws HostCancel)%bool; [apply R; reflexivity|].
  destruct (throws (NewUtterance text)); [apply R; assumption|].
  destruct (throws (SetLang lang)); [apply R; assumption|].
  destruct (throws (SetRate rate)); [apply R; assumption|].
  destruct (throws HostSpeak); [apply R; assumption|].
  unfold speak. cbn [snd promises utterances]. rewrite P1, U1.
  apply Forall_app. split.
  - apply (Forall_impl _ (P := fun x => (upromise x < List.length (promises st))%nat));
      [|exact H].
    intros x Hx. rewrite length_app. cbn [List.length]. lia.
  - constructor; [|constructor]. cbn [upromise]. rewrite length_app.
    cbn [List.length]. lia.
Qed.

(** C8, amended.  In a browser whose calls all return, [speak] returns a
    pending promise.  Whichever outcome the browser reports for the
    utterance, end or error, the promise is resolved from then on; as long
    as the browser has reported neither, it is pending (on a channel whose
    utterances belong to promises that exist); no sequence of reports ever
    rejects it; and the two outcomes leave the same state but for one
    console warning. *)
Theorem C8_speak_always_resolves
    (throws : HostCall -> bool)
    (text : jsstring) (lang : Lang) (rate : number) (st : Synth)
    (before after : list (Outcome * nat)) (o : Outcome) :
  throwing throws text lang rate st = false ->
  let p := fst (speakOn throws text lang rate st) in
  let st1 := snd (speakOn throws text lang rate st) in
  let u := List.length (utterances st) in
  promiseState st1 p = Some Pending /\
  promiseState (deliver (o, u) st1) p = Some Resolved /\
  promiseState (deliverAll (before ++ (o, u) :: after) st1) p = Some Resolved /\
  (promiseState (deliverAll before st1) p = Some Pending \/
   promiseState (deliverAll before st1) p = Some Resolved) /\
  (wellFormed st -> Forall (fun ev => snd ev <> u) before ->
   promiseState (deliverAll before st1) p = Some Pending) /\
  callerView (deliver (OnError, u) st1) = callerView (deliver (OnEnd, u) st1).
Proof.
  intros Hq. rewrite (speakOn_returns _ _ _ _ _ Hq). intros p st1 u.
  destruct (speak_result text lang rate st) as (Hp & Hpend & Hu).
  fold st1 in Hpend, Hu. fold u in Hu. fold p in Hp. rewrite <- Hp in Hpend.
  assert (Hone : forall s o', utterances s = utterances st1 ->
            (promiseState s p = Some Pending \/ promiseState s p = Some Resolved) ->
            promiseState (deliver (o', u) s) p = Some Resolved).
  { intros s o' Hs Hs'. unfold deliver. cbn [fst snd]. rewrite Hs, Hu.
    assert (E : promises (handler o' (mkUtterance text lang rate (List.length (promises st))) s)
                = settle p (promises s)) by (rewrite Hp; destruct o'; reflexivity).
    unfold promiseState in *. rewrite E, settle_same.
    destruct Hs' as [-> | ->]; reflexivity. }
  split; [exact Hpend|]. split; [apply Hone; [reflexivity|left; exact Hpend]|].
  split; [|split; [|split]].
  - rewrite deliverAll_app. cbn [deliverAll fold_left].
    apply deliverAll_resolved. apply Hone.
    + apply deliverAll_utterances.
    + apply deliverAll_not_rejected. exact Hpend.
  - apply deliverAll_not_rejected. exact Hpend.
  - intros Hwf Hev. rewrite Hp. apply deliverAll_unreported; assumption.
  - unfold deliver. cbn [fst snd]. rewrite Hu. reflexivity.
Qed.

Lemma C8_witness :
  let st0 := mkSynth false 0 [] None [] 0 in
  let st1 := snd (speakOn available (js "Hund") de_DE Num.lit_0_8 st0) in
  throwing available (js "Hund") de_DE Num.lit_0_8 st0 = false /\
  promiseState st1 0 = Some Pending /\
  promiseState (deliverAll [(OnEnd, 1%nat); (OnError, 0%nat); (OnEnd, 0%nat)] st1) 0
    = Some Resolved /\
  promiseState (deliverAll [(OnEnd, 1%nat)] st1) 0 = Some Pending.
Proof.
  cbv zeta.
  pose proof (C8_speak_always_resolves available (js "Hund") de_DE Num.lit_0_8
                (mkSynth false 0 [] None [] 0)
                [(OnEnd, 1%nat)] [(OnEnd, 0%nat)] OnError eq_refl) as H.
  cbv zeta in H. destruct H as (H1 & _ & H3 & _ & H5 & _).
  split; [reflexivity|]. split; [exact H1|]. split; [exact H3|].
  apply H5.
  - constructor.
  - constructor; [cbn; lia|constructor].
Defined.

(** C8 as stated fails twice.  In a browser without speech synthesis the
    first call of the executor throws: the promise that [speak] returns is
    rejected, and stays so whatever is reported.  And in a browser with
    speech synthesis the promise is resolved by nothing but a report on its
    utterance: as long as the browser reports none, the caller waits. *)
Lemma C8_counterexample :
  let st0 := mkSynth false 0 [] None [] 0 in
  let r := speakOn unavailable (js "Hund") de_DE Num.lit_0_8 st0 in
  let q := speakOn available (js "Hund") de_DE Num.lit_0_8 st0 in
  promiseState (snd r) (fst r) = Some Rejected /\
  utterances (snd r) = [] /\
  (forall evs, promiseState (deliverAll evs (snd r)) (fst r) = Some Rejected) /\
  utterances (snd q) = [mkUtterance (js "Hund") de_DE Num.lit_0_8 (fst q)] /\
  (forall evs, Forall (fun ev => snd ev <> 0%nat) evs ->
     promiseState (deliverAll evs (snd q)) (fst q) = Some Pending).
Proof.
  cbv zeta. split; [reflexivity|]. split; [reflexivity|]. split.
  - intros evs. apply deliverAll_rejected. reflexivity.
  - split; [reflexivity|]. intros evs Hev.
    apply (deliverAll_unreported (js "Hund") de_DE Num.lit_0_8
             (mkSynth false 0 [] None [] 0) evs); [constructor|exact Hev].
Qed.

(** * The suggestopedia cycle *)

Section CycleFacts.

Variable vocabulary : list WordPair.


(** ** An uninterrupted session *)










(** ** A stopped session *)

Lemma resume_inactive c s :
  suggestopediaActiveRef s = false ->
  fst (resume vocabulary c s) = s /\
  (snd (resume vocabulary c s) = None \/
   exists c', snd (resume vocabulary c s) = Some c' /\ cycleIndex c' = cycleIndex c).
Proof.
  intros Href. unfold resume. rewrite Href. cbn [negb].
  destruct (cycleAt c); cbn [fst snd]; split; try reflexivity; try (left; reflexivity).
  right. eexists. split; reflexivity.
Qed.

Lemma update_length k c (l : list Cycle) :
  (List.length (update k c l) <= List.length l)%nat.
Proof.
  revert k. induction l as [|x l IH]; intros k; [destruct k; cbn; lia|].
  destruct k as [|k]; [destruct c; cbn; lia|]. cbn [update List.length].
  specialize (IH k). lia.
Qed.

Lemma observable_ref s1 s2 :
  observable s1 = observable s2 ->
  suggestopediaActiveRef s1 = suggestopediaActiveRef s2.
Proof. unfold observable. congruence. Qed.

(** Once the flag is off, letting suspended invocations run on changes
    nothing but the list of suspended invocations, which never grows. *)
Lemma resumes_inactive rs : forall s,
  suggestopediaActiveRef s = false ->
  observable (run vocabulary (List.map Resume rs) s) = observable s /\
  (List.length (pending (run vocabulary (List.map Resume rs) s))
     <= List.length (pending s))%nat.
Proof.
  induction rs as [|k rs IH]; intros s Href; [split; [reflexivity|apply Nat.le_refl]|].
  cbn [List.map run fold_left]. fold (run vocabulary (List.map Resume rs)).
  assert (Hstep : observable (step vocabulary s (Resume k)) = observable s /\
                  (List.length (pending (step vocabulary s (Resume k)))
                     <= List.length (pending s))%nat).
  { cbn [step]. destruct (nth_error (pending s) k) as [c|]; [|split; [reflexivity|lia]].
    destruct (resume_inactive c s Href) as [Hs _]. rewrite Hs.
    split; [reflexivity|]. cbn [setPending pending]. apply update_length. }
  destruct Hstep as [Ho Hl].
  assert (Href' : suggestopediaActiveRef (step vocabulary s (Resume k)) = false).
  { rewrite (observable_ref _ _ Ho). exact Href. }
  destruct (IH _ Href') as [Ho' Hl']. split; [exact (eq_trans Ho' Ho)|].
  exact (Nat.le_trans _ _ _ Hl' Hl).
Qed.

End CycleFacts.




Ltac session_simpl :=
  cbn [call setRef setSuggestopediaActive setSuggestopediaWordIndex
       setSuggestopediaStep setPending suggestopediaActive
       suggestopediaActiveRef suggestopediaWordIndex suggestopediaStep
       pending speech shown negb fst snd].

Lemma skip_after_stop (vocabulary : list WordPair) (s : Session) :
  let s1 := skipToNextWord vocabulary (stopSuggestopedia s) in
  suggestopediaActive s1 = false /\
  suggestopediaActiveRef s1 = false /\
  suggestopediaStep s1 = suggestopediaStep s /\
  shown s1 = shown s /\
  pending s1 = pending s /\
  suggestopediaWordIndex s1 =
    (if (suggestopediaWordIndex s + 1 <? List.length vocabulary)%nat
     then (suggestopediaWordIndex s + 1)%nat else suggestopediaWordIndex s) /\
  speech s1 =
    (if (suggestopediaWordIndex s + 1 <? List.length vocabulary)%nat
     then speech s ++ [CallCancel; CallCancel]
     else speech s ++ [CallCancel; CallCancel; CallCancel]).
Proof.
  destruct s as [a r i x pe sp sh]. cbv zeta.
  unfold skipToNextWord, stopSuggestopedia, runSuggestopediaCycle, spawn.
  session_simpl.
  destruct (i + 1 <? List.length vocabulary)%nat eqn:Hlt; session_simpl.
  - apply Nat.ltb_lt in Hlt.
    destruct (nth_error vocabulary (i + 1)) as [w|] eqn:Hw.
    2:{ apply nth_error_None in Hw. lia. }
    session_simpl. rewrite <- app_assoc. repeat split; reflexivity.
  - rewrite <- !app_assoc. repeat split; reflexivity.
Qed.

(** C6, amended.  After [stop()] and then [skip()] the session is inactive
    and stays so however the suspended invocations run on: both flags are
    off, the step on screen and the record of steps shown are those of
    before, no invocation is added and no word is spoken.  The code keeps no
    cancellation token; the word index moves on by one when a next word
    exists. *)
Theorem C6_stop_then_skip_stays_inactive
    (vocabulary : list WordPair) (s : Session) (rs : list nat) :
  let s1 := skipToNextWord vocabulary (stopSuggestopedia s) in
  let s2 := run vocabulary (List.map Resume rs) s1 in
  suggestopediaActive s1 = false /\
  suggestopediaActiveRef s1 = false /\
  suggestopediaStep s1 = suggestopediaStep s /\
  shown s1 = shown s /\
  pending s1 = pending s /\
  suggestopediaWordIndex s1 =
    (if (suggestopediaWordIndex s + 1 <? List.length vocabulary)%nat
     then (suggestopediaWordIndex s + 1)%nat else suggestopediaWordIndex s) /\
  speech s1 =
    (if (suggestopediaWordIndex s + 1 <? List.length vocabulary)%nat
     then speech s ++ [CallCancel; CallCancel]
     else speech s ++ [CallCancel; CallCancel; CallCancel]) /\
  observable s2 = observable s1 /\
  (List.length (pending s2) <= List.length (pending s))%nat /\
  cancellationState s2 = cancellationState (stopSuggestopedia s).
Proof.
  intros s1 s2.
  destruct (skip_after_stop vocabulary s) as (Ha & Hr & Hx & Hsh & Hp & Hi & Hsp).
  fold s1 in Ha, Hr, Hx, Hsh, Hp, Hi, Hsp.
  destruct (resumes_inactive vocabulary rs s1 Hr) as [Ho Hl]. fold s2 in Ho, Hl.
  repeat (split; [assumption|]). split.
  - rewrite <- Hp. exact Hl.
  - unfold cancellationState. rewrite (observable_ref _ _ Ho), Hr. reflexivity.
Qed.

(** C6 as stated fails in its last part: the flag that cancels cycles is off
    after [stop()] and still off after the [skip()] that follows; nothing
    that a cycle consults increases. *)
Lemma C6_counterexample :
  let s0 := run vocab3 [Start] initial in
  let s1 := stopSuggestopedia s0 in
  let s2 := skipToNextWord vocab3 s1 in
  cancellationState s0 = 1%nat /\
  cancellationState s1 = 0%nat /\
  cancellationState s2 = 0%nat /\
  ~ (cancellationState s0 < cancellationState s2)%nat /\
  ~ (cancellationState s1 < cancellationState s2)%nat.
Proof. cbv zeta. repeat split; try reflexivity; vm_compute; lia. Qed.

(** C1: the code at a failing schedule.  With three words, the session is
    started and skip is pressed while the first cycle waits for its intro
    speech.  The skipped cycle is still suspended; when it runs on it puts
    the step ['bulgarian'] on screen and speaks the translation of word 0,
    while the cycle that skip started still waits in its intro for word 1.
    Later the skipped cycle starts a cycle for word 1 and sets the index
    back to 1 although the cycle started by skip has reached word 2. *)
Theorem C1_superseded_cycle_mutates_state :
  let hund := mkWordPair (js "Hund") (js "kuche") in
  let katze := mkWordPair (js "Katze") (js "kotka") in
  let maus := mkWordPair (js "Maus") (js "mishka") in
  let s := run vocab3 [Start; Skip; Resume 0; Resume 0] initial in
  let s' := run vocab3 ([Start; Skip] ++ repeat (Resume 1) 5 ++ repeat (Resume 0) 5)
                initial in
  pending (run vocab3 [Start; Skip] initial) =
    [mkCycle 0 hund AwaitIntroSpeech; mkCycle 1 katze AwaitIntroSpeech] /\
  pending s = [mkCycle 0 hund AwaitTranslationSpeech; mkCycle 1 katze AwaitIntroSpeech] /\
  suggestopediaWordIndex s = 1%nat /\
  suggestopediaStep s = StepBulgarian /\
  stepAt AwaitIntroSpeech = StepIntro /\
  last (speech s) CallCancel = CallSpeak (bulgarian hund) bg_BG Num.lit_1_0 /\
  pending (run vocab3 ([Start; Skip] ++ repeat (Resume 1) 5) initial) =
    [mkCycle 0 hund AwaitIntroSpeech; mkCycle 2 maus AwaitIntroSpeech] /\
  pending s' = [mkCycle 1 katze AwaitIntroSpeech; mkCycle 2 maus AwaitIntroSpeech] /\
  suggestopediaWordIndex s' = 1%nat /\
  shown s' = [(0, StepIntro); (1, StepIntro); (1, StepBulgarian); (1, StepFixation);
              (2, StepIntro); (2, StepBulgarian); (2, StepFixation); (1, StepIntro)]%nat.
Proof. cbv zeta. repeat split; vm_compute; reflexivity. Qed.

(** * The WAV container *)

Lemma some_inj {A : Type} (a b : A) : Some a = Some b -> a = b.
Proof. intros H. injection H as H. exact H. Qed.

Lemma land_255 v : Z.land v 255 = v mod 256.
Proof. change 255 with (Z.ones 8). rewrite Z.land_ones by lia. reflexivity. Qed.

Lemma land_255_byte v : Wav.is_byte (Z.land v 255).
Proof. rewrite land_255. unfold Wav.is_byte. apply Z.mod_pos_bound. lia. Qed.

Lemma uint32_bytes v :
  Z.land v 255 + 256 * Z.land (Z.shiftr v 8) 255
  + 65536 * Z.land (Z.shiftr v 16) 255 + 16777216 * Z.land (Z.shiftr v 24) 255
  = v mod 2 ^ 32.
Proof.
  rewrite !land_255, !Z.shiftr_div_pow2 by lia.
  change (2 ^ 8) with 256. change (2 ^ 16) with 65536.
  change (2 ^ 24) with 16777216. change (2 ^ 32) with 4294967296.
  replace (v / 65536) with (v / 256 / 256) by (rewrite Z.div_div by lia; reflexivity).
  replace (v / 16777216) with (v / 256 / 256 / 256)
    by (rewrite !Z.div_div by lia; reflexivity).
  pose proof (Z.div_mod v 256 ltac:(lia)).
  pose proof (Z.mod_pos_bound v 256 ltac:(lia)).
  pose proof (Z.div_mod (v / 256) 256 ltac:(lia)).
  pose proof (Z.mod_pos_bound (v / 256) 256 ltac:(lia)).
  pose proof (Z.div_mod (v / 256 / 256) 256 ltac:(lia)).
  pose proof (Z.mod_pos_bound (v / 256 / 256) 256 ltac:(lia)).
  pose proof (Z.mod_pos_bound (v / 256 / 256 / 256) 256 ltac:(lia)).
  apply (Z.mod_unique_pos _ _ (v / 256 / 256 / 256 / 256)); [lia|].
  pose proof (Z.div_mod (v / 256 / 256 / 256) 256 ltac:(lia)). lia.
Qed.

Lemma alloc_split n : Wav.alloc (44 + n) = repeat 0 44 ++ repeat 0 n.
Proof. unfold Wav.alloc. apply repeat_app. Qed.

(** What [createWavUrl] returns, byte by byte. *)
Lemma createWavUrl_bytes samples rate :
  let n := Z.of_nat (List.length samples) in
  Wav.createWavUrl samples rate =
  Some ([82; 73; 70; 70;
         Z.land (36 + n) 255; Z.land (Z.shiftr (36 + n) 8) 255;
         Z.land (Z.shiftr (36 + n) 16) 255; Z.land (Z.shiftr (36 + n) 24) 255;
         87; 65; 86; 69;
         102; 109; 116; 32;
         16; 0; 0; 0;
         1; 0;
         1; 0;
         Z.land rate 255; Z.land (Z.shiftr rate 8) 255;
         Z.land (Z.shiftr rate 16) 255; Z.land (Z.shiftr rate 24) 255;
         Z.land (rate * 2) 255; Z.land (Z.shiftr (rate * 2) 8) 255;
         Z.land (Z.shiftr (rate * 2) 16) 255; Z.land (Z.shiftr (rate * 2) 24) 255;
         2; 0;
         16; 0;
         100; 97; 116; 97;
         Z.land n 255; Z.land (Z.shiftr n 8) 255;
         Z.land (Z.shiftr n 16) 255; Z.land (Z.shiftr n 24) 255] ++ samples).
Proof.
  cbv zeta. unfold Wav.createWavUrl. rewrite alloc_split.
  generalize (36 + Z.of_nat (List.length samples)) as a.
  generalize (rate * 2) as r2.
  generalize (Z.of_nat (List.length samples)) as n.
  intros n r2 a.
  assert (L : List.length (repeat 0 (List.length samples)) = List.length samples)
    by apply repeat_length.
  revert L. generalize (repeat 0 (List.length samples)) as suf. intros suf L.
  set (b0 := Z.land n 255). set (b1 := Z.land (Z.shiftr n 8) 255).
  set (b2 := Z.land (Z.shiftr n 16) 255). set (b3 := Z.land (Z.shiftr n 24) 255).
  set (a0 := Z.land a 255). set (a1 := Z.land (Z.shiftr a 8) 255).
  set (a2 := Z.land (Z.shiftr a 16) 255). set (a3 := Z.land (Z.shiftr a 24) 255).
  set (r0 := Z.land rate 255). set (r1 := Z.land (Z.shiftr rate 8) 255).
  set (r2' := Z.land (Z.shiftr rate 16) 255). set (r3 := Z.land (Z.shiftr rate 24) 255).
  set (q0 := Z.land r2 255). set (q1 := Z.land (Z.shiftr r2 8) 255).
  set (q2 := Z.land (Z.shiftr r2 16) 255). set (q3 := Z.land (Z.shiftr r2 24) 255).
  unfold Wav.setUint32, Wav.setUint16.
  fold a0 a1 a2 a3 b0 b1 b2 b3 r0 r1 r2' r3 q0 q1 q2 q3.
  clearbody a0 a1 a2 a3 b0 b1 b2 b3 r0 r1 r2' r3 q0 q1 q2 q3.
  cbn.
  unfold Wav.write. cbn [List.length Nat.add app].
  rewrite L. rewrite Nat.leb_refl.
  cbn [firstn skipn app].
  rewrite skipn_all2 by lia. rewrite app_nil_r. reflexivity.
Qed.

Lemma createWavUrl_returns samples rate :
  exists wav, Wav.createWavUrl samples rate = Some wav /\
              List.length wav = (44 + List.length samples)%nat.
Proof.
  pose proof (createWavUrl_bytes samples rate) as E. cbv zeta in E.
  eexists. split; [exact E|]. rewrite length_app. reflexivity.
Qed.

(** X1.  [createWavUrl] never throws.  The buffer it builds is 44 bytes
    longer than the samples, carries the samples unchanged from byte 44 on,
    and holds nothing but bytes when the samples are bytes. *)
Theorem createWavUrl_keeps_samples (samples : list Z) (sampleRate : Z) :
  exists wav,
    Wav.createWavUrl samples sampleRate = Some wav /\
    List.length wav = (44 + List.length samples)%nat /\
    skipn 44 wav = samples /\
    Wav.slice 44 (List.length samples) wav = samples /\
    (Forall Wav.is_byte samples -> Forall Wav.is_byte wav).
Proof.
  pose proof (createWavUrl_bytes samples sampleRate) as E. cbv zeta in E.
  eexists. split; [exact E|]. split; [|split; [|split]].
  - rewrite length_app. reflexivity.
  - reflexivity.
  - unfold Wav.slice. cbn [skipn app]. apply firstn_all.
  - intros Hs. apply Forall_app. split; [|exact Hs].
    repeat (apply Forall_cons;
            [lazymatch goal with
             | |- Wav.is_byte (Z.land _ 255) => apply land_255_byte
             | |- _ => unfold Wav.is_byte; lia
             end|]).
    apply Forall_nil.
Qed.

(** X2.  The header that [createWavUrl] leaves in the buffer, read back
    field by field: the four tags, the PCM format fields (format 1, one
    channel, block align 2, 16 bits per sample), and the two sizes and the
    two rates, which are stored modulo [2^32].  No store overwrites
    another. *)
Theorem createWavUrl_header (samples : list Z) (sampleRate : Z) :
  exists wav,
    Wav.createWavUrl samples sampleRate = Some wav /\
    let n := Z.of_nat (List.length samples) in
    Wav.slice 0 4 wav = Wav.tag "RIFF" /\
    Wav.getUint32 4 wav = Some ((36 + n) mod 2 ^ 32) /\
    Wav.slice 8 4 wav = Wav.tag "WAVE" /\
    Wav.slice 12 4 wav = Wav.tag "fmt " /\
    Wav.getUint32 16 wav = Some 16 /\
    Wav.getUint16 20 wav = Some 1 /\
    Wav.getUint16 22 wav = Some 1 /\
    Wav.getUint32 24 wav = Some (sampleRate mod 2 ^ 32) /\
    Wav.getUint32 28 wav = Some ((sampleRate * 2) mod 2 ^ 32) /\
    Wav.getUint16 32 wav = Some 2 /\
    Wav.getUint16 34 wav = Some 16 /\
    Wav.slice 36 4 wav = Wav.tag "data" /\
    Wav.getUint32 40 wav = Some (n mod 2 ^ 32).
Proof.
  pose proof (createWavUrl_bytes samples sampleRate) as B. cbv zeta in B.
  eexists. split; [exact B|]. cbv zeta.
  set (n := Z.of_nat (List.length samples)).
  unfold Wav.getUint32, Wav.getUint16, Wav.slice. cbn [skipn firstn app].
  rewrite <- (uint32_bytes (36 + n)), <- (uint32_bytes sampleRate),
    <- (uint32_bytes (sampleRate * 2)), <- (uint32_bytes n).
  repeat (split; [reflexivity|]). reflexivity.
Qed.

(** X3.  For fewer than [2^32 - 36] bytes of samples and a sample rate
    below [2^31] the header is consistent with the buffer: the RIFF size is
    the length of the buffer less 8, the data size is the length of the
    buffer less 44, the block align is the channel count times the bytes per
    sample, and the byte rate is the sample rate times the block align. *)
Theorem createWavUrl_consistent (samples : list Z) (sampleRate : Z) (wav : Wav.buffer) :
  Wav.createWavUrl samples sampleRate = Some wav ->
  Z.of_nat (List.length samples) + 36 < 2 ^ 32 ->
  0 <= sampleRate < 2 ^ 31 ->
  Wav.getUint32 4 wav = Some (Z.of_nat (List.length wav) - 8) /\
  Wav.getUint32 40 wav = Some (Z.of_nat (List.length wav) - 44) /\
  Wav.getUint32 40 wav = Some (Z.of_nat (List.length (skipn 44 wav))) /\
  exists channels bits blockAlign,
    Wav.getUint16 22 wav = Some channels /\
    Wav.getUint16 34 wav = Some bits /\
    Wav.getUint16 32 wav = Some blockAlign /\
    blockAlign = channels * (bits / 8) /\
    Wav.getUint32 24 wav = Some sampleRate /\
    Wav.getUint32 28 wav = Some (sampleRate * blockAlign).
Proof.
  intros E Hn Hr.
  pose proof (createWavUrl_bytes samples sampleRate) as B. cbv zeta in B.
  rewrite B in E. apply some_inj in E. subst wav.
  set (n := Z.of_nat (List.length samples)) in *.
  assert (HL : Z.of_nat (List.length samples) = n) by reflexivity.
  unfold Wav.getUint32, Wav.getUint16. cbn [skipn firstn app].
  rewrite (uint32_bytes (36 + n)), (uint32_bytes sampleRate),
    (uint32_bytes (sampleRate * 2)), (uint32_bytes n).
  rewrite !Z.mod_small by lia.
  cbn [List.length]. fold n.
  split; [f_equal; lia|]. split; [f_equal; lia|]. split; [f_equal; lia|].
  exists 1, 16, 2. repeat (split; [reflexivity|]). reflexivity.
Qed.

Lemma createWavUrl_consistent_witness :
  exists wav,
    Wav.createWavUrl [1; 2; 3; 4] 24000 = Some wav /\
    Wav.getUint32 4 wav = Some (Z.of_nat (List.length wav) - 8) /\
    Wav.getUint32 40 wav = Some (Z.of_nat (List.length wav) - 44).
Proof.
  destruct (Wav.createWavUrl [1; 2; 3; 4] 24000) as [wav|] eqn:E.
  - exists wav. split; [reflexivity|].
    destruct (createWavUrl_consistent [1; 2; 3; 4] 24000 wav E
                ltac:(vm_compute; reflexivity) ltac:(lia)) as (H4 & H40 & _).
    split; assumption.
  - vm_compute in E. discriminate E.
Defined.

(** * Speech generation *)

(** A finite non-negative canonical double with a value above zero. *)
Lemma finite_pos_of_value r :
  Num.good r -> Num.is_finite r = true -> (0 < Num.toQ r)%Q ->
  exists m e, r = S754_finite false m e /\ bounded Num.prec Num.emax m e = true.
Proof.
  intros [Hv Hn] Hf Hq. destruct r as [s|s| |[|] m e]; cbn in Hq, Hf, Hn;
    try discriminate; try (exfalso; lra).
  exists m, e. split; [reflexivity|exact Hv].
Qed.

(** The duration that [generateSpeech] computes for [n] bytes of audio. *)
Lemma duration_value n :
  0 < n < 2 ^ 53 ->
  let d := Num.div (Num.div (Num.of_Z n) (Num.of_Z 2)) (Num.of_Z 24000) in
  let x := (inject_Z n / 48000)%Q in
  Num.positive_finite d = true /\
  (x - x * (1 # 1125899906842624) <= Num.toQ d <= x + x * (1 # 1125899906842624))%Q.
Proof.
  intros Hn. cbv zeta.
  destruct (of_Z_exact n Hn) as (m & e & En & Hb & Hv). rewrite En in *.
  change (Num.of_Z 2) with (S754_finite false 4503599627370496 (-51)).
  change (Num.of_Z 24000) with (S754_finite false 6597069766656000 (-38)).
  assert (N1 : (1 <= inject_Z n)%Q)
    by (change 1%Q with (inject_Z 1); rewrite <- Zle_Qle; lia).
  assert (N2 : (inject_Z n < Num.bpow 53)%Q).
  { rewrite bpow_Z by lia. rewrite <- Zlt_Qlt. lia. }
  assert (M1 : Zpos (digits2_pos m) + e <= 53) by (apply mag_le; rewrite Hv; exact N2).
  (* n / 2 *)
  pose proof (div_value m e 4503599627370496 (-51)) as H1. cbv zeta in H1.
  destruct H1 as (G1 & F1 & V1);
    [change (Z.pos (digits2_pos 4503599627370496)) with 53; lia|].
  set (r1 := Num.div (S754_finite false m e) (S754_finite false 4503599627370496 (-51))) in *.
  assert (T2 : (Num.toQ (S754_finite false 4503599627370496 (-51)) == 2)%Q) by reflexivity.
  rewrite Hv, T2 in V1.
  pose proof eta_small as Hs. pose proof eta_pos as Hp.
  change Num.eps with (1 # 4503599627370496)%Q in *.
  set (t := Num.eta) in *. set (q := inject_Z n) in *.
  assert (Q1 : (q / 2 == q * (1 # 2))%Q) by (field).
  rewrite Q1 in V1.
  assert (P1 : (0 < Num.toQ r1)%Q) by lra.
  destruct (finite_pos_of_value r1 G1 F1 P1) as (m1 & e1 & E1 & Hb1).
  assert (B53 : (Num.bpow 53 == 9007199254740992)%Q) by reflexivity.
  assert (M2 : Zpos (digits2_pos m1) + e1 <= 53).
  { apply mag_le. rewrite <- E1. rewrite B53 in *. lra. }
  (* ... / 24000 *)
  pose proof (div_value m1 e1 6597069766656000 (-38)) as H2. cbv zeta in H2.
  destruct H2 as (G2 & F2 & V2);
    [change (Z.pos (digits2_pos 6597069766656000)) with 53; lia|].
  rewrite <- E1 in V2, G2, F2.
  change Num.eps with (1 # 4503599627370496)%Q in V2. fold t in V2.
  set (r2 := Num.div r1 (S754_finite false 6597069766656000 (-38))) in *.
  assert (T3 : (Num.toQ (S754_finite false 6597069766656000 (-38)) == 24000)%Q) by reflexivity.
  rewrite T3 in V2.
  assert (Q2 : (Num.toQ r1 / 24000 == Num.toQ r1 * (1 # 24000))%Q) by (field).
  rewrite Q2 in V2.
  assert (Q3 : (q / 48000 == q * (1 # 48000))%Q) by (field).
  rewrite Q3.
  assert (P2 : (0 < Num.toQ r2)%Q) by lra.
  destruct (finite_pos_of_value r2 G2 F2 P2) as (m2 & e2 & E2 & Hb2).
  split.
  - rewrite E2. exact Hb2.
  - split; lra.
Qed.

Lemma decode_length atob base64 bytes :
  Gemini.decode atob base64 = Some bytes ->
  exists binaryString,
    atob base64 = Some binaryString /\
    bytes = List.map (fun c => Z.of_N c mod 256) binaryString /\
    List.length bytes = List.length binaryString.
Proof.
  unfold Gemini.decode. destruct (atob base64) as [b|]; [|discriminate].
  intros E. apply some_inj in E. subst bytes. exists b.
  split; [reflexivity|]. split.
  - apply map_ext. intros c. apply land_255.
  - apply length_map.
Qed.

(** What a call of [generateSpeech] that returns has computed. *)
Lemma generateSpeech_inr atob apiKey base64Audio url duration :
  Gemini.generateSpeech atob apiKey base64Audio = inr (url, duration) ->
  exists base64 binaryString,
    base64Audio = Some base64 /\
    atob base64 = Some binaryString /\
    Wav.createWavUrl (List.map (fun c => Z.of_N c mod 256) binaryString) 24000
      = Some url /\
    duration =
      Num.div (Num.div (Num.of_Z (Z.of_nat (List.length binaryString))) (Num.of_Z 2))
              (Num.of_Z 24000).
Proof.
  unfold Gemini.generateSpeech.
  destruct (Gemini.missing apiKey); [discriminate|].
  destruct (Gemini.missing base64Audio); [discriminate|].
  destruct base64Audio as [base64|]; [|discriminate].
  destruct (Gemini.decode atob base64) as [bytes|] eqn:D; [|discriminate].
  destruct (decode_length atob base64 bytes D) as (b & Hb & -> & HL).
  change Gemini.sampleRate with 24000.
  change (Gemini.numChannels * Gemini.bytesPerSample) with 2.
  destruct (Wav.createWavUrl _ 24000) as [w|] eqn:W; [|discriminate].
  intros E. injection E as <- <-.
  exists base64, b. rewrite length_map.
  repeat split; try assumption; reflexivity.
Qed.

(** X4.  A call of [generateSpeech] is rejected for a missing key, for a
    request that fails, for missing audio and for audio that is not base64,
    in this order, and for nothing else: the key is checked before the
    request is made, building the WAV never fails, and a call that gets past
    the four checks returns. *)
Theorem generateSpeech_throws
    (atob : jsstring -> option jsstring) (apiKey : option jsstring)
    (response : Gemini.Response) :
  let r := Gemini.generateSpeechCall atob apiKey response in
  (Gemini.missing apiKey = true -> r = inl Gemini.ApiKeyNotFound) /\
  (Gemini.missing apiKey = false -> response = Gemini.RequestRejected ->
     r = inl Gemini.RequestFailed) /\
  (forall base64Audio,
     Gemini.missing apiKey = false ->
     response = Gemini.RequestFulfilled base64Audio ->
     Gemini.missing base64Audio = true ->
     r = inl Gemini.NoAudioData) /\
  (forall base64,
     Gemini.missing apiKey = false ->
     response = Gemini.RequestFulfilled (Some base64) -> base64 <> [] ->
     match atob base64 with
     | None => r = inl Gemini.InvalidCharacter
     | Some _ => exists url duration, r = inr (url, duration)
     end) /\
  r <> inl Gemini.RangeError.
Proof.
  cbv zeta. unfold Gemini.generateSpeechCall, Gemini.generateSpeech.
  split; [|split; [|split; [|split]]].
  - intros ->. reflexivity.
  - intros -> ->. reflexivity.
  - intros base64Audio -> -> ->. reflexivity.
  - intros base64 -> -> Hne. destruct base64 as [|c rest]; [congruence|].
    cbn [Gemini.missing]. unfold Gemini.decode.
    destruct (atob (c :: rest)) as [b|]; [|reflexivity].
    destruct (createWavUrl_returns (List.map (fun c0 => Z.land (Z.of_N c0) 255) b)
                Gemini.sampleRate) as (w & -> & _).
    eexists _, _. reflexivity.
  - destruct (Gemini.missing apiKey); [discriminate|].
    destruct response as [|base64Audio]; [discriminate|].
    destruct (Gemini.missing base64Audio); [discriminate|].
    destruct base64Audio as [base64|]; [|discriminate].
    destruct (Gemini.decode atob base64) as [bytes|]; [|discriminate].
    destruct (createWavUrl_returns bytes Gemini.sampleRate) as (w & -> & _).
    discriminate.
Qed.

(** X5.  The WAV that [generateSpeech] returns holds the code units of the
    decoded string, each modulo 256, from byte 44 on; for fewer than
    [2^32 - 36] bytes of audio its header announces that many bytes of data,
    at 24000 samples and 48000 bytes per second. *)
Theorem generateSpeech_wav
    (atob : jsstring -> option jsstring) (apiKey base64Audio : option jsstring)
    (url : Wav.buffer) (duration : number) :
  Gemini.generateSpeech atob apiKey base64Audio = inr (url, duration) ->
  exists base64 binaryString,
    base64Audio = Some base64 /\
    atob base64 = Some binaryString /\
    List.length url = (44 + List.length binaryString)%nat /\
    skipn 44 url = List.map (fun c => Z.of_N c mod 256) binaryString /\
    Forall Wav.is_byte url /\
    Wav.getUint32 24 url = Some 24000 /\
    Wav.getUint32 28 url = Some 48000 /\
    (Z.of_nat (List.length binaryString) + 36 < 2 ^ 32 ->
     Wav.getUint32 4 url = Some (Z.of_nat (List.length binaryString) + 36) /\
     Wav.getUint32 40 url = Some (Z.of_nat (List.length binaryString))).
Proof.
  intros E. destruct (generateSpeech_inr _ _ _ _ _ E) as (base64 & b & -> & Hb & W & _).
  exists base64, b. split; [reflexivity|]. split; [exact Hb|].
  pose proof (createWavUrl_bytes (List.map (fun c => Z.of_N c mod 256) b) 24000) as B.
  cbv zeta in B. rewrite B in W. apply some_inj in W. subst url.
  rewrite length_map.
  set (n := Z.of_nat (List.length b)).
  split; [rewrite length_app, length_map; reflexivity|].
  split; [reflexivity|].
  split.
  { apply Forall_app. split.
    - repeat (apply Forall_cons;
              [lazymatch goal with
               | |- Wav.is_byte (Z.land _ 255) => apply land_255_byte
               | |- _ => unfold Wav.is_byte; lia
               end|]).
      apply Forall_nil.
    - apply Forall_forall. intros x Hx. apply in_map_iff in Hx as (c & <- & _).
      unfold Wav.is_byte. apply Z.mod_pos_bound. lia. }
  unfold Wav.getUint32. cbn [skipn firstn app].
  split; [reflexivity|]. split; [reflexivity|].
  intros Hn.
  rewrite (uint32_bytes (36 + n)), (uint32_bytes n).
  rewrite !Z.mod_small by lia.
  split; f_equal; lia.
Qed.

Lemma generateSpeech_wav_witness :
  exists url duration,
    Gemini.generateSpeech Some (Some (js "key")) (Some (js "AAAA")) = inr (url, duration) /\
    List.length url = 48%nat /\
    skipn 44 url = [65; 65; 65; 65] /\
    Wav.getUint32 40 url = Some 4.
Proof.
  destruct (Gemini.generateSpeech Some (Some (js "key")) (Some (js "AAAA")))
    as [t|[url duration]] eqn:E.
  - vm_compute in E. discriminate E.
  - destruct (generateSpeech_wav Some (Some (js "key")) (Some (js "AAAA")) url duration E)
      as (base64 & b & H1 & H2 & HL & Hp & _ & _ & _ & Hs).
    apply some_inj in H1. subst base64. apply some_inj in H2. subst b.
    exists url, duration. split; [reflexivity|]. split; [exact HL|]. split; [exact Hp|].
    exact (proj2 (Hs ltac:(vm_compute; reflexivity))).
Defined.

(** X6.  The duration that [generateSpeech] returns is the number of audio bytes
    over 48000, up to a relative error of [2^-50], and a finite double above
    zero; for no audio bytes at all it is [0]. *)
Theorem generateSpeech_duration
    (atob : jsstring -> option jsstring) (apiKey base64Audio : option jsstring)
    (url : Wav.buffer) (duration : number) :
  Gemini.generateSpeech atob apiKey base64Audio = inr (url, duration) ->
  let n := Z.of_nat (List.length url) - 44 in
  let x := (inject_Z n / 48000)%Q in
  0 <= n /\
  (n = 0 -> duration = Num.zero) /\
  (0 < n < 2 ^ 53 ->
   Num.positive_finite duration = true /\
   (x - x * (1 # 1125899906842624) <= Num.toQ duration
      <= x + x * (1 # 1125899906842624))%Q).
Proof.
  intros E. destruct (generateSpeech_inr _ _ _ _ _ E) as (base64 & b & _ & _ & W & ->).
  destruct (createWavUrl_returns (List.map (fun c => Z.of_N c mod 256) b) 24000)
    as (w & W' & HL).
  rewrite W in W'. apply some_inj in W'. subst w.
  rewrite length_map in HL. cbv zeta.
  replace (Z.of_nat (List.length url) - 44) with (Z.of_nat (List.length b)) by lia.
  split; [lia|]. split.
  - intros H0. rewrite H0. reflexivity.
  - intros Hn. exact (duration_value _ Hn).
Qed.

Lemma generateSpeech_duration_witness :
  exists url duration,
    Gemini.generateSpeech Some (Some (js "key")) (Some (js "AAAA")) = inr (url, duration) /\
    Num.positive_finite duration = true.
Proof.
  destruct (Gemini.generateSpeech Some (Some (js "key")) (Some (js "AAAA")))
    as [t|[url duration]] eqn:E.
  - vm_compute in E. discriminate E.
  - exists url, duration. split; [reflexivity|].
    destruct (generateSpeech_duration Some (Some (js "key")) (Some (js "AAAA")) url duration E)
      as (_ & _ & H).
    assert (L : List.length url = 48%nat).
    { vm_compute in E. injection E as <- _. reflexivity. }
    rewrite L in H. exact (proj1 (H ltac:(vm_compute; split; reflexivity))).
Defined.

(** The windows of a stamped list for a usable duration. *)
Lemma stamped_contiguous D segs :
  Num.positive_finite D = true -> totalWeight segs < 2 ^ 53 ->
  contiguous Num.zero (calculateTimestamps D segs).
Proof.
  intros HD HT. apply (accumulate_contiguous (shares D segs)).
  - split; reflexivity.
  - apply shares_good; assumption.
  - apply calculateTimestamps_windows.
Qed.

(** X7.  When the audio has been generated, [handleGenerateAndPlayAudio] stores
    the URL and the duration, ends the loading state, and stamps the
    segments of its render with the duration that [generateSpeech] computed
    from the audio bytes.  For audio of at most a day less a second and at
    most ten thousand segments the windows are contiguous from 0 and the last
    one ends within [1e-6] of the stored [audioDuration]; the element plays
    the generated WAV. *)
Theorem generated_audio_stamps_segments
    (atob : jsstring -> option jsstring) (apiKey base64Audio : option jsstring)
    (url : Wav.buffer) (duration : number) (r s : Player.State) :
  Gemini.generateSpeech atob apiKey base64Audio = inr (url, duration) ->
  Player.segments r <> [] ->
  Z.of_nat (List.length (Player.segments r)) <= Nmax ->
  totalWeight (Player.segments r) < 2 ^ 53 ->
  0 < Z.of_nat (List.length url) - 44 <= Gemini.maxBytes ->
  let s' := Player.afterGenerateSpeech r (inr (url, duration)) s in
  Player.audioUrl s' = Some url /\
  Player.audioDuration s' = duration /\
  Player.segments s' = calculateTimestamps duration (Player.segments r) /\
  contiguous Num.zero (Player.segments s') /\
  Num.is_finite (lastEndTime (Player.segments s')) = true /\
  (Qabs (Num.toQ (lastEndTime (Player.segments s'))
         - Num.toQ (Player.audioDuration s')) <= 1 # 1000000)%Q /\
  Player.isLoading s' = false /\
  exists a, Player.audioRef s' = Some a /\ Player.src a = url /\
            Player.plays a <> O.
Proof.
  intros E Hne Hn HT Hlen.
  destruct (generateSpeech_inr _ _ _ _ _ E) as (base64 & b & _ & _ & W & Hd).
  destruct (createWavUrl_returns (List.map (fun c => Z.of_N c mod 256) b) 24000)
    as (w & W' & HL).
  rewrite W in W'. apply some_inj in W'. subst w. rewrite length_map in HL.
  assert (Hb : 0 < Z.of_nat (List.length b) < 2 ^ 53).
  { unfold Gemini.maxBytes in Hlen. lia. }
  pose proof (duration_value _ Hb) as [HD HV]. cbv zeta in HD, HV. rewrite <- Hd in HD, HV.
  assert (HDmax : (Num.toQ duration <= Dmax)%Q).
  { assert (Hq : (inject_Z (Z.of_nat (List.length b)) <= inject_Z Gemini.maxBytes)%Q)
      by (rewrite <- Zle_Qle; lia).
    assert (Hp : (0 <= inject_Z (Z.of_nat (List.length b)))%Q)
      by (change 0%Q with (inject_Z 0); rewrite <- Zle_Qle; lia).
    change (inject_Z Gemini.maxBytes) with (4147152000 # 1)%Q in Hq.
    unfold Dmax.
    set (q := inject_Z (Z.of_nat (List.length b))) in *.
    assert (Q4 : (q / 48000 == q * (1 # 48000))%Q) by field.
    rewrite Q4 in HV. lra. }
  destruct r as [segs playing active rate aurl adur aref loading al].
  cbn [Player.segments Player.playbackRate] in *.
  destruct s as [segs' playing' active' rate' aurl' adur' aref' loading' al'].
  destruct segs as [|seg0 rest]; [congruence|].
  destruct (lastEndTime_within duration (seg0 :: rest) HD HT Hne HDmax Hn) as [Hf Hw].
  pose proof (stamped_contiguous duration (seg0 :: rest) HD HT) as Hc.
  cbv zeta. unfold Player.afterGenerateSpeech.
  destruct aref' as [a|];
    cbn -[calculateTimestamps lastEndTime Num.toQ contiguous Qabs Qle];
    (split; [reflexivity|]); (split; [reflexivity|]); (split; [reflexivity|]);
    (split; [exact Hc|]); (split; [exact Hf|]); (split; [exact Hw|]);
    (split; [reflexivity|]); eexists; (split; [reflexivity|]);
    cbn [Player.src Player.plays];
    (split; [reflexivity|]); discriminate.
Qed.

Lemma generated_audio_stamps_segments_witness :
  exists url duration,
    Gemini.generateSpeech Some (Some (js "key")) (Some (js "AAAA")) = inr (url, duration) /\
    let r := Player.setSegments der_hund Player.initial in
    let s' := Player.afterGenerateSpeech r (inr (url, duration)) r in
    Player.segments s' = calculateTimestamps duration der_hund /\
    contiguous Num.zero (Player.segments s') /\
    (Qabs (Num.toQ (lastEndTime (Player.segments s'))
           - Num.toQ (Player.audioDuration s')) <= 1 # 1000000)%Q.
Proof.
  destruct (Gemini.generateSpeech Some (Some (js "key")) (Some (js "AAAA")))
    as [t|[url duration]] eqn:E.
  - vm_compute in E. discriminate E.
  - exists url, duration. split; [reflexivity|].
    assert (L : List.length url = 48%nat).
    { vm_compute in E. injection E as <- _. reflexivity. }
    assert (H2 : Player.segments (Player.setSegments der_hund Player.initial) <> [])
      by discriminate.
    assert (H3 : Z.of_nat (List.length
                   (Player.segments (Player.setSegments der_hund Player.initial))) <= Nmax)
      by (vm_compute; discriminate).
    assert (H4 : totalWeight (Player.segments (Player.setSegments der_hund Player.initial))
                 < 2 ^ 53) by reflexivity.
    assert (H5 : 0 < Z.of_nat (List.length url) - 44 <= Gemini.maxBytes).
    { rewrite L. vm_compute. split; [reflexivity|discriminate]. }
    destruct (generated_audio_stamps_segments Some (Some (js "key")) (Some (js "AAAA"))
                url duration (Player.setSegments der_hund Player.initial)
                (Player.setSegments der_hund Player.initial) E H2 H3 H4 H5)
      as (_ & _ & Hs & Hc & _ & Hw & _).
    cbv zeta. split; [exact Hs|]. split; [exact Hc|exact Hw].
Defined.

(** X8.  [playAudio] sets the element to the playback rate of the render that
    created the handler.  A speed that is selected while the audio is being
    generated is stored in the state but is not applied: when the generation
    ends, the element plays at the rate of the render in which the button was
    pressed.  A speed that is selected afterwards is applied. *)
Theorem speed_selected_while_generating_is_not_applied
    (r s : Player.State) (rate : number) (url : Wav.buffer) (duration : number) :
  let during := Player.afterGenerateSpeech r (inr (url, duration))
                  (Player.changeSpeed rate s) in
  let after := Player.changeSpeed rate
                 (Player.afterGenerateSpeech r (inr (url, duration)) s) in
  (Player.playbackRate during = rate /\
   exists a, Player.audioRef during = Some a /\
             Player.elementRate a = Player.playbackRate r) /\
  (Player.playbackRate after = rate /\
   exists a, Player.audioRef after = Some a /\ Player.elementRate a = rate).
Proof.
  cbv zeta. destruct s as [segs playing active rate0 aurl adur aref loading al].
  unfold Player.afterGenerateSpeech, Player.changeSpeed.
  destruct aref as [a|]; destruct (0 <? List.length (Player.segments r))%nat;
    cbn -[calculateTimestamps];
    (split; (split; [reflexivity|]); eexists; (split; [reflexivity|]); reflexivity).
Qed.

(** * Seeking by a click *)

Lemma contiguous_nth a out : forall i si,
  contiguous a out -> Num.good a -> nth_error out i = Some si ->
  exists x b, startTime si = Some x /\ endTime si = Some b /\
              Num.good x /\ Num.good b /\ Num.leb x b = true.
Proof.
  revert a. induction out as [|s out IH]; intros a i si Hc Ha Hi.
  - destruct i; discriminate Hi.
  - cbn [contiguous] in Hc. destruct Hc as (Hst & b & Hen & Hg & Hle & Hc).
    destruct i as [|i].
    + injection Hi as <-. exists a, b. repeat split; try assumption; apply Ha || apply Hg.
    + exact (IH b i si Hc Hg Hi).
Qed.

Lemma good_not_nan x : Num.good x -> Num.is_nan x = false.
Proof. intros [_ Hn]. destruct x; try reflexivity. discriminate Hn. Qed.

(** A window of a contiguous list holds its own start and its own end. *)
Lemma inWindow_end a out i si b :
  contiguous a out -> Num.good a -> nth_error out i = Some si ->
  endTime si = Some b -> inWindow b si = true.
Proof.
  intros Hc Ha Hi Hb.
  destruct (contiguous_nth a out i si Hc Ha Hi) as (x & b' & Hx & Hb' & Gx & Gb & Hle).
  rewrite Hb in Hb'. injection Hb' as <-.
  unfold inWindow, endOrInfinity. rewrite Hx, Hb. unfold Num.geb. fold (Num.leb x b).
  rewrite Hle. cbn [andb].
  destruct (Num.truthy b).
  - apply NumFacts.SFleb_refl_nonneg. exact (proj2 Gb).
  - apply leb_infinity. apply good_not_nan. exact Gb.
Qed.

Lemma inWindow_start a out i si x :
  contiguous a out -> Num.good a -> nth_error out i = Some si ->
  startTime si = Some x -> inWindow x si = true.
Proof.
  intros Hc Ha Hi Hx.
  destruct (contiguous_nth a out i si Hc Ha Hi) as (x' & b & Hx' & Hb & Gx & Gb & Hle).
  rewrite Hx in Hx'. injection Hx' as <-.
  unfold inWindow, endOrInfinity. rewrite Hx, Hb. unfold Num.geb.
  change (SFleb x x) with (Num.leb x x).
  rewrite (NumFacts.SFleb_refl_nonneg x (proj2 Gx) : Num.leb x x = true). cbn [andb].
  destruct (Num.truthy b).
  - exact Hle.
  - apply leb_infinity. apply good_not_nan. exact Gx.
Qed.

Lemma findIndex_le {A : Type} (p : A -> bool) (l : list A) k x :
  nth_error l k = Some x -> p x = true ->
  exists j, findIndex p l = Some j /\ (j <= k)%nat.
Proof.
  intros Hk Hx.
  destruct (findIndex_found p l x (nth_error_In l k Hk) Hx) as (j & Hj).
  exists j. split; [exact Hj|].
  destruct (findIndex_Some p l j Hj) as (_ & _ & _ & Hfirst).
  destruct (Nat.le_gt_cases j k) as [H|H]; [exact H|].
  rewrite (Hfirst k x H Hk) in Hx. discriminate Hx.
Qed.

(** The lookup at the start of a window of a stamped list. *)
Lemma lookup_at_start D segs i si :
  Num.positive_finite D = true -> totalWeight segs < 2 ^ 53 ->
  nth_error (calculateTimestamps D segs) i = Some si ->
  exists x j, startTime si = Some x /\
              activeIndex x (calculateTimestamps D segs) = Some j /\
              (j <= i)%nat /\ (0 < i -> j < i)%nat.
Proof.
  intros HD HT Hi.
  pose proof (stamped_contiguous D segs HD HT) as Hc.
  assert (G0 : Num.good Num.zero) by (split; reflexivity).
  destruct (contiguous_nth _ _ i si Hc G0 Hi) as (x & b & Hx & Hb & Gx & Gb & Hle).
  exists x. destruct i as [|i].
  - destruct (findIndex_le (inWindow x) _ 0%nat si Hi
                (inWindow_start _ _ _ _ _ Hc G0 Hi Hx)) as (j & Hj & Hle0).
    exists j. repeat split; [exact Hx|exact Hj|exact Hle0|lia].
  - destruct (nth_error (calculateTimestamps D segs) i) as [sp|] eqn:Hp.
    2:{ apply nth_error_None in Hp. assert (nth_error (calculateTimestamps D segs) (S i) <> None)
          by (rewrite Hi; discriminate). apply nth_error_Some in H. lia. }
    pose proof (contiguous_next _ _ i sp si Hc Hp Hi) as Hnext.
    rewrite Hx in Hnext. symmetry in Hnext.
    destruct (findIndex_le (inWindow x) _ i sp Hp
                (inWindow_end _ _ _ _ _ Hc G0 Hp Hnext)) as (j & Hj & Hlej).
    exists j. repeat split; [exact Hx|exact Hj|lia|lia].
Qed.

(** X9.  A click on segment [i] of a stamped list highlights [i] and moves the
    audio to the start of its window.  That position is also the end of the
    window before, and the lookup, which takes the first window that holds
    the position, gives it to an earlier segment whenever [i] is not the
    first one. *)
Theorem click_seeks_into_earlier_window
    (D : number) (segs : list TextSegment) (s : Player.State) (a : Player.Audio)
    (i : nat) (si : TextSegment) :
  Num.positive_finite D = true ->
  totalWeight segs < 2 ^ 53 ->
  Player.segments s = calculateTimestamps D segs ->
  Player.audioRef s = Some a ->
  nth_error (Player.segments s) i = Some si ->
  let s' := Player.handleSegmentClick s i s in
  Player.activeSegmentIndex s' = Some i /\
  Player.segments s' = Player.segments s /\
  exists a' j,
    Player.audioRef s' = Some a' /\
    startTime si = Some (Player.currentTime a') /\
    activeIndex (Player.currentTime a') (Player.segments s') = Some j /\
    (j <= i)%nat /\ (0 < i -> j < i)%nat.
Proof.
  intros HD HT Hs Ha Hi. rewrite Hs in Hi.
  destruct (lookup_at_start D segs i si HD HT Hi) as (x & j & Hx & Hj & Hle & Hlt).
  destruct s as [sg playing active rate aurl adur aref loading al].
  cbn [Player.segments Player.audioRef] in Hs, Ha. subst sg aref.
  cbv zeta. unfold Player.handleSegmentClick.
  cbn [Player.segments Player.audioRef Player.isPlaying]. rewrite Hi, Hx.
  destruct playing; cbn;
    (split; [reflexivity|]); (split; [reflexivity|]);
    eexists _, j; (split; [reflexivity|]); cbn [Player.currentTime];
    (split; [reflexivity|]); (split; [exact Hj|]); (split; [exact Hle|exact Hlt]).
Qed.

Lemma click_seeks_into_earlier_window_witness :
  let s := Player.setAudio (Player.mkAudio [] Num.zero Num.NaN Num.lit_1_0 true 0 0 false)
             (Player.setSegments (calculateTimestamps (Num.of_Z 23) der_hund)
                Player.initial) in
  Player.activeSegmentIndex (Player.handleSegmentClick s 1 s) = Some 1%nat /\
  exists a',
    Player.audioRef (Player.handleSegmentClick s 1 s) = Some a' /\
    Player.currentTime a' = Num.of_Z 5 /\
    activeIndex (Player.currentTime a')
      (Player.segments (Player.handleSegmentClick s 1 s)) = Some 0%nat.
Proof.
  cbv zeta.
  set (s := Player.setAudio (Player.mkAudio [] Num.zero Num.NaN Num.lit_1_0 true 0 0 false)
             (Player.setSegments (calculateTimestamps (Num.of_Z 23) der_hund)
                Player.initial)).
  destruct (nth_error (Player.segments s) 1) as [si|] eqn:Hi;
    [|vm_compute in Hi; discriminate Hi].
  destruct (click_seeks_into_earlier_window (Num.of_Z 23) der_hund s
              (Player.mkAudio [] Num.zero Num.NaN Num.lit_1_0 true 0 0 false) 1 si
              eq_refl eq_refl eq_refl eq_refl Hi)
    as (Hact & _ & a' & j & Ha' & Ht & Hj & Hle & Hlt).
  split; [exact Hact|]. exists a'. split; [exact Ha'|].
  assert (Ej : j = 0%nat) by (specialize (Hlt ltac:(lia)); lia). subst j.
  split; [|exact Hj].
  vm_compute in Hi. injection Hi as <-. cbn [startTime] in Ht.
  injection Ht as <-. reflexivity.
Defined.

(** X10.  Before the segments are stamped nothing can be highlighted or sought: the
    lookup finds no segment at any position, and a click changes nothing.  A
    click on an index outside the list, or while there is no audio element,
    changes nothing either. *)
Theorem unstamped_segments_are_inert (r s : Player.State) (i : nat) (p : number) :
  ((forall seg, In seg (Player.segments r) -> startTime seg = None) ->
   activeIndex p (Player.segments r) = None /\ Player.handleSegmentClick r i s = s) /\
  (nth_error (Player.segments r) i = None -> Player.handleSegmentClick r i s = s) /\
  (Player.audioRef s = None -> Player.handleSegmentClick r i s = s).
Proof.
  split; [|split].
  - intros Hu. split.
    + unfold activeIndex. induction (Player.segments r) as [|seg rest IH]; [reflexivity|].
      cbn [findIndex]. unfold inWindow at 1. rewrite (Hu seg (or_introl eq_refl)).
      rewrite IH; [reflexivity|]. intros x Hx. apply Hu. right. exact Hx.
    + unfold Player.handleSegmentClick.
      destruct (nth_error (Player.segments r) i) as [seg|] eqn:Hi; [|reflexivity].
      destruct (Player.audioRef s); [|reflexivity].
      rewrite (Hu seg (nth_error_In _ _ Hi)). reflexivity.
  - intros Hi. unfold Player.handleSegmentClick. rewrite Hi. reflexivity.
  - intros Ha. unfold Player.handleSegmentClick. rewrite Ha.
    destruct (nth_error (Player.segments r) i); reflexivity.
Qed.

(** * Stamping again *)

Lemma stamp_content d ws T segs : forall i acc,
  Forall2 (fun a b => text a = text b /\ isWord a = isWord b /\
                      translation a = translation b)
          (fst (stamp d ws T i acc segs)) segs.
Proof.
  induction segs as [|s rest IH]; intros i acc; [constructor|].
  cbn [stamp]. specialize (IH (S i) (Num.add acc (segmentDuration d ws T i))).
  destruct (stamp d ws T (S i) (Num.add acc (segmentDuration d ws T i)) rest) as [out dv].
  cbn [fst] in *. constructor; [repeat split|exact IH].
Qed.

Lemma stamp_ext d ws T l1 l2 :
  Forall2 (fun a b => text a = text b /\ isWord a = isWord b /\
                      translation a = translation b) l1 l2 ->
  forall i acc, fst (stamp d ws T i acc l1) = fst (stamp d ws T i acc l2).
Proof.
  induction 1 as [|a b l1 l2 (Ht & Hw & Htr) _ IH]; intros i acc; [reflexivity|].
  cbn [stamp]. specialize (IH (S i) (Num.add acc (segmentDuration d ws T i))).
  destruct (stamp d ws T (S i) (Num.add acc (segmentDuration d ws T i)) l1) as [o1 d1].
  destruct (stamp d ws T (S i) (Num.add acc (segmentDuration d ws T i)) l2) as [o2 d2].
  cbn [fst] in *. rewrite Ht, Hw, Htr, IH. reflexivity.
Qed.

Lemma weights_ext l1 l2 :
  Forall2 (fun a b => text a = text b /\ isWord a = isWord b /\
                      translation a = translation b) l1 l2 ->
  weights l1 = weights l2.
Proof.
  induction 1 as [|a b l1 l2 (Ht & Hw & _) _ IH]; [reflexivity|].
  unfold weights in *. cbn [List.map]. rewrite IH. f_equal.
  unfold weight. rewrite Ht, Hw. reflexivity.
Qed.

(** X11.  Timestamps that the segments already carry leave no trace: stamping a
    stamped list for a duration gives what stamping the original list for
    that duration gives.  In particular stamping twice for the same duration
    is stamping once. *)
Theorem stamping_again_starts_afresh (D1 D2 : number) (segs : list TextSegment) :
  calculateTimestamps D2 (calculateTimestamps D1 segs) = calculateTimestamps D2 segs /\
  calculateTimestamps D1 (calculateTimestamps D1 segs) = calculateTimestamps D1 segs.
Proof.
  assert (H : forall Da Db,
             calculateTimestamps Db (calculateTimestamps Da segs) = calculateTimestamps Db segs).
  { intros Da Db. unfold calculateTimestamps at 1 3. unfold stampAll.
    assert (F : Forall2 (fun a b => text a = text b /\ isWord a = isWord b /\
                                    translation a = translation b)
                        (calculateTimestamps Da segs) segs)
      by apply stamp_content.
    unfold totalWeight. rewrite (weights_ext _ _ F). apply stamp_ext. exact F. }
  split; apply H.
Qed.

(** * One animation frame *)

(** X12.  What a frame of [syncHighlighting] can do.  Without an audio element, or
    when the callback was created while nothing played, it does nothing and
    asks for no further frame; otherwise it asks for one.  It never touches
    the segments or the element.  It moves the highlight only to the first
    segment, among those of its render, whose window holds the position of
    the audio, and only if that is not the segment that was highlighted in
    its render.  It clears the highlight, and it stops playback, only when
    the position has reached the duration of the audio. *)
Theorem frame_follows_the_lookup (r s : Player.State) :
  let s' := fst (Player.syncHighlighting r s) in
  let again := snd (Player.syncHighlighting r s) in
  Player.segments s' = Player.segments s /\
  Player.audioRef s' = Player.audioRef s /\
  (Player.audioRef s = None \/ Player.isPlaying r = false ->
   s' = s /\ again = false) /\
  (Player.audioRef s <> None -> Player.isPlaying r = true -> again = true) /\
  (Player.activeSegmentIndex s' <> Player.activeSegmentIndex s ->
   exists a, Player.audioRef s = Some a /\
     match Player.activeSegmentIndex s' with
     | Some i =>
         Player.activeSegmentIndex r <> Some i /\
         activeIndex (Player.currentTime a) (Player.segments r) = Some i /\
         exists seg,
           nth_error (Player.segments r) i = Some seg /\
           inWindow (Player.currentTime a) seg = true /\
           forall j y, (j < i)%nat -> nth_error (Player.segments r) j = Some y ->
                       inWindow (Player.currentTime a) y = false
     | None => Num.geb (Player.currentTime a) (Player.elementDuration a) = true
     end) /\
  (Player.isPlaying s' <> Player.isPlaying s ->
   Player.isPlaying s' = false /\ Player.activeSegmentIndex s' = None /\
   exists a, Player.audioRef s = Some a /\
             Num.geb (Player.currentTime a) (Player.elementDuration a) = true).
Proof.
  cbv zeta. unfold Player.syncHighlighting.
  destruct (Player.audioRef s) as [a|] eqn:Ha.
  2:{ cbn [fst snd]. repeat split; try reflexivity; try congruence; intros H; congruence. }
  destruct (Player.isPlaying r) eqn:Hc; cbn [negb fst snd].
  2:{ rewrite Ha. repeat split; try reflexivity; try congruence; intros H; congruence. }
  destruct (activeIndex (Player.currentTime a) (Player.segments r)) as [i|] eqn:Hi.
  - destruct (Player.differs i (Player.activeSegmentIndex r)) eqn:Hd.
    + cbn [Player.setActiveSegmentIndex Player.segments Player.audioRef
           Player.activeSegmentIndex Player.isPlaying].
      rewrite Ha. split; [reflexivity|]. split; [reflexivity|].
      split; [intros [H|H]; discriminate H|]. split; [reflexivity|]. split.
      * intros _. exists a. split; [reflexivity|]. split.
        { intros E. unfold Player.differs in Hd. rewrite E, Nat.eqb_refl in Hd.
          discriminate Hd. }
        split; [exact Hi|].
        destruct (findIndex_Some _ _ i Hi) as (seg & Hn & Hw & Hf).
        exists seg. split; [exact Hn|]. split; [exact Hw|exact Hf].
      * intros H. congruence.
    + destruct (Num.geb (Player.currentTime a) (Player.elementDuration a)) eqn:Hg.
      * cbn [Player.setActiveSegmentIndex Player.setIsPlaying Player.segments
             Player.audioRef Player.activeSegmentIndex Player.isPlaying].
        rewrite Ha. split; [reflexivity|]. split; [reflexivity|].
        split; [intros [H|H]; discriminate H|]. split; [reflexivity|]. split.
        -- intros _. exists a. split; [reflexivity|exact Hg].
        -- intros _. split; [reflexivity|]. split; [reflexivity|].
           exists a. split; [reflexivity|exact Hg].
      * rewrite Ha. split; [reflexivity|]. split; [reflexivity|].
        split; [intros [H|H]; discriminate H|]. split; [reflexivity|].
        split; intros H; congruence.
  - destruct (Num.geb (Player.currentTime a) (Player.elementDuration a)) eqn:Hg.
    + cbn [Player.setActiveSegmentIndex Player.setIsPlaying Player.segments
           Player.audioRef Player.activeSegmentIndex Player.isPlaying].
      rewrite Ha. split; [reflexivity|]. split; [reflexivity|].
      split; [intros [H|H]; discriminate H|]. split; [reflexivity|]. split.
      * intros _. exists a. split; [reflexivity|exact Hg].
      * intros _. split; [reflexivity|]. split; [reflexivity|].
        exists a. split; [reflexivity|exact Hg].
    + rewrite Ha. split; [reflexivity|]. split; [reflexivity|].
      split; [intros [H|H]; discriminate H|]. split; [reflexivity|].
      split; intros H; congruence.
Qed.

(** * The lookup on stamped segments *)

Lemma contiguous_chained out : forall a,
  contiguous a out -> Num.good a -> out <> [] ->
  chained (lastEndTime out) out = true.
Proof.
  induction out as [|s rest IH]; intros a Hc Ha Hne; [congruence|].
  cbn [contiguous] in Hc. destruct Hc as (Hst & b & Hen & Hg & Hle & Hc).
  cbn [chained]. rewrite Hst, Hen.
  destruct rest as [|s' rest'].
  - cbn [lastEndTime]. unfold endOf. rewrite Hen.
    apply NumFacts.SFleb_refl_nonneg. exact (proj2 Hg).
  - change (lastEndTime (s :: s' :: rest')) with (lastEndTime (s' :: rest')).
    rewrite (IH b Hc Hg) by discriminate. rewrite andb_true_r.
    cbn [contiguous] in Hc. destruct Hc as (Hst' & _).
    unfold startOf. rewrite Hst'.
    apply NumFacts.SFleb_refl_nonneg. exact (proj2 Hg).
Qed.

(** X13.  The windows that the allocator stamps for a finite duration above zero
    leave no position of the audio without a segment: from 0 up to the last
    [endTime] the lookup always finds one, the first whose window holds the
    position. *)
Theorem lookup_covers_the_stamped_audio
    (D p : number) (segs : list TextSegment) :
  Num.positive_finite D = true ->
  totalWeight segs < 2 ^ 53 ->
  segs <> [] ->
  Num.leb Num.zero p = true ->
  Num.leb p (lastEndTime (calculateTimestamps D segs)) = true ->
  exists i si,
    activeIndex p (calculateTimestamps D segs) = Some i /\
    nth_error (calculateTimestamps D segs) i = Some si /\
    inWindow p si = true /\
    forall j sj, (j < i)%nat -> nth_error (calculateTimestamps D segs) j = Some sj ->
                 inWindow p sj = false.
Proof.
  intros HD HT Hne H0 Hp.
  pose proof (stamped_contiguous D segs HD HT) as Hc.
  assert (G0 : Num.good Num.zero) by (split; reflexivity).
  assert (Hout : calculateTimestamps D segs <> []).
  { intros E. apply (f_equal (List.map text)) in E.
    unfold calculateTimestamps, stampAll in E.
    destruct (stamp_frame D (weights segs) (totalWeight segs) segs 0 Num.zero) as (Ht & _).
    rewrite Ht in E. destruct segs; [congruence|discriminate E]. }
  pose proof (contiguous_chained _ _ Hc G0 Hout) as Hch.
  set (out := calculateTimestamps D segs) in *.
  assert (Hfirst : match out with s :: _ => Num.leb (startOf s) p = true | [] => True end).
  { destruct out as [|s0 rest]; [exact I|].
    cbn [contiguous] in Hc. destruct Hc as (Hst & _).
    unfold startOf. rewrite Hst. exact H0. }
  destruct (chained_covers _ p out Hch Hfirst Hp) as (x & Hx & Hwx).
  destruct (findIndex_found (inWindow p) out x Hx Hwx) as [i Hi].
  destruct (findIndex_Some (inWindow p) out i Hi) as (s & Hn & Hs & Hmin).
  exists i, s. repeat split; assumption.
Qed.

Lemma lookup_covers_the_stamped_audio_witness :
  exists i si,
    activeIndex (Num.of_Z 11) (calculateTimestamps (Num.of_Z 23) der_hund) = Some i /\
    nth_error (calculateTimestamps (Num.of_Z 23) der_hund) i = Some si /\
    inWindow (Num.of_Z 11) si = true.
Proof.
  destruct (lookup_covers_the_stamped_audio (Num.of_Z 23) (Num.of_Z 11) der_hund
              eq_refl eq_refl ltac:(discriminate) eq_refl
              ltac:(vm_compute; reflexivity)) as (i & si & H1 & H2 & H3 & _).
  exists i, si. split; [exact H1|]. split; [exact H2|exact H3].
Defined.

(** X14.  With a duration of zero every window is stamped [[0, 0]], and an
    [endTime] of 0 counts as missing ([s.endTime || Infinity]): the window of
    the first segment is open-ended, and the lookup gives every position
    from 0 on to the first segment. *)
Theorem zero_duration_highlights_the_first_segment
    (D p : number) (segs : list TextSegment) :
  Num.is_zero D = true ->
  totalWeight segs < 2 ^ 53 ->
  segs <> [] ->
  Num.leb Num.zero p = true ->
  activeIndex p (calculateTimestamps D segs) = Some 0%nat.
Proof.
  intros HD HT Hne H0.
  assert (Hs : Forall (fun x => Num.is_zero x = true) (shares D segs)).
  { unfold shares. apply Forall_forall. intros x Hx.
    apply in_map_iff in Hx as (s & <- & Hin).
    pose proof (weight_ge_2 s). pose proof (weight_le_total segs s Hin).
    apply portion_zero; [exact HD|lia|lia]. }
  pose proof (calculateTimestamps_windows D segs) as Hw.
  rewrite (accumulate_zero _ Hs) in Hw.
  destruct segs as [|s0 rest]; [congruence|].
  destruct (calculateTimestamps D (s0 :: rest)) as [|o0 orest]; [discriminate Hw|].
  unfold shares in Hw. cbn [List.map] in Hw. unfold window at 1 in Hw.
  injection Hw as Hst Hen _.
  unfold activeIndex. cbn [findIndex].
  unfold inWindow, endOrInfinity. rewrite Hst, Hen. cbn [Num.truthy Num.zero].
  unfold Num.geb. fold (Num.leb Num.zero p). rewrite H0. cbn [andb].
  rewrite leb_infinity; [reflexivity|].
  exact (proj2 (leb_not_nan _ _ H0)).
Qed.

Lemma zero_duration_highlights_the_first_segment_witness :
  activeIndex (Num.of_Z 1000) (calculateTimestamps Num.zero der_hund) = Some 0%nat.
Proof.
  exact (zero_duration_highlights_the_first_segment Num.zero (Num.of_Z 1000) der_hund
           eq_refl eq_refl ltac:(discriminate) eq_refl).
Defined.

(** X15.  On stamped segments the lookup is monotone in the position: of two
    positions, the later one is never given to an earlier segment than the
    earlier one.  This is a fact about the lookup alone, not about the
    highlight, which a click can set to a later segment than the lookup
    finds. *)
Theorem lookup_never_moves_backwards
    (D p q : number) (segs : list TextSegment) (i j : nat) :
  Num.positive_finite D = true ->
  totalWeight segs < 2 ^ 53 ->
  Num.leb p q = true ->
  activeIndex p (calculateTimestamps D segs) = Some i ->
  activeIndex q (calculateTimestamps D segs) = Some j ->
  (i <= j)%nat.
Proof.
  intros HD HT Hpq Hi Hj.
  pose proof (stamped_contiguous D segs HD HT) as Hc.
  set (out := calculateTimestamps D segs) in *.
  destruct (findIndex_Some _ _ i Hi) as (si & Hni & Hwi & Hfirst).
  destruct (findIndex_Some _ _ j Hj) as (sj & Hnj & Hwj & _).
  destruct (Nat.le_gt_cases i j) as [H|H]; [exact H|exfalso].
  (* the window of [j] holds [q], and it starts no later than the one of [i] *)
  pose proof (Hfirst j sj H Hnj) as Hno.
  destruct (contiguous_pairs _ _ j i sj si Hc H Hnj Hni) as [_ Hstarts].
  unfold inWindow in Hwi, Hwj, Hno.
  destruct (startTime si) as [ai|] eqn:Eai; [|discriminate Hwi].
  destruct (startTime sj) as [aj|] eqn:Eaj; [|discriminate Hwj].
  apply andb_true_iff in Hwi as [Hai _].
  apply andb_true_iff in Hwj as [_ Hqe].
  unfold startOf in Hstarts. rewrite Eai, Eaj in Hstarts.
  unfold Num.geb in Hai, Hno. fold (Num.leb ai p) in Hai. fold (Num.leb aj p) in Hno.
  rewrite (leb_trans _ _ _ Hstarts Hai) in Hno. cbn [andb] in Hno.
  rewrite (leb_trans _ _ _ Hpq Hqe) in Hno. discriminate Hno.
Qed.

Lemma lookup_never_moves_backwards_witness :
  exists i j,
    activeIndex (Num.of_Z 3) (calculateTimestamps (Num.of_Z 23) der_hund) = Some i /\
    activeIndex (Num.of_Z 12) (calculateTimestamps (Num.of_Z 23) der_hund) = Some j /\
    (i <= j)%nat.
Proof.
  exists 0%nat, 2%nat.
  assert (Hi : activeIndex (Num.of_Z 3) (calculateTimestamps (Num.of_Z 23) der_hund)
               = Some 0%nat) by (vm_compute; reflexivity).
  assert (Hj : activeIndex (Num.of_Z 12) (calculateTimestamps (Num.of_Z 23) der_hund)
               = Some 2%nat) by (vm_compute; reflexivity).
  split; [exact Hi|]. split; [exact Hj|].
  exact (lookup_never_moves_backwards (Num.of_Z 23) (Num.of_Z 3) (Num.of_Z 12) der_hund
           0 2 eq_refl eq_refl eq_refl Hi Hj).
Defined.

(** * A single segment *)

(** Shifting out bits that are all zero loses nothing. *)
Lemma shr_1_clean y :
  0 <= y ->
  shr_1 {| shr_m := 2 * y; shr_r := false; shr_s := false |}
  = {| shr_m := y; shr_r := false; shr_s := false |}.
Proof.
  intros Hy. destruct y as [|p|p]; [reflexivity|reflexivity|lia].
Qed.

Lemma iter_shr_1_clean p : forall m x,
  0 <= x -> m = x * 2 ^ Zpos p ->
  iter_pos shr_1 p {| shr_m := m; shr_r := false; shr_s := false |}
  = {| shr_m := x; shr_r := false; shr_s := false |}.
Proof.
  induction p as [p IH | p IH |]; intros m x Hx Hm; cbn [iter_pos].
  - assert (P : 0 < 2 ^ Zpos p) by (apply Z.pow_pos_nonneg; lia).
    replace m with (2 * (x * 2 ^ Zpos p * 2 ^ Zpos p)).
    2:{ rewrite Hm. replace (Zpos p~1) with (1 + Zpos p + Zpos p) by lia.
        rewrite !Z.pow_add_r by lia. lia. }
    rewrite shr_1_clean by nia.
    rewrite (IH _ (x * 2 ^ Zpos p)) by (nia || reflexivity).
    apply IH; [exact Hx|reflexivity].
  - assert (P : 0 < 2 ^ Zpos p) by (apply Z.pow_pos_nonneg; lia).
    rewrite (IH m (x * 2 ^ Zpos p)).
    + apply IH; [exact Hx|reflexivity].
    + nia.
    + rewrite Hm. replace (Zpos p~0) with (Zpos p + Zpos p) by lia.
      rewrite !Z.pow_add_r by lia. lia.
  - rewrite Hm. replace (x * 2 ^ 1) with (2 * x) by lia. apply shr_1_clean. exact Hx.
Qed.

(** Rounding a canonical double that is written with a longer mantissa gives
    the double back. *)
Lemma round_exact_shift m e k :
  bounded Num.prec Num.emax m e = true -> 0 <= k ->
  binary_round_aux Num.prec Num.emax false (Zpos m * 2 ^ k) (e - k) loc_Exact
  = S754_finite false m e.
Proof.
  intros Hb Hk. pose proof Hb as Hb'. unfold bounded in Hb'.
  apply andb_true_iff in Hb' as [Hc He].
  apply NumFacts.canonical_iff in Hc. apply Z.leb_le in He.
  assert (D : Zdigits2 (Zpos m * 2 ^ k) + (e - k) = Zpos (digits2_pos m) + e).
  { rewrite NumFacts.Zdigits2_shl by lia. cbn [Zdigits2]. lia. }
  assert (S1 : shr_fexp Num.prec Num.emax (Zpos m * 2 ^ k) (e - k) loc_Exact
               = ({| shr_m := Zpos m; shr_r := false; shr_s := false |}, e)).
  { unfold shr_fexp. rewrite D, Hc. cbn [shr_record_of_loc].
    replace (e - (e - k)) with k by lia. unfold shr.
    destruct k as [|p|p]; [|clear D|lia].
    - rewrite Z.mul_1_r, Z.sub_0_r. reflexivity.
    - rewrite (iter_shr_1_clean p _ (Zpos m)) by (lia || reflexivity).
      f_equal. lia. }
  assert (S2 : shr_fexp Num.prec Num.emax (Zpos m) e loc_Exact
               = ({| shr_m := Zpos m; shr_r := false; shr_s := false |}, e)).
  { unfold shr_fexp. cbn [Zdigits2]. rewrite Hc, Z.sub_diag. reflexivity. }
  unfold binary_round_aux. rewrite S1.
  cbn [shr_m loc_of_shr_record round_nearest_even]. rewrite S2. cbn [shr_m].
  apply Z.leb_le in He. rewrite He. reflexivity.
Qed.

(** A finite double above zero divided by itself is [1]. *)
Lemma div_self m e :
  Num.div (S754_finite false m e) (S754_finite false m e) = Num.lit_1_0.
Proof.
  unfold Num.div. cbn [SFdiv xorb]. unfold SFdiv_core_binary.
  replace (Zdigits2 (Zpos m) + e - (Zdigits2 (Zpos m) + e)) with 0 by lia.
  rewrite Z.sub_diag.
  change (Z.min (fexp Num.prec Num.emax 0) 0) with (-53).
  change (0 - -53) with 53. cbv zeta iota.
  assert (E : Z.div_eucl (Z.shiftl (Zpos m) 53) (Zpos m) = (2 ^ 53, 0)).
  { pose proof (Z.div_eucl_eq (Z.shiftl (Zpos m) 53) (Zpos m) ltac:(lia)) as H.
    pose proof (Z.mod_pos_bound (Z.shiftl (Zpos m) 53) (Zpos m) ltac:(lia)) as Hr.
    unfold Z.modulo in Hr.
    rewrite Z.shiftl_mul_pow2 in * by lia.
    destruct (Z.div_eucl (Zpos m * 2 ^ 53) (Zpos m)) as [q r].
    assert (Hq : q = 2 ^ 53) by nia. subst q.
    f_equal. lia. }
  rewrite E. unfold new_location.
  destruct (Z.even (Zpos m)); reflexivity.
Qed.

(** [1] times a finite double above zero is that double. *)
Lemma mul_one m e :
  bounded Num.prec Num.emax m e = true ->
  Num.mul Num.lit_1_0 (S754_finite false m e) = S754_finite false m e.
Proof.
  intros Hb. unfold Num.mul, Num.lit_1_0. cbn [SFmul xorb].
  rewrite Pos2Z.inj_mul.
  replace (Zpos 4503599627370496 * Zpos m) with (Zpos m * 2 ^ 52) by lia.
  replace (-52 + e) with (e - 52) by lia.
  apply round_exact_shift; [exact Hb|lia].
Qed.

(** X16.  A text of a single segment gets the whole audio: for a finite duration
    above zero its window is exactly [[0, duration]], whatever the segment
    is.  Nothing is lost to rounding here, since the share is
    [(w / w) * duration]. *)
Theorem single_segment_gets_the_whole_duration
    (duration : number) (s : TextSegment) :
  Num.positive_finite duration = true ->
  weight s < 2 ^ 53 ->
  calculateTimestamps duration [s]
  = [mkTextSegment (text s) (translation s) (isWord s)
                   (Some Num.zero) (Some duration)].
Proof.
  intros HD Hw. pose proof (weight_ge_2 s) as H2.
  unfold calculateTimestamps, stampAll, weights, totalWeight.
  cbn [List.map fold_left stamp fst]. unfold segmentDuration. cbn [nth_error].
  unfold weights. cbn [List.map fold_left]. rewrite Z.add_0_l. unfold portion.
  destruct (of_Z_exact (weight s) ltac:(lia)) as (m & e & -> & _ & _).
  rewrite div_self.
  destruct duration as [sd|sd| |[|] mD eD]; try discriminate HD.
  cbn [Num.positive_finite] in HD. rewrite (mul_one mD eD HD). reflexivity.
Qed.

Lemma single_segment_gets_the_whole_duration_witness :
  calculateTimestamps (Num.of_Z 23) [word "Hund"]
  = [mkTextSegment (js "Hund") None true (Some Num.zero) (Some (Num.of_Z 23))].
Proof.
  exact (single_segment_gets_the_whole_duration (Num.of_Z 23) (word "Hund")
           eq_refl eq_refl).
Defined.

(** * The flashcards *)

Lemma displacement_repeat_forward k :
  Flashcards.displacement (repeat Flashcards.Forward k) = Z.of_nat k.
Proof. induction k as [|k IH]; [reflexivity|]. cbn [repeat Flashcards.displacement]. lia. Qed.

Section CardFacts.

Variable vocabulary : list WordPair.
Hypothesis nonempty : vocabulary <> [].

Let n := Z.of_nat (List.length vocabulary).

Lemma cards_n_pos : 0 < n.
Proof. unfold n. destruct vocabulary; [congruence|]. cbn [List.length]. lia. Qed.

Lemma update_forward i :
  0 <= i < n ->
  Flashcards.update vocabulary Flashcards.Forward (Flashcards.Index i)
  = Flashcards.Index ((i + 1) mod n).
Proof.
  intros Hi. pose proof cards_n_pos as Hn. unfold Flashcards.update. fold n.
  cbn [Flashcards.plus Flashcards.remainder].
  destruct (Z.eqb_spec n 0) as [E|_]; [lia|].
  rewrite Z.rem_mod_nonneg by lia. reflexivity.
Qed.

Lemma update_backward i :
  0 <= i < n ->
  Flashcards.update vocabulary Flashcards.Backward (Flashcards.Index i)
  = Flashcards.Index ((i - 1) mod n).
Proof.
  intros Hi. pose proof cards_n_pos as Hn. unfold Flashcards.update. fold n.
  cbn [Flashcards.plus Flashcards.remainder].
  destruct (Z.eqb_spec n 0) as [E|_]; [lia|].
  rewrite Z.rem_mod_nonneg by lia. f_equal.
  replace (i + -1 + n) with (i - 1 + 1 * n) by lia.
  apply Z.mod_add. lia.
Qed.

Lemma updateAll_value us : forall i,
  0 <= i < n ->
  Flashcards.updateAll vocabulary us (Flashcards.Index i)
  = Flashcards.Index ((i + Flashcards.displacement us) mod n).
Proof.
  pose proof cards_n_pos as Hn.
  induction us as [|u us IH]; intros i Hi.
  - cbn. rewrite Z.add_0_r, Z.mod_small by lia. reflexivity.
  - unfold Flashcards.updateAll in *. cbn [fold_left].
    destruct u.
    + rewrite update_forward by exact Hi.
      rewrite IH by (apply Z.mod_pos_bound; lia).
      cbn [Flashcards.displacement]. f_equal.
      rewrite Zplus_mod_idemp_l. f_equal. lia.
    + rewrite update_backward by exact Hi.
      rewrite IH by (apply Z.mod_pos_bound; lia).
      cbn [Flashcards.displacement]. f_equal.
      rewrite Zplus_mod_idemp_l. f_equal. lia.
Qed.

Lemma card_in_range i :
  0 <= i < n ->
  exists w, nth_error vocabulary (Z.to_nat i) = Some w.
Proof.
  intros Hi. destruct (nth_error vocabulary (Z.to_nat i)) as [w|] eqn:E; [exists w; reflexivity|].
  apply nth_error_None in E. unfold n in Hi. lia.
Qed.

Lemma step_in_range s e :
  (exists i, Flashcards.currentCardIndex s = Flashcards.Index i /\ 0 <= i < n) ->
  exists i, Flashcards.currentCardIndex (Flashcards.step vocabulary s e) = Flashcards.Index i /\
            0 <= i < n.
Proof.
  pose proof cards_n_pos as Hn.
  intros (i & Hi & Hr). destruct e; cbn [Flashcards.step].
  - exists i. split; [exact Hi|exact Hr].
  - exists i. split; [exact Hi|exact Hr].
  - unfold Flashcards.fire. destruct (Flashcards.timers s) as [|u rest].
    + exists i. split; [exact Hi|exact Hr].
    + cbn [Flashcards.currentCardIndex]. rewrite Hi. destruct u.
      * rewrite update_forward by exact Hr. eexists. split; [reflexivity|].
        apply Z.mod_pos_bound. lia.
      * rewrite update_backward by exact Hr. eexists. split; [reflexivity|].
        apply Z.mod_pos_bound. lia.
  - exists i. split; [exact Hi|exact Hr].
  - exists 0. split; [reflexivity|lia].
Qed.

Lemma run_in_range events : forall s,
  (exists i, Flashcards.currentCardIndex s = Flashcards.Index i /\ 0 <= i < n) ->
  exists i, Flashcards.currentCardIndex (Flashcards.run vocabulary events s)
            = Flashcards.Index i /\ 0 <= i < n.
Proof.
  induction events as [|e events IH]; intros s Hs; [exact Hs|].
  cbn [Flashcards.run fold_left]. apply IH. apply step_in_range. exact Hs.
Qed.

End CardFacts.

(** X17.  With a vocabulary that is not empty, the card index stays a valid index
    whatever happens: clicks on the two arrows, firing timers, flips and
    changes of phase, in any order, always leave a card of the vocabulary on
    screen. *)
Theorem cards_always_show_a_card
    (vocabulary : list WordPair) (events : list Flashcards.Event) :
  vocabulary <> [] ->
  exists i w,
    Flashcards.currentCardIndex (Flashcards.run vocabulary events Flashcards.initial)
      = Flashcards.Index i /\
    0 <= i < Z.of_nat (List.length vocabulary) /\
    Flashcards.card vocabulary (Flashcards.run vocabulary events Flashcards.initial)
      = Some w.
Proof.
  intros Hne.
  destruct (run_in_range vocabulary Hne events Flashcards.initial) as (i & Hi & Hr).
  { exists 0. split; [reflexivity|]. pose proof (cards_n_pos vocabulary Hne). lia. }
  destruct (card_in_range vocabulary i Hr) as (w & Hw).
  exists i, w. split; [exact Hi|]. split; [exact Hr|].
  unfold Flashcards.card. rewrite Hi.
  destruct (Z.ltb_spec i 0) as [H|_]; [lia|exact Hw].
Qed.

Lemma cards_always_show_a_card_witness :
  exists i w,
    Flashcards.currentCardIndex
      (Flashcards.run vocab3
         [Flashcards.Prev; Flashcards.Fire; Flashcards.Next; Flashcards.Next;
          Flashcards.Fire; Flashcards.Reset; Flashcards.Fire]
         Flashcards.initial) = Flashcards.Index i /\
    0 <= i < Z.of_nat (List.length vocab3) /\
    Flashcards.card vocab3
      (Flashcards.run vocab3
         [Flashcards.Prev; Flashcards.Fire; Flashcards.Next; Flashcards.Next;
          Flashcards.Fire; Flashcards.Reset; Flashcards.Fire]
         Flashcards.initial) = Some w.
Proof.
  apply (cards_always_show_a_card vocab3). discriminate.
Defined.

(** X18.  With a vocabulary of [n > 0] words and a card index in range, one step
    forward and one step back undo each other, the last card is followed by
    the first and the first is preceded by the last. *)
Theorem cards_forward_backward
    (vocabulary : list WordPair) (i : Z) :
  vocabulary <> [] ->
  0 <= i < Z.of_nat (List.length vocabulary) ->
  let n := Z.of_nat (List.length vocabulary) in
  let forward := Flashcards.update vocabulary Flashcards.Forward in
  let backward := Flashcards.update vocabulary Flashcards.Backward in
  backward (forward (Flashcards.Index i)) = Flashcards.Index i /\
  forward (backward (Flashcards.Index i)) = Flashcards.Index i /\
  forward (Flashcards.Index (n - 1)) = Flashcards.Index 0 /\
  backward (Flashcards.Index 0) = Flashcards.Index (n - 1).
Proof.
  intros Hne Hi. cbv zeta.
  pose proof (cards_n_pos vocabulary Hne) as Hn. cbv zeta in Hn.
  assert (R1 : 0 <= (i + 1) mod Z.of_nat (List.length vocabulary)
               < Z.of_nat (List.length vocabulary)) by (apply Z.mod_pos_bound; lia).
  assert (R2 : 0 <= (i - 1) mod Z.of_nat (List.length vocabulary)
               < Z.of_nat (List.length vocabulary)) by (apply Z.mod_pos_bound; lia).
  rewrite (update_forward vocabulary Hne i Hi), (update_backward vocabulary Hne _ R1).
  rewrite (update_backward vocabulary Hne i Hi), (update_forward vocabulary Hne _ R2).
  rewrite (update_forward vocabulary Hne (Z.of_nat (List.length vocabulary) - 1)) by lia.
  rewrite (update_backward vocabulary Hne 0) by lia.
  set (n := Z.of_nat (List.length vocabulary)) in *.
  assert (E1 : ((i + 1) mod n - 1) mod n = i).
  { rewrite Zminus_mod_idemp_l.
    replace (i + 1 - 1) with i by lia. apply Z.mod_small. lia. }
  assert (E2 : ((i - 1) mod n + 1) mod n = i).
  { rewrite Zplus_mod_idemp_l. replace (i - 1 + 1) with i by lia. apply Z.mod_small. lia. }
  assert (E3 : (n - 1 + 1) mod n = 0).
  { replace (n - 1 + 1) with (1 * n) by lia. apply Z.mod_mul. lia. }
  assert (E4 : (0 - 1) mod n = n - 1).
  { replace (0 - 1) with (n - 1 + (-1) * n) by lia. rewrite Z.mod_add by lia.
    apply Z.mod_small. lia. }
  rewrite E1, E2, E3, E4. repeat split.
Qed.

Lemma cards_forward_backward_witness :
  Flashcards.update vocab3 Flashcards.Backward
    (Flashcards.update vocab3 Flashcards.Forward (Flashcards.Index 2))
  = Flashcards.Index 2 /\
  Flashcards.update vocab3 Flashcards.Forward (Flashcards.Index 2) = Flashcards.Index 0 /\
  Flashcards.update vocab3 Flashcards.Backward (Flashcards.Index 0) = Flashcards.Index 2.
Proof.
  destruct (cards_forward_backward vocab3 2 ltac:(discriminate) ltac:(vm_compute; split; [discriminate|reflexivity]))
    as (H1 & _ & H3 & H4).
  split; [exact H1|]. split; [exact H3|exact H4].
Defined.

Lemma cards_run_app vocabulary es1 es2 s :
  Flashcards.run vocabulary (es1 ++ es2) s
  = Flashcards.run vocabulary es2 (Flashcards.run vocabulary es1 s).
Proof. apply fold_left_app. Qed.

Lemma cards_run_cons vocabulary e es s :
  Flashcards.run vocabulary (e :: es) s
  = Flashcards.run vocabulary es (Flashcards.step vocabulary s e).
Proof. reflexivity. Qed.

Lemma cards_run_clicks vocabulary us : forall s,
  Flashcards.run vocabulary (List.map Flashcards.click us) s
  = Flashcards.mkCards (Flashcards.currentCardIndex s)
      (match us with [] => Flashcards.isFlipped s | _ :: _ => false end)
      (Flashcards.timers s ++ us).
Proof.
  induction us as [|u us IH]; intros s.
  - cbn. rewrite app_nil_r. destruct s; reflexivity.
  - cbn [List.map]. rewrite cards_run_cons, IH.
    destruct u; cbn; rewrite <- app_assoc; destruct us; reflexivity.
Qed.

Lemma cards_run_fires vocabulary us : forall i flipped,
  Flashcards.run vocabulary (repeat Flashcards.Fire (List.length us))
    (Flashcards.mkCards i flipped us)
  = Flashcards.mkCards (Flashcards.updateAll vocabulary us i) flipped [].
Proof.
  induction us as [|u us IH]; intros i flipped; [reflexivity|].
  cbn [List.length repeat]. rewrite cards_run_cons.
  cbn [Flashcards.step]. unfold Flashcards.fire.
  cbn [Flashcards.timers Flashcards.currentCardIndex Flashcards.isFlipped].
  rewrite IH. reflexivity.
Qed.

(** X19.  Steps that are pending add up, and no click is lost however fast the
    clicks come: when the arrows have been clicked any number of times
    before the first timer fires, and then all timers have fired, the card
    index is the old one plus the net number of steps forward, modulo the
    number of words, and the card shows its front.  The order of the steps
    does not matter, and as many steps forward as there are words lead back
    to the same card. *)
Theorem cards_updaters_add_up
    (vocabulary : list WordPair) (us : list Flashcards.Updater) (i : Z)
    (flipped : bool) :
  vocabulary <> [] ->
  0 <= i < Z.of_nat (List.length vocabulary) ->
  let n := Z.of_nat (List.length vocabulary) in
  Flashcards.updateAll vocabulary us (Flashcards.Index i)
    = Flashcards.Index ((i + Flashcards.displacement us) mod n) /\
  Flashcards.run vocabulary
    (List.map Flashcards.click us ++ repeat Flashcards.Fire (List.length us))
    (Flashcards.mkCards (Flashcards.Index i) flipped [])
    = Flashcards.mkCards (Flashcards.Index ((i + Flashcards.displacement us) mod n))
        (match us with [] => flipped | _ :: _ => false end) [] /\
  Flashcards.updateAll vocabulary (repeat Flashcards.Forward (List.length vocabulary))
    (Flashcards.Index i) = Flashcards.Index i.
Proof.
  intros Hne Hi. cbv zeta. pose proof (cards_n_pos vocabulary Hne) as Hn.
  split; [exact (updateAll_value vocabulary Hne us i Hi)|]. split.
  - rewrite cards_run_app, cards_run_clicks.
    cbn [Flashcards.currentCardIndex Flashcards.isFlipped Flashcards.timers app].
    rewrite cards_run_fires, (updateAll_value vocabulary Hne us i Hi). reflexivity.
  - rewrite (updateAll_value vocabulary Hne _ i Hi), displacement_repeat_forward.
    assert (E : (i + Z.of_nat (List.length vocabulary))
                mod Z.of_nat (List.length vocabulary) = i).
    { replace (i + Z.of_nat (List.length vocabulary))
        with (i + 1 * Z.of_nat (List.length vocabulary)) by lia.
      rewrite Z.mod_add by lia. apply Z.mod_small. exact Hi. }
    rewrite E. reflexivity.
Qed.

Lemma cards_updaters_add_up_witness :
  Flashcards.updateAll vocab3
    [Flashcards.Forward; Flashcards.Backward; Flashcards.Backward] (Flashcards.Index 0)
  = Flashcards.Index 2 /\
  Flashcards.run vocab3
    [Flashcards.Next; Flashcards.Prev; Flashcards.Prev;
     Flashcards.Fire; Flashcards.Fire; Flashcards.Fire]
    (Flashcards.mkCards (Flashcards.Index 0) true [])
  = Flashcards.mkCards (Flashcards.Index 2) false [] /\
  Flashcards.updateAll vocab3 (repeat Flashcards.Forward 3) (Flashcards.Index 1)
  = Flashcards.Index 1.
Proof.
  destruct (cards_updaters_add_up vocab3
              [Flashcards.Forward; Flashcards.Backward; Flashcards.Backward] 0 true
              ltac:(discriminate)
              ltac:(vm_compute; split; [discriminate|reflexivity])) as (H1 & H2 & _).
  split; [exact H1|]. split; [exact H2|].
  exact (proj2 (proj2 (cards_updaters_add_up vocab3 [] 1 true
                         ltac:(discriminate)
                         ltac:(vm_compute; split; [discriminate|reflexivity])))).
Defined.

(** * What holds of a session at all times *)

Section Coherent.

Variable vocabulary : list WordPair.

Ltac session_cbn :=
  cbn [call setRef setSuggestopediaActive setSuggestopediaWordIndex
       setSuggestopediaStep setPending suggestopediaActive
       suggestopediaActiveRef suggestopediaWordIndex suggestopediaStep
       pending speech shown negb fst snd stopSuggestopedia] in *.

Ltac settle :=
  repeat split; session_cbn;
  try assumption; try congruence;
  try (apply Forall_app; split; [assumption|constructor; [|constructor]]).

Lemma speak_german w :
  In w vocabulary ->
  Coherence.fromVocabulary vocabulary (CallSpeak (german w) de_DE Num.lit_0_8).
Proof. intros Hw. exists w. split; [exact Hw|]. left. repeat split. Qed.

Lemma speak_bulgarian w :
  In w vocabulary ->
  Coherence.fromVocabulary vocabulary (CallSpeak (bulgarian w) bg_BG Num.lit_1_0).
Proof. intros Hw. exists w. split; [exact Hw|]. right. repeat split. Qed.

Lemma Forall_snoc {A : Type} (P : A -> Prop) l x :
  Forall P l -> P x -> Forall P (l ++ [x]).
Proof. intros Hl Hx. apply Forall_app. split; [exact Hl|]. constructor; [exact Hx|constructor]. Qed.

Lemma stop_coherent s :
  Coherence.settled vocabulary s ->
  Coherence.coherent vocabulary (stopSuggestopedia s).
Proof.
  intros (_ & Hp & Hsh & Hsp). split; [|intros H; discriminate H].
  settle. exact I.
Qed.

Lemma setIndex_settled i s :
  Coherence.settled vocabulary s ->
  Coherence.settled vocabulary (setSuggestopediaWordIndex i s).
Proof. intros H. exact H. Qed.

(** A fresh invocation keeps the session coherent, and the invocation it
    suspends holds the word of its index. *)
Lemma runSuggestopediaCycle_coherent index s :
  Coherence.settled vocabulary s ->
  Coherence.coherent vocabulary (fst (runSuggestopediaCycle vocabulary index s)) /\
  match snd (runSuggestopediaCycle vocabulary index s) with
  | Some c => nth_error vocabulary (cycleIndex c) = Some (cycleWord c)
  | None => True
  end.
Proof.
  intros Hs. unfold runSuggestopediaCycle.
  destruct (nth_error vocabulary index) as [w|] eqn:Hw.
  - destruct Hs as (Ha & Hp & Hsh & Hsp). session_cbn.
    destruct (suggestopediaActiveRef s) eqn:Href; cbn [negb fst snd].
    + split; [|exact Hw].
      assert (Hi : (index < List.length vocabulary)%nat)
        by (apply nth_error_Some; rewrite Hw; discriminate).
      split; [|intros _; exact Hi].
      settle.
      * exact Hi.
      * apply speak_german. exact (nth_error_In _ _ Hw).
    + split; [|exact I]. split; [|session_cbn; rewrite Href; discriminate].
      settle.
  - cbn [fst snd]. split; [|exact I]. apply stop_coherent. apply setIndex_settled. exact Hs.
Qed.

Lemma update_Forall (P : Cycle -> Prop) k oc l :
  Forall P l -> match oc with Some c => P c | None => True end ->
  Forall P (update k oc l).
Proof.
  intros Hl Hc. revert k. induction Hl as [|x l Hx Hl IH]; intros k.
  - destruct k; constructor.
  - destruct k as [|k]; cbn [update].
    + destruct oc; [constructor|]; assumption.
    + constructor; [exact Hx|apply IH].
Qed.

Lemma spawn_coherent r :
  Coherence.coherent vocabulary (fst r) ->
  match snd r with
  | Some c => nth_error vocabulary (cycleIndex c) = Some (cycleWord c)
  | None => True
  end ->
  Coherence.coherent vocabulary (spawn r).
Proof.
  intros Hc Hr. unfold spawn. destruct (snd r) as [c|]; [|exact Hc].
  destruct Hc as ((Ha & Hp & Hsh & Hsp) & Hi).
  split; [|exact Hi]. settle. exact Hr.
Qed.

(** A resumed invocation keeps the session coherent. *)
Lemma resume_coherent c s :
  Coherence.coherent vocabulary s ->
  nth_error vocabulary (cycleIndex c) = Some (cycleWord c) ->
  Coherence.coherent vocabulary (fst (resume vocabulary c s)) /\
  match snd (resume vocabulary c s) with
  | Some c' => nth_error vocabulary (cycleIndex c') = Some (cycleWord c')
  | None => True
  end.
Proof.
  intros Hc Hw. pose proof Hc as ((Ha & Hp & Hsh & Hsp) & Hi).
  pose proof (nth_error_In _ _ Hw) as Hin.
  unfold resume.
  destruct (cycleAt c); destruct (suggestopediaActiveRef s) eqn:Href;
    cbn [negb fst snd cycleIndex cycleWord];
    try (split; [exact Hc|exact I || exact Hw]).
  - (* the translation is shown and spoken *)
    split; [|exact Hw]. split; [|session_cbn; intros _; exact (Hi eq_refl)].
    settle.
    + exact (Hi eq_refl).
    + apply speak_bulgarian. exact Hin.
  - (* the fixation is shown and spoken *)
    split; [|exact Hw]. split; [|session_cbn; intros _; exact (Hi eq_refl)].
    settle.
    + exact (Hi eq_refl).
    + apply speak_german. exact Hin.
  - (* the next invocation starts *)
    apply runSuggestopediaCycle_coherent. exact (proj1 Hc).
Qed.

Lemma step_coherent s e :
  Coherence.coherent vocabulary s ->
  Coherence.coherent vocabulary (step vocabulary s e).
Proof.
  intros Hc. pose proof Hc as ((Ha & Hp & Hsh & Hsp) & Hi).
  destruct e as [| | |k]; cbn [step].
  - (* Start *)
    unfold startSuggestopedia.
    set (s0 := setSuggestopediaWordIndex 0 (setRef true (setSuggestopediaActive true s))).
    assert (H0 : Coherence.settled vocabulary s0) by (subst s0; settle).
    destruct (runSuggestopediaCycle_coherent 0 s0 H0) as [H1 H2].
    apply spawn_coherent; assumption.
  - (* Stop *)
    apply stop_coherent. exact (proj1 Hc).
  - (* Skip *)
    unfold skipToNextWord.
    assert (H0 : Coherence.settled vocabulary (call CallCancel s)).
    { settle. exact I. }
    destruct (Nat.ltb_spec (suggestopediaWordIndex (call CallCancel s) + 1)
                           (List.length vocabulary)) as [Hlt|Hge].
    + destruct (runSuggestopediaCycle_coherent
                  (suggestopediaWordIndex (call CallCancel s) + 1)
                  (setSuggestopediaWordIndex
                     (suggestopediaWordIndex (call CallCancel s) + 1)
                     (call CallCancel s)) H0) as [H1 H2].
      apply spawn_coherent; assumption.
    + apply stop_coherent. exact H0.
  - (* Resume *)
    destruct (nth_error (pending s) k) as [c|] eqn:Hk; [|exact Hc].
    assert (Hw : nth_error vocabulary (cycleIndex c) = Some (cycleWord c)).
    { rewrite Forall_forall in Hp. apply Hp. exact (nth_error_In _ _ Hk). }
    destruct (resume_coherent c s Hc Hw) as [((Ha' & Hp' & Hsh' & Hsp') & Hi') Hc'].
    split; [|session_cbn; exact Hi'].
    settle. apply update_Forall; [exact Hp|exact Hc'].
Qed.

Lemma run_coherent events : forall s,
  Coherence.coherent vocabulary s ->
  Coherence.coherent vocabulary (run vocabulary events s).
Proof.
  induction events as [|e events IH]; intros s Hs; [exact Hs|].
  cbn [run fold_left]. apply IH. apply step_coherent. exact Hs.
Qed.

Lemma initial_coherent : Coherence.coherent vocabulary initial.
Proof. split; [repeat split; constructor|intros H; discriminate H]. Qed.

End Coherent.

(** X20.  Whatever happens to a session (starts, stops, skips and resumptions of
    suspended invocations, in any order), the state [suggestopediaActive]
    and the ref agree, and the overlay is on screen exactly while the session
    is active: an active session always has a word of the vocabulary to
    show, numbered between 1 and the number of words. *)
Theorem overlay_follows_activity
    (vocabulary : list WordPair) (events : list Event) :
  let s := run vocabulary events initial in
  suggestopediaActive s = suggestopediaActiveRef s /\
  (suggestopediaActive s = false ->
   Overlay.renderSuggestopediaOverlay vocabulary s = None) /\
  (suggestopediaActive s = true ->
   exists v,
     Overlay.renderSuggestopediaOverlay vocabulary s = Some v /\
     nth_error vocabulary (suggestopediaWordIndex s) = Some (Overlay.shownWord v) /\
     Overlay.shownStep v = suggestopediaStep s /\
     Overlay.position v = (suggestopediaWordIndex s + 1)%nat /\
     (1 <= Overlay.position v <= Overlay.total v)%nat /\
     Overlay.total v = List.length vocabulary).
Proof.
  cbv zeta.
  destruct (run_coherent vocabulary events initial (initial_coherent vocabulary))
    as ((Ha & _) & Hi).
  set (s := run vocabulary events initial) in *.
  split; [exact Ha|]. unfold Overlay.renderSuggestopediaOverlay. split.
  - intros ->. reflexivity.
  - intros Hact. rewrite Hact. cbn [negb].
    rewrite Hact in Ha. specialize (Hi (eq_sym Ha)).
    destruct (nth_error vocabulary (suggestopediaWordIndex s)) as [w|] eqn:Hw.
    + eexists. split; [reflexivity|]. cbn [Overlay.shownWord Overlay.shownStep
        Overlay.position Overlay.total].
      repeat split; lia.
    + apply nth_error_None in Hw. lia.
Qed.

(** X21.  Whatever happens to a session, every step that was put on screen was
    shown for an index of the vocabulary, and every word that was spoken is a
    word of the vocabulary, German at rate 0.8 or its translation at rate
    1.0. *)
Theorem session_stays_in_vocabulary
    (vocabulary : list WordPair) (events : list Event) :
  let s := run vocabulary events initial in
  Forall (fun p => (fst p < List.length vocabulary)%nat) (shown s) /\
  Forall (Coherence.fromVocabulary vocabulary) (speech s) /\
  Forall (fun c => nth_error vocabulary (cycleIndex c) = Some (cycleWord c)) (pending s).
Proof.
  cbv zeta.
  destruct (run_coherent vocabulary events initial (initial_coherent vocabulary))
    as ((_ & Hp & Hsh & Hsp) & _).
  split; [exact Hsh|]. split; [exact Hsp|exact Hp].
Qed.

(** * Suspended invocations after a stop *)

Lemma resume_remaining vocabulary c s :
  suggestopediaActiveRef s = false ->
  fst (resume vocabulary c s) = s /\
  match snd (resume vocabulary c s) with
  | Some c' => (Coherence.remaining c' < Coherence.remaining c)%nat
  | None => True
  end.
Proof.
  intros Href. unfold resume, Coherence.remaining. rewrite Href. cbn [negb].
  destruct (cycleAt c); cbn; split; try reflexivity; try exact I. lia.
Qed.

Lemma remaining_pos c : (1 <= Coherence.remaining c <= 2)%nat.
Proof. unfold Coherence.remaining. destruct (cycleAt c); lia. Qed.

Lemma remaining_cons c l :
  list_sum (List.map Coherence.remaining (c :: l))
  = (Coherence.remaining c + list_sum (List.map Coherence.remaining l))%nat.
Proof. reflexivity. Qed.

Lemma drain vocabulary k : forall s,
  suggestopediaActiveRef s = false ->
  (list_sum (List.map Coherence.remaining (pending s)) <= k)%nat ->
  pending (run vocabulary (repeat (Resume 0) k) s) = [] /\
  observable (run vocabulary (repeat (Resume 0) k) s) = observable s.
Proof.
  induction k as [|k IH]; intros s Href Hm.
  - cbn [repeat run fold_left]. split; [|reflexivity].
    destruct (pending s) as [|c rest]; [reflexivity|].
    rewrite remaining_cons in Hm. pose proof (remaining_pos c). lia.
  - cbn [repeat run fold_left]. fold (run vocabulary (repeat (Resume 0) k)).
    cbn [step]. destruct (pending s) as [|c rest] eqn:Hp; cbn [nth_error]; cbv zeta.
    + apply IH; [exact Href|]. rewrite Hp. cbn. lia.
    + destruct (resume_remaining vocabulary c s Href) as [Hs Hr]. rewrite Hs.
      set (s' := setPending (update 0 (snd (resume vocabulary c s)) (c :: rest)) s).
      assert (Ho : observable s' = observable s) by reflexivity.
      assert (Href' : suggestopediaActiveRef s' = false) by exact Href.
      destruct (IH s' Href') as [H1 H2].
      * subst s'. cbn [setPending pending update].
        rewrite remaining_cons in Hm.
        destruct (snd (resume vocabulary c s)) as [c'|].
        -- cbv beta iota in Hr. rewrite remaining_cons. lia.
        -- pose proof (remaining_pos c). lia.
      * split; [exact H1|exact (eq_trans H2 Ho)].
Qed.

Lemma list_sum_remaining l :
  (list_sum (List.map Coherence.remaining l) <= 2 * List.length l)%nat.
Proof.
  induction l as [|c l IH]; [cbn; lia|].
  rewrite remaining_cons. cbn [List.length]. pose proof (remaining_pos c). lia.
Qed.

(** X22.  Once the session has been stopped, every suspended invocation comes to
    an end on its own: when each has been let run on at most twice none is
    left, and none of them has spoken, changed the screen or switched the
    session back on. *)
Theorem stopped_invocations_end
    (vocabulary : list WordPair) (s : Session) :
  suggestopediaActiveRef s = false ->
  let events := repeat (Resume 0) (2 * List.length (pending s)) in
  pending (run vocabulary events s) = [] /\
  observable (run vocabulary events s) = observable s.
Proof.
  intros Href. cbv zeta. apply drain; [exact Href|apply list_sum_remaining].
Qed.

Lemma stopped_invocations_end_witness :
  let s := run vocab3 [Start; Skip; Resume 0; Resume 0; Stop] initial in
  List.length (pending s) = 2%nat /\
  pending (run vocab3 (repeat (Resume 0) 4) s) = [] /\
  observable (run vocab3 (repeat (Resume 0) 4) s) = observable s.
Proof.
  cbv zeta. split; [reflexivity|].
  exact (stopped_invocations_end vocab3
           (run vocab3 [Start; Skip; Resume 0; Resume 0; Stop] initial) eq_refl).
Defined.

(** X23.  A stop does not end the invocation that is suspended: if the session is
    started again before that invocation has been let run on, it runs on
    beside the new one.  For every vocabulary with a first word, after
    start, stop and start two invocations for the first word are suspended,
    and when both have been let run on twice the translation of the word has
    been shown and spoken twice. *)
Theorem restart_revives_stopped_invocation (w : WordPair) (rest : list WordPair) :
  let vocabulary := w :: rest in
  let s := run vocabulary [Start; Stop; Start] initial in
  pending s = [mkCycle 0 w AwaitIntroSpeech; mkCycle 0 w AwaitIntroSpeech] /\
  suggestopediaActiveRef s = true /\
  let s' := run vocabulary [Resume 0; Resume 0; Resume 1; Resume 1] s in
  speech s' = [CallSpeak (german w) de_DE Num.lit_0_8;
               CallCancel;
               CallSpeak (german w) de_DE Num.lit_0_8;
               CallSpeak (bulgarian w) bg_BG Num.lit_1_0;
               CallSpeak (bulgarian w) bg_BG Num.lit_1_0] /\
  shown s' = [(0%nat, StepIntro); (0%nat, StepIntro);
              (0%nat, StepBulgarian); (0%nat, StepBulgarian)] /\
  pending s' = [mkCycle 0 w AwaitTranslationSpeech; mkCycle 0 w AwaitTranslationSpeech].
Proof.
  cbv zeta. repeat split.
Qed.

(** * Two utterances in a row *)

(** X24.  [currentUtteranceRef] is there to keep the utterance that is being spoken
    from being collected.  When [speak] is called twice, the ref holds the
    second utterance; a report for the first one (its end, or the error that
    interrupts it) then resolves the first promise only, but it clears the
    ref, so that the second utterance is no longer held although its promise
    is still pending. *)
Theorem earlier_utterance_clears_the_ref
    (text1 text2 : jsstring) (lang1 lang2 : Lang) (rate1 rate2 : number)
    (st : Synth) (o : Outcome) :
  let p1 := fst (speak text1 lang1 rate1 st) in
  let st1 := snd (speak text1 lang1 rate1 st) in
  let p2 := fst (speak text2 lang2 rate2 st1) in
  let st2 := snd (speak text2 lang2 rate2 st1) in
  let u1 := List.length (utterances st) in
  let st3 := deliver (o, u1) st2 in
  p1 <> p2 /\
  currentUtteranceRef st2 = Some (S u1) /\
  nth_error (utterances st2) (S u1) = Some (mkUtterance text2 lang2 rate2 p2) /\
  currentUtteranceRef st3 = None /\
  promiseState st3 p1 = Some Resolved /\
  promiseState st3 p2 = Some Pending.
Proof.
  cbv zeta.
  destruct (speak_result text1 lang1 rate1 st) as (Hp1 & Hpend1 & Hu1).
  set (st1 := snd (speak text1 lang1 rate1 st)) in *.
  destruct (speak_result text2 lang2 rate2 st1) as (Hp2 & Hpend2 & Hu2).
  set (st2 := snd (speak text2 lang2 rate2 st1)) in *.
  assert (L1 : List.length (promises st1) = S (List.length (promises st))).
  { subst st1. unfold speak. cbn [snd promises]. rewrite length_app.
    destruct (speaking st); cbn [cancel promises List.length]; lia. }
  assert (U1 : List.length (utterances st1) = S (List.length (utterances st))).
  { subst st1. unfold speak. cbn [snd utterances]. rewrite length_app.
    destruct (speaking st); cbn [cancel utterances List.length]; lia. }
  assert (P2 : promises st2 = promises st1 ++ [Pending]).
  { subst st2. unfold speak. cbn [snd promises]. destruct (speaking st1); reflexivity. }
  assert (U2 : utterances st2 = utterances st1 ++ [mkUtterance text2 lang2 rate2 (List.length (promises st1))]).
  { subst st2. unfold speak. cbn [snd utterances promises].
    destruct (speaking st1); reflexivity. }
  assert (R2 : currentUtteranceRef st2 = Some (List.length (utterances st1))).
  { subst st2. unfold speak. cbn [snd currentUtteranceRef].
    destruct (speaking st1); reflexivity. }
  rewrite Hp1, Hp2, L1.
  split; [lia|]. split; [rewrite R2, U1; reflexivity|].
  split; [rewrite <- U1, <- L1; exact Hu2|].
  assert (N1 : nth_error (utterances st2) (List.length (utterances st))
               = Some (mkUtterance text1 lang1 rate1 (List.length (promises st)))).
  { rewrite U2, nth_error_app1 by lia. exact Hu1. }
  unfold deliver. cbn [fst snd]. rewrite N1.
  assert (E : promises (handler o (mkUtterance text1 lang1 rate1 (List.length (promises st))) st2)
              = settle (List.length (promises st)) (promises st2))
    by (destruct o; reflexivity).
  assert (C : currentUtteranceRef
                (handler o (mkUtterance text1 lang1 rate1 (List.length (promises st))) st2)
              = None) by (destruct o; reflexivity).
  split; [exact C|]. unfold promiseState in *. rewrite E. split.
  - rewrite settle_same, P2, nth_error_app1 by lia. rewrite Hpend1. reflexivity.
  - rewrite settle_other by lia. rewrite <- L1, <- Hp2. exact Hpend2.
Qed.
